(** * L402 helpers of hls.js: a shallow embedding and its properties

    The development follows [src/utils/l402-helpers.ts]: the base64 and
    varint primitives, the two macaroon decoders (v2 binary, v1 packets),
    the caveat grammar and the constraint aggregators, the challenge
    parser and the header injection.

    Conventions.
    - A JavaScript string is the list of its UTF-16 code units.
    - A [Uint8Array] is a list of bytes; reading outside of it yields
      [undefined], which is [None] here.
    - Integers that only flow through integer arithmetic are in [Z];
      the 32-bit wrap-around of the bitwise operators is written out.
    - Numbers that come out of [Number(...)] or [Date.now()] are IEEE
      binary64 values, as in the language.
    - A loop that can fail to terminate is run with fuel; [None] then
      stands for "did not return within the fuel", never for an
      exception. *)

From Stdlib Require Import ZArith NArith List Lia Bool Ascii String.
From Stdlib.Strings Require Import Byte.
From Stdlib Require Import PrimFloat Uint63.
From stdpp Require Import base option list gmap.

Import ListNotations.
Local Open Scope Z_scope.

(** ** JavaScript values *)

Module JS.

(** A string is its sequence of UTF-16 code units. *)
Definition jsstring := list N.

(** Literals: every character of a Rocq string is one code unit. *)
Definition str (s : string) : jsstring :=
  map N_of_ascii (list_ascii_of_string s).

(** [ToInt32]: wrap to the signed 32-bit range. *)
Definition toInt32 (z : Z) : Z := (z + 2 ^ 31) mod 2 ^ 32 - 2 ^ 31.

(** [a & b], [a | b] and [a << n] of the language: operands wrapped to
    32 bits, the shift count taken modulo 32, the result signed. *)
Definition and32 (a b : Z) : Z := toInt32 (Z.land (toInt32 a) (toInt32 b)).
Definition or32 (a b : Z) : Z := toInt32 (Z.lor (toInt32 a) (toInt32 b)).
Definition shl32 (a n : Z) : Z := toInt32 (Z.shiftl (toInt32 a) (n mod 32)).

(** The numeric value of an array read: [undefined] converts to [NaN],
    which every bitwise operator reads as 0. *)
Definition int_of_read (b : option byte) : Z :=
  match b with
  | Some x => Z.of_N (Byte.to_N x)
  | None => 0
  end.

(** [String.fromCharCode(x)] for an array read: [undefined] gives the
    code unit 0. *)
Definition fromCharCode (b : option byte) : N :=
  match b with
  | Some x => Byte.to_N x
  | None => 0%N
  end.

End JS.

Import JS.

(** ** Byte buffers *)

Definition Uint8Array := list byte.

(** [data.length] *)
Definition len (data : Uint8Array) : Z := Z.of_nat (length data).

(** [data[pos]] for an integer [pos]; [None] is [undefined]. *)
Definition get (data : Uint8Array) (pos : Z) : option byte :=
  if pos <? 0 then None else data !! Z.to_nat pos.

(** ** Macaroon v2 binary field types *)

Definition FIELD_EOS : Z := 0.
Definition FIELD_IDENTIFIER : Z := 2.
Definition FIELD_SIGNATURE : Z := 6.

(** ** readVarint *)

(** The [while] loop of [readVarint], one iteration per unit of fuel. *)
Fixpoint readVarint_loop (fuel : nat) (data : Uint8Array)
    (value shift pos : Z) : Z * Z :=
  match fuel with
  | O => (value, pos)
  | S fuel' =>
      if pos <? len data then
        let b := get data pos in
        let pos := pos + 1 in
        let value := or32 value (shl32 (and32 (int_of_read b) 127) shift) in
        if and32 (int_of_read b) 128 =? 0 then (value, pos)
        else readVarint_loop fuel' data value (shift + 7) pos
      else (value, pos)
  end.

(** Every iteration either leaves the loop or moves [pos] one byte
    forward, so [length data + 1] iterations always suffice. *)
Definition readVarint (data : Uint8Array) (pos : Z) : Z * Z :=
  readVarint_loop (S (length data)) data 0 0 pos.

(** [bytesToString(data, start, len)] *)
Fixpoint bytesToString_loop (data : Uint8Array) (start : Z) (i : Z)
    (n : nat) : jsstring :=
  match n with
  | O => []
  | S n' => fromCharCode (get data (start + i))
            :: bytesToString_loop data start (i + 1) n'
  end.

Definition bytesToString (data : Uint8Array) (start n : Z) : jsstring :=
  bytesToString_loop data start 0 (Z.to_nat n).

(** ** What [readVarint] consumes and computes *)

(** The high bit of a byte: the continuation flag of a varint. *)
Definition high_bit (b : byte) : bool := Z.testbit (Z.of_N (Byte.to_N b)) 7.

(** The bytes a varint occupies in a buffer suffix: up to and including
    the first byte whose high bit is clear, or the whole suffix. *)
Fixpoint varint_run (l : list byte) : list byte :=
  match l with
  | [] => []
  | b :: r => if high_bit b then b :: varint_run r else [b]
  end.

(** The sum of [(b_i mod 128) * 2^(7*i)] over the bytes [b_i], the first
    byte having index [i]. *)
Fixpoint varint_sum_from (i : Z) (run : list byte) : Z :=
  match run with
  | [] => 0
  | b :: r =>
      (Z.of_N (Byte.to_N b) mod 128) * 2 ^ (7 * i) + varint_sum_from (i + 1) r
  end.

Definition varint_sum (run : list byte) : Z := varint_sum_from 0 run.

(** The value the 32-bit operators accumulate over the same bytes. *)
Fixpoint varint_acc32 (value shift : Z) (run : list byte) : Z :=
  match run with
  | [] => value
  | b :: r =>
      varint_acc32
        (or32 value (shl32 (and32 (Z.of_N (Byte.to_N b)) 127) shift))
        (shift + 7) r
  end.

(** The reading of [readVarint] as an arbitrary-precision decoder. *)
Definition readVarint_unbounded (d : Uint8Array) (p : Z) : Prop :=
  let run := varint_run (drop (Z.to_nat p) d) in
  readVarint d p = (varint_sum run, p + Z.of_nat (length run)).


(** ** String primitives *)

(** [WhiteSpace] and [LineTerminator] code units: what [trim], [parseInt]
    and the regular-expression class [\s] skip. *)
Definition isWhiteSpace (c : N) : bool :=
  ((9 <=? c) && (c <=? 13) || (c =? 32) || (c =? 160) || (c =? 5760)
   || (8192 <=? c) && (c <=? 8202) || (c =? 8232) || (c =? 8233)
   || (c =? 8239) || (c =? 8287) || (c =? 12288) || (c =? 65279))%N.

(** The regular-expression class [\w]: [A-Za-z0-9_]. *)
Definition isWord (c : N) : bool :=
  ((65 <=? c) && (c <=? 90) || (97 <=? c) && (c <=? 122)
   || (48 <=? c) && (c <=? 57) || (c =? 95))%N.

(** The longest prefix whose code units satisfy [p]. *)
Fixpoint takeWhile (p : N -> bool) (s : jsstring) : jsstring :=
  match s with
  | c :: r => if p c then c :: takeWhile p r else []
  | [] => []
  end.

Fixpoint dropWhile (p : N -> bool) (s : jsstring) : jsstring :=
  match s with
  | c :: r => if p c then dropWhile p r else s
  | [] => []
  end.

(** [s.trim()] *)
Definition trim (s : jsstring) : jsstring :=
  rev (dropWhile isWhiteSpace (rev (dropWhile isWhiteSpace s))).

(** [s.indexOf(c)] for a one-unit needle; [None] is [-1]. *)
Fixpoint indexOf (c : N) (s : jsstring) : option nat :=
  match s with
  | [] => None
  | x :: r => if (x =? c)%N then Some O
              else match indexOf c r with
                   | Some i => Some (S i)
                   | None => None
                   end
  end.

(** [a === b] on strings *)
Definition str_eqb (a b : jsstring) : bool := bool_decide (a = b).

(** [s.endsWith(c)] for a one-unit suffix *)
Definition endsWith (c : N) (s : jsstring) : bool :=
  match last s with
  | Some x => (x =? c)%N
  | None => false
  end.

(** ** parseInt(s, 16) *)

(** The value of a hexadecimal digit. *)
Definition hexDigit (c : N) : option Z :=
  (if (48 <=? c) && (c <=? 57) then Some (Z.of_N (c - 48))
   else if (97 <=? c) && (c <=? 102) then Some (Z.of_N (c - 87))
   else if (65 <=? c) && (c <=? 70) then Some (Z.of_N (c - 55))
   else None)%N.

(** The value of the longest prefix of hexadecimal digits, with [acc]
    the value of the digits read so far; [None] when [s] does not start
    with a digit and none was read ([seen = false]). *)
Fixpoint hexPrefix (seen : bool) (acc : Z) (s : jsstring) : option Z :=
  match s with
  | c :: r =>
      match hexDigit c with
      | Some d => hexPrefix true (16 * acc + d) r
      | None => if seen then Some acc else None
      end
  | [] => if seen then Some acc else None
  end.

(** The steps of [parseInt(s, 16)] before the digits: skip leading white
    space, read an optional sign, skip an optional [0x] or [0X]. *)
Definition parseInt_unsigned (s : jsstring) : jsstring :=
  match dropWhile isWhiteSpace s with
  | c :: r => if ((c =? 45) || (c =? 43))%N then r else c :: r
  | [] => []
  end.

Definition parseInt_sign (s : jsstring) : Z :=
  match dropWhile isWhiteSpace s with
  | c :: _ => if (c =? 45)%N then -1 else 1
  | [] => 1
  end.

Definition parseInt_digits (s : jsstring) : jsstring :=
  match parseInt_unsigned s with
  | c1 :: c2 :: r =>
      if ((c1 =? 48) && ((c2 =? 120) || (c2 =? 88)))%N then r
      else c1 :: c2 :: r
  | r => r
  end.

(** [parseInt(s, 16)]: the longest run of hexadecimal digits after the
    steps above, with the sign; what follows the digits is ignored.
    [None] is [NaN]; the sign of a zero result is not kept. *)
Definition parseInt16 (s : jsstring) : option Z :=
  match hexPrefix false 0 (parseInt_digits s) with
  | Some n => Some (parseInt_sign s * n)
  | None => None
  end.

(** ** extractCaveatsV2 *)

(** The variables of the decoding loop. *)
Record V2State := mkV2 {
  caveats : list jsstring;
  pos : Z;
  isFirstSection : bool
}.

(** How one iteration of a loop ends: with [continue] or by falling
    through to the next iteration, or with [break]. *)
Inductive iteration (S : Type) :=
| Continue (s : S)
| Break (s : S).
Arguments Continue {S} s.
Arguments Break {S} s.

(** The body of the [while] loop of [extractCaveatsV2]. *)
Definition v2_body (data : Uint8Array) (s : V2State) : iteration V2State :=
  let '(fieldType, p1) := readVarint data (pos s) in
  if fieldType =? FIELD_EOS then
    Continue (mkV2 (caveats s) p1 false)
  else
    let '(fieldLen, p2) := readVarint data p1 in
    if p2 + fieldLen >? len data then
      Break (mkV2 (caveats s) p2 (isFirstSection s))
    else
      let caveats' :=
        if (fieldType =? FIELD_IDENTIFIER) && negb (isFirstSection s)
        then caveats s ++ [bytesToString data p2 fieldLen]
        else caveats s in
      if fieldType =? FIELD_SIGNATURE then
        Break (mkV2 caveats' p2 (isFirstSection s))
      else
        Continue (mkV2 caveats' (p2 + fieldLen) (isFirstSection s)).

(** The loop, one iteration per unit of fuel; [None] when the fuel runs
    out before the loop is left. *)
Fixpoint v2_loop (fuel : nat) (data : Uint8Array) (s : V2State)
    : option (list jsstring) :=
  match fuel with
  | O => None
  | S fuel' =>
      if pos s <? len data then
        match v2_body data s with
        | Continue s' => v2_loop fuel' data s'
        | Break s' => Some (caveats s')
        end
      else Some (caveats s)
  end.

Definition v2_init : V2State := mkV2 [] 1 true.

Definition extractCaveatsV2 (fuel : nat) (data : Uint8Array)
    : option (list jsstring) :=
  v2_loop fuel data v2_init.

(** The states the loop passes through at the head of an iteration. *)
Inductive v2_reach (data : Uint8Array) : V2State -> Prop :=
| v2_reach_init : v2_reach data v2_init
| v2_reach_step s s' :
    v2_reach data s -> pos s < len data -> v2_body data s = Continue s' ->
    v2_reach data s'.

(** The phases of the decoder in the words of the specification. *)
Inductive v2_phase := Header | CaveatSection | Done.

Definition phase_of_state (s : V2State) : v2_phase :=
  if isFirstSection s then Header else CaveatSection.

Definition phase_after (r : iteration V2State) : v2_phase :=
  match r with
  | Continue s' => phase_of_state s'
  | Break _ => Done
  end.

Definition state_after (r : iteration V2State) : V2State :=
  match r with
  | Continue s' => s'
  | Break s' => s'
  end.

(** ** extractCaveatsV1 *)

Record V1State := mkV1 {
  caveats1 : list jsstring;
  pos1 : Z
}.

(** The body of the [while] loop of [extractCaveatsV1]. *)
Definition v1_body (data : Uint8Array) (s : V1State) : iteration V1State :=
  let lenHex := bytesToString data (pos1 s) 4 in
  match parseInt16 lenHex with
  | None => Break s
  | Some packetLen =>
      if (packetLen <? 9) || (pos1 s + packetLen >? len data) then Break s
      else
        let packetData := bytesToString data (pos1 s + 4) (packetLen - 4) in
        let caveats' :=
          match indexOf 32 packetData with
          | Some spaceIdx =>
              let key := take spaceIdx packetData in
              if str_eqb key (str "cid") then
                let value := drop (spaceIdx + 1) packetData in
                let value :=
                  if endsWith 10 value then removelast value else value in
                caveats1 s ++ [value]
              else caveats1 s
          | None => caveats1 s
          end in
        Continue (mkV1 caveats' (pos1 s + packetLen))
  end.

(** The loop. A packet is at least 9 bytes long, so [pos] grows in every
    iteration and [length data] iterations are never used up. *)
Fixpoint v1_loop (fuel : nat) (data : Uint8Array) (s : V1State)
    : list jsstring :=
  match fuel with
  | O => caveats1 s
  | S fuel' =>
      if pos1 s + 8 <? len data then
        match v1_body data s with
        | Continue s' => v1_loop fuel' data s'
        | Break s' => caveats1 s'
        end
      else caveats1 s
  end.

Definition extractCaveatsV1 (data : Uint8Array) : list jsstring :=
  v1_loop (length data) data (mkV1 [] 0).

(** ** base64ToBytes *)

(** The outcome of an operation that can throw. *)
Inductive completion (A : Type) :=
| Normal (a : A)
| Throw.
Arguments Normal {A} a.
Arguments Throw {A}.

(** [try { body } catch { handler }] *)
Definition try_catch {A} (body : completion A) (handler : A) : A :=
  match body with
  | Normal a => a
  | Throw => handler
  end.

(** [s.replace(/a/g, b)] for one-unit [a] and [b] *)
Definition replaceAll (a b : N) (s : jsstring) : jsstring :=
  map (fun c => if (c =? a)%N then b else c) s.

(** The white space that [atob] removes: TAB, LF, FF, CR and SPACE. *)
Definition isAsciiWhitespace (c : N) : bool :=
  ((c =? 9) || (c =? 10) || (c =? 12) || (c =? 13) || (c =? 32))%N.

(** The six bits a character of the base64 alphabet stands for. *)
Definition b64Value (c : N) : option N :=
  (if (65 <=? c) && (c <=? 90) then Some (c - 65)
   else if (97 <=? c) && (c <=? 122) then Some (c - 71)
   else if (48 <=? c) && (c <=? 57) then Some (c + 4)
   else if c =? 43 then Some 62
   else if c =? 47 then Some 63
   else None)%N.

Fixpoint b64Values (s : jsstring) : option (list N) :=
  match s with
  | [] => Some []
  | c :: r =>
      match b64Value c, b64Values r with
      | Some v, Some vs => Some (v :: vs)
      | _, _ => None
      end
  end.

(** Groups of four sextets give three bytes; a final group of two gives
    one byte and a final group of three gives two, the spare bits being
    dropped. *)
Fixpoint b64Bytes (fuel : nat) (v : list N) : list N :=
  match fuel with
  | O => []
  | S fuel' =>
      match v with
      | a :: b :: c :: d :: r =>
          (a * 4 + b / 16) :: ((b mod 16) * 16 + c / 4)
            :: ((c mod 4) * 64 + d) :: b64Bytes fuel' r
      | [a; b; c] => [a * 4 + b / 16; (b mod 16) * 16 + c / 4]
      | [a; b] => [a * 4 + b / 16]
      | _ => []
      end
  end%N.

(** Drop one or two trailing [=]. *)
Definition stripPadding (s : jsstring) : jsstring :=
  match rev s with
  | 61%N :: 61%N :: r => rev r
  | 61%N :: r => rev r
  | _ => s
  end.

(** [atob(s)], the forgiving base64 decoder of the platform: ASCII white
    space is removed; when the length is then a multiple of 4, one or two
    trailing [=] are removed; a length of 1 modulo 4 or any character
    outside the alphabet throws. The result has one code unit per byte.
    (A code unit outside ASCII makes the call throw whatever the length,
    so counting code units instead of code points changes nothing.) *)
Definition atob (s : jsstring) : completion jsstring :=
  let d := filter (fun c => negb (isAsciiWhitespace c)) s in
  let d := if (length d mod 4 =? 0)%nat then stripPadding d else d in
  if (length d mod 4 =? 1)%nat then Throw
  else
    match b64Values d with
    | Some v => Normal (b64Bytes (length v) v)
    | None => Throw
    end.

(** The [while (b64.length % 4) b64 += '='] loop. *)
Definition padTo4 (s : jsstring) : jsstring :=
  s ++ repeat 61%N ((4 - length s mod 4) mod 4)%nat.

(** Storing a code unit in a [Uint8Array] keeps its low 8 bits. *)
Definition byte_of_unit (c : N) : byte :=
  match Byte.of_N (c mod 256) with
  | Some b => b
  | None => x00
  end.

Definition base64ToBytes (s : jsstring) : completion Uint8Array :=
  let b64 := replaceAll 95 47 (replaceAll 45 43 s) in
  let b64 := padTo4 b64 in
  match atob b64 with
  | Normal binary => Normal (map byte_of_unit binary)
  | Throw => Throw
  end.

(** ** extractCaveatsFromMacaroon *)

(** The body of the [try] block. The decoders contain no operation that
    throws: an array read out of range is [undefined]. *)
Definition extractCaveats_try (fuel : nat) (base64Macaroon : jsstring)
    : completion (option (list jsstring)) :=
  match base64ToBytes base64Macaroon with
  | Throw => Throw
  | Normal data =>
      if len data <? 2 then Normal (Some [])
      else if int_of_read (get data 0) =? 2 then
        Normal (extractCaveatsV2 fuel data)
      else Normal (Some (extractCaveatsV1 data))
  end.

(** [None]: the call did not return within the fuel. *)
Definition extractCaveatsFromMacaroon (fuel : nat) (base64Macaroon : jsstring)
    : option (list jsstring) :=
  try_catch (extractCaveats_try fuel base64Macaroon) (Some []).

(** ** decodeCaveat *)

Record Caveat := mkCaveat {
  condition : jsstring;
  comp : N;
  value : jsstring
}.

Definition isComparator (ch : N) : bool :=
  ((ch =? 61) || (ch =? 60) || (ch =? 62))%N.

(** The [for] loop of [decodeCaveat] at index [length before]: [before]
    holds the characters already passed, in order. *)
Fixpoint decodeCaveat_loop (before rest : jsstring) : option Caveat :=
  match rest with
  | [] => None
  | ch :: after =>
      if isComparator ch then
        Some (mkCaveat (trim before) ch (trim after))
      else decodeCaveat_loop (before ++ [ch]) after
  end.

Definition decodeCaveat (s : jsstring) : option Caveat :=
  decodeCaveat_loop [] s.

Definition MAX_BANDWIDTH_CONDITION : jsstring := str "max_bandwidth".
Definition EXPIRATION_CONDITION : jsstring := str "expiration".

(** ** Numbers *)

(** A number is falsy when it is [NaN], [+0] or [-0]. *)
Definition truthy (x : float) : bool :=
  negb (PrimFloat.is_nan x) && negb (PrimFloat.eqb x 0%float).

(** [x || 0] *)
Definition orZero (x : float) : float := if truthy x then x else 0%float.

(** ** Challenges and the regular expressions of the parser *)

Record L402Challenge := mkChallenge {
  macaroon : jsstring;
  invoice : jsstring;
  maxBandwidth : float;
  expiry : float
}.

(** [c.toLowerCase()] on the characters a key can hold ([\w]): only
    [A]-[Z] change. *)
Definition lowerUnit (c : N) : N :=
  (if (65 <=? c) && (c <=? 90) then c + 32 else c)%N.

Definition toLowerCase (s : jsstring) : jsstring := map lowerUnit s.

(** [/^(?:L402|LSAT)\s+/i]: the length of the match at the start of the
    header, if there is one. Without the [u] flag the ignore-case
    comparison never equates a code unit above 127 with an ASCII one, so
    only the two ASCII cases of each letter match. *)
Definition prefixMatch (header : jsstring) : option nat :=
  let scheme := toLowerCase (take 4 header) in
  if (length header <? 4)%nat then None
  else if str_eqb scheme (str "l402") || str_eqb scheme (str "lsat") then
    match takeWhile isWhiteSpace (drop 4 header) with
    | [] => None
    | ws => Some (4 + length ws)%nat
    end
  else None.

(** [pairRegex] tried at the start of [s]: one or more word characters
    (group 1), an equals sign, a double quote, any characters other than
    a double quote (group 2), a double quote. The result holds the two
    groups and the length of the match. The key is the whole run of word characters
    (a shorter one would be followed by a word character, not by [=]);
    the value runs to the next quote. *)
Definition pairMatchHere (s : jsstring)
    : option (jsstring * jsstring * nat) :=
  let key := takeWhile isWord s in
  match key, drop (length key) s with
  | _ :: _, 61%N :: 34%N :: r =>
      let value := takeWhile (fun c => negb (c =? 34)%N) r in
      match drop (length value) r with
      | 34%N :: _ => Some (key, value, (length key + length value + 3)%nat)
      | _ => None
      end
  | _, _ => None
  end.

(** The successive results of [pairRegex.exec(challenge)]: every call
    returns the leftmost match that starts at or after [lastIndex], and
    moves [lastIndex] to the end of that match. [skip] is the distance
    from the current character to [lastIndex]. *)
Fixpoint pairRegex_exec (skip : nat) (s : jsstring)
    : list (jsstring * jsstring) :=
  match s with
  | [] => []
  | _ :: s' =>
      match skip with
      | S k => pairRegex_exec k s'
      | O =>
          match pairMatchHere s with
          | Some (key, value, n) => (key, value) :: pairRegex_exec (n - 1) s'
          | None => pairRegex_exec 0 s'
          end
      end
  end.

(** The body of the [while] loop over the matches: the pair of variables
    [(macaroon, invoice)] after one more match. *)
Definition assignPair (vars : jsstring * jsstring)
    (m : jsstring * jsstring) : jsstring * jsstring :=
  let key := toLowerCase (fst m) in
  if str_eqb key (str "macaroon") then (snd m, snd vars)
  else if str_eqb key (str "invoice") then (fst vars, snd m)
  else vars.

(** The values of [macaroon] and [invoice] when the scan ends. *)
Definition scanChallenge (header : jsstring) : jsstring * jsstring :=
  let challenge :=
    match prefixMatch header with
    | Some n => drop n header
    | None => header
    end in
  fold_left assignPair (pairRegex_exec 0 challenge) ([], []).

Section Aggregation.

(** [Number(s)] for a string [s]: the conversion of the language,
    which is not part of the repository. *)
Variable StringToNumber : jsstring -> float.

(** The body of the [for ... of] loop of the two aggregators, for the
    condition [cond]. *)
Definition aggregate_step (cond : jsstring) (acc : float)
    (cavStr : jsstring) : float :=
  match decodeCaveat cavStr with
  | Some cav =>
      if str_eqb (condition cav) cond
      then orZero (StringToNumber (value cav))
      else acc
  | None => acc
  end.

Definition aggregate (cond : jsstring) (cs : list jsstring) : float :=
  fold_left (aggregate_step cond) cs 0%float.

Definition getMaxBandwidthFromMacaroon (fuel : nat)
    (base64Macaroon : jsstring) : option float :=
  match extractCaveatsFromMacaroon fuel base64Macaroon with
  | Some cs => Some (aggregate MAX_BANDWIDTH_CONDITION cs)
  | None => None
  end.

Definition getExpirationFromMacaroon (fuel : nat)
    (base64Macaroon : jsstring) : option float :=
  match extractCaveatsFromMacaroon fuel base64Macaroon with
  | Some cs => Some (aggregate EXPIRATION_CONDITION cs)
  | None => None
  end.

(** [parseL402Challenge]: the outer [option] is [None] when the call
    did not return within the fuel; the inner one is [None] for
    [null]. *)
Definition parseL402Challenge (fuel : nat) (header : jsstring)
    : option (option L402Challenge) :=
  let '(macaroon, invoice) := scanChallenge header in
  if str_eqb macaroon [] || str_eqb invoice [] then Some None
  else
    match getMaxBandwidthFromMacaroon fuel macaroon with
    | None => None
    | Some maxBandwidth =>
        match getExpirationFromMacaroon fuel macaroon with
        | None => None
        | Some expiry =>
            Some (Some (mkChallenge macaroon invoice maxBandwidth expiry))
        end
    end.

End Aggregation.

(** ** applyL402Header *)

Record L402Token := mkToken {
  credential : jsstring;
  tokenMaxBandwidth : float;
  tokenExpiry : option float
}.

Section Loader.

(** The fields of a loader context other than [headers]; the type is
    declared outside of this module. *)
Variable LoaderFields : Type.

Record LoaderContext := mkContext {
  fields : LoaderFields;
  headers : option (gmap jsstring jsstring)
}.

(** [token.expiry && Date.now() > token.expiry], as a condition. *)
Definition expired (now : float) (e : option float) : bool :=
  match e with
  | Some x => truthy x && PrimFloat.ltb x now
  | None => false
  end.

(** [applyL402Header(context, token)], with [now] the value of
    [Date.now()]; the result is the context after the call. *)
Definition applyL402Header (now : float) (context : LoaderContext)
    (token : option L402Token) : LoaderContext :=
  match token with
  | Some t =>
      if negb (str_eqb (credential t) []) then
        if expired now (tokenExpiry t) then context
        else
          let h :=
            match headers context with
            | Some h => h
            | None => ∅
            end in
          mkContext (fields context)
            (Some (<[str "Authorization" := str "L402 " ++ credential t]> h))
      else context
  | None => context
  end.

End Loader.

(** ** The v2 wire format *)

(** Modelled from the spec: the layout of a v2 macaroon, for which the
    source has a decoder and no encoder. A buffer is the version byte 2,
    the header section, one section per caveat, and the trailer: an EOS
    and the signature field (type 6). A section is a sequence of fields,
    each a varint type, a varint length and the payload, closed by an
    EOS byte; this is the layout of js-macaroon, which the source names
    as the producer. Varints are written with 7 bits per byte, low bits
    first, the high bit set on every byte but the last. *)
Fixpoint encodeVarint_loop (fuel : nat) (n : N) : list byte :=
  match fuel with
  | O => []
  | S fuel' =>
      if (n <? 128)%N then [byte_of_unit n]
      else byte_of_unit (128 + n mod 128) :: encodeVarint_loop fuel' (n / 128)
  end.

Definition encodeVarint (n : N) : list byte :=
  encodeVarint_loop (S (N.to_nat (N.log2 n))) n.

Record V2Field := mkField {
  fieldType : N;
  fieldData : list byte
}.

Definition encodeField (f : V2Field) : list byte :=
  encodeVarint (fieldType f)
    ++ encodeVarint (N.of_nat (length (fieldData f))) ++ fieldData f.

Definition encodeSection (fs : list V2Field) : list byte :=
  concat (map encodeField fs) ++ [x00].

Record MacaroonV2 := mkMacaroon {
  headerFields : list V2Field;
  caveatSections : list (list V2Field);
  signature : list byte
}.

(** Modelled from the spec: version byte, header section, caveat
    sections, EOS, signature. *)
Definition encodeV2 (m : MacaroonV2) : Uint8Array :=
  [x02] ++ encodeSection (headerFields m)
    ++ concat (map encodeSection (caveatSections m))
    ++ [x00] ++ encodeField (mkField 6 (signature m)).

(** The fields of a section are neither EOS nor a signature. *)
Definition sectionField (f : V2Field) : Prop :=
  fieldType f <> 0%N /\ fieldType f <> 6%N.

(** Modelled from the spec: a valid v2 encoding is the encoding of a
    macaroon. *)
Definition validV2 (data : Uint8Array) : Prop :=
  exists m,
    Forall sectionField (headerFields m)
    /\ Forall (Forall sectionField) (caveatSections m)
    /\ data = encodeV2 m.

(** The caveat identifiers a macaroon carries, in order: the payloads of
    the identifier fields of its caveat sections. *)
Definition caveatsOf (m : MacaroonV2) : list jsstring :=
  map (fun f => map Byte.to_N (fieldData f))
    (filter (fun f => fieldType f = 2%N) (concat (caveatSections m))).

(** Truncation robustness, as the specification words it: the decoder
    returns on every prefix of the buffer, with a prefix of the caveats
    of the whole buffer. *)
Definition truncation_robust (data : Uint8Array) : Prop :=
  forall n, (n <= length data)%nat ->
    exists fuel cs_n cs,
      extractCaveatsV2 fuel (take n data) = Some cs_n
      /\ extractCaveatsV2 fuel data = Some cs
      /\ cs_n `prefix_of` cs.

(** A macaroon with the identifier [k], the caveat [a=1] and a 32-byte
    signature. *)
Definition sampleMacaroon : MacaroonV2 :=
  mkMacaroon
    [mkField 2 [x6b]]
    [[mkField 2 [x61; x3d; x31]]]
    (repeat x53 32).

(** The bytes 02 01 FA FF FF FF 0F: a field of type 1 whose length
    varint reads as -6 in 32 bits. *)
Definition loopingBuffer : Uint8Array := [x02; x01; xfa; xff; xff; xff; x0f].

(** ** Last match wins *)

(** The caveats of a list that decode and carry the condition [cond],
    in order. *)
Definition matchingCaveats (cond : jsstring) (cs : list jsstring)
    : list Caveat :=
  filter (fun cav => condition cav = cond) (omap decodeCaveat cs).

(** The number the last of them holds, 0 when it is not a number or
    there is none. *)
Definition lastWins (StringToNumber : jsstring -> float)
    (cond : jsstring) (cs : list jsstring) : float :=
  match last (matchingCaveats cond cs) with
  | Some cav => orZero (StringToNumber (value cav))
  | None => 0%float
  end.

(** A conversion for the examples: a string of decimal digits converts
    to the integer it spells (exact below [2^53], as [Number] is), any
    other string, the empty one apart, to [NaN]. It agrees with [Number]
    on the strings the examples use. *)
Fixpoint decimalValue (acc : Z) (s : jsstring) : option Z :=
  match s with
  | [] => Some acc
  | c :: r =>
      if ((48 <=? c) && (c <=? 57))%N
      then decimalValue (10 * acc + Z.of_N (c - 48)) r
      else None
  end.

Definition decimalToNumber (s : jsstring) : float :=
  match decimalValue 0 s with
  | Some z => PrimFloat.of_uint63 (Uint63.of_Z z)
  | None => PrimFloat.nan
  end.

(** A v2 macaroon with the caveats [max_bandwidth=500] and
    [max_bandwidth=250], in base64. *)
Definition sampleBandwidthMacaroon : jsstring :=
  str "AgIBawACEW1heF9iYW5kd2lkdGg9NTAwAAIRbWF4X2JhbmR3aWR0aD0yNTAAAAYgU1NTU1NTU1NTU1NTU1NTU1NTU1NTU1NTU1NTU1NTU1M=".

(** ** What the scan of a challenge finds *)

(** The values of the pairs whose key, in lower case, is [key], in scan
    order. *)
Definition valuesFor (key : jsstring) (pairs : list (jsstring * jsstring))
    : list jsstring :=
  map snd (filter (fun p => toLowerCase (fst p) = key) pairs).

(** The pairs the scan of a header finds. *)
Definition pairsOf (header : jsstring) : list (jsstring * jsstring) :=
  pairRegex_exec 0
    match prefixMatch header with
    | Some n => drop n header
    | None => header
    end.

(** A pair as it is written in a header, with the separator that
    follows it: the key is a non-empty word, the value holds no double
    quote, the separator is made of commas and spaces. *)
Record HeaderPair := mkPair {
  pairKey : jsstring;
  pairValue : jsstring;
  pairSep : jsstring
}.

Definition wellFormedPair (p : HeaderPair) : Prop :=
  pairKey p <> []
  /\ forallb isWord (pairKey p) = true
  /\ forallb (fun c => negb (c =? 34)%N) (pairValue p) = true
  /\ forallb (fun c => (c =? 44)%N || (c =? 32)%N) (pairSep p) = true.

Definition keyValue (p : HeaderPair) : jsstring * jsstring :=
  (pairKey p, pairValue p).

Fixpoint renderPairs (ps : list HeaderPair) : jsstring :=
  match ps with
  | [] => []
  | p :: r =>
      pairKey p ++ [61%N; 34%N] ++ pairValue p ++ [34%N] ++ pairSep p
        ++ renderPairs r
  end.

(** An L402 header that carries the pairs [ps]. *)
Definition renderHeader (ps : list HeaderPair) : jsstring :=
  str "L402 " ++ renderPairs ps.

(** Order independence in the words of the specification: two headers
    that carry the same pairs in any order and with any separators parse
    alike. *)
Definition order_independent (StringToNumber : jsstring -> float)
    (ps ps' : list HeaderPair) : Prop :=
  Forall wellFormedPair ps -> Forall wellFormedPair ps' ->
  map keyValue ps ≡ₚ map keyValue ps' ->
  forall fuel,
    parseL402Challenge StringToNumber fuel (renderHeader ps)
    = parseL402Challenge StringToNumber fuel (renderHeader ps').

(** The reading of the failure rule by pairs found: the parse fails
    exactly when no [macaroon] pair or no [invoice] pair was found. *)
Definition null_iff_pair_missing (StringToNumber : jsstring -> float)
    (fuel : nat) (header : jsstring) : Prop :=
  parseL402Challenge StringToNumber fuel header = Some None
  <-> (valuesFor (str "macaroon") (pairsOf header) = []
       \/ valuesFor (str "invoice") (pairsOf header) = []).

(** The double-quote character, as a string. *)
Definition dquote : jsstring := [34%N].

(** The header [L402 macaroon=Q Q, invoice=Q abc Q] with [Q] the double
    quote and no space inside the quotes: the macaroon pair is there,
    its value is empty. *)
Definition emptyMacaroonHeader : jsstring :=
  str "L402 macaroon=" ++ dquote ++ dquote
    ++ str ", invoice=" ++ dquote ++ str "abc" ++ dquote.

(** The two headers of the specification's example:
    [L402 invoice=Q abc Q, macaroon=Q AAA= Q] and the same with the
    pairs exchanged ([Q] is the double quote, with no space inside the
    quotes). *)
Definition invoiceFirstHeader : jsstring :=
  str "L402 invoice=" ++ dquote ++ str "abc" ++ dquote
    ++ str ", macaroon=" ++ dquote ++ str "AAA=" ++ dquote.

Definition macaroonFirstHeader : jsstring :=
  str "L402 macaroon=" ++ dquote ++ str "AAA=" ++ dquote
    ++ str ", invoice=" ++ dquote ++ str "abc" ++ dquote.

(** Three pairs, two of them with the key [macaroon], and the same with
    the first two exchanged. *)
Definition twoMacaroons : list HeaderPair :=
  [mkPair (str "macaroon") (str "AAA=") (str ", ");
   mkPair (str "macaroon") (str "BBBB") (str ", ");
   mkPair (str "invoice") (str "abc") []].

Definition twoMacaroonsSwapped : list HeaderPair :=
  [mkPair (str "macaroon") (str "BBBB") (str ", ");
   mkPair (str "macaroon") (str "AAA=") (str ", ");
   mkPair (str "invoice") (str "abc") []].

(** ** Length fields of the v1 format *)

Definition isHexDigit (c : N) : bool :=
  match hexDigit c with
  | Some _ => true
  | None => false
  end.



(** The number a string of hexadecimal digits spells. *)
Definition hexValue (s : jsstring) : Z :=
  fold_left (fun acc c => 16 * acc + default 0 (hexDigit c)) s 0.



Ltac solve_wellFormed :=
  repeat (constructor;
          [ repeat split; try reflexivity; discriminate | ]);
  try constructor.

Arguments mkContext {LoaderFields} fields headers.
Arguments fields {LoaderFields} l.
Arguments headers {LoaderFields} l.
Arguments applyL402Header {LoaderFields} now context token.

(** ** Expired tokens *)

(** The rule of the specification read by time alone: a token with a
    credential and an expiry before the current time leaves the context
    as it was. *)
Definition untouched_when_past {LoaderFields : Type} (now : float)
    (context : LoaderContext LoaderFields) (token : L402Token) : Prop :=
  credential token <> [] ->
  (exists e, tokenExpiry token = Some e /\ PrimFloat.ltb e now = true) ->
  applyL402Header now context (Some token) = context.

(** A context without headers and a token whose expiry is 0. *)
Definition bareContext : LoaderContext unit := mkContext tt None.

Definition epochToken : L402Token :=
  mkToken (str "AAA=:00ff") 0%float (Some 0%float).

(** A context with one header, a time of day and a token that expired
    one millisecond before it. *)
Definition rangeContext : LoaderContext unit :=
  mkContext tt (Some {[ str "Range" := str "bytes=0-99" ]}).

Definition sampleNow : float := 1700000000000%float.

Definition staleToken : L402Token :=
  mkToken (str "AAA=:00ff") 0%float (Some 1699999999999%float).

(** * The rest of the module *)

(** ** Buffers the v2 decoder walks through *)

(** Every varint of the buffer is at most four bytes long: no four
    bytes in a row have the high bit set. *)
Definition shortVarints (data : Uint8Array) : Prop :=
  forall p, (length (varint_run (drop p data)) <= 4)%nat.

Definition shortVarintsb (data : Uint8Array) : bool :=
  forallb (fun p => (length (varint_run (drop p data)) <=? 4)%nat)
    (seq 0 (length data)).

(** The items of a v2 buffer after the version byte: a field, or the
    EOS byte that closes a section. *)
Definition encodeItem (t : option V2Field) : list byte :=
  match t with
  | Some f => encodeField f
  | None => [x00]
  end.

Definition itemsOf (m : MacaroonV2) : list (option V2Field) :=
  map Some (headerFields m) ++ [None]
    ++ concat (map (fun sec => map Some sec ++ [None]) (caveatSections m))
    ++ [None].

(** The payloads the decoder captures from a run of items, [first]
    telling whether no EOS was met before. *)
Fixpoint captured (first : bool) (ts : list (option V2Field))
    : list jsstring :=
  match ts with
  | [] => []
  | None :: r => captured false r
  | Some f :: r =>
      (if (Z.of_N (fieldType f) =? FIELD_IDENTIFIER) && negb first
       then [map Byte.to_N (fieldData f)] else [])
        ++ captured first r
  end.

(** A field the 32-bit varints can carry: its type and the length of its
    payload are below [2^31]. *)
Definition fieldFits (f : V2Field) : Prop :=
  (fieldType f < 2 ^ 31)%N /\ (N.of_nat (length (fieldData f)) < 2 ^ 31)%N.

(** An item the decoder can walk over: EOS, or a field of a section
    that fits. *)
Definition itemOk (t : option V2Field) : Prop :=
  match t with
  | Some f => sectionField f /\ fieldFits f
  | None => True
  end.

(** A macaroon whose fields all fit and whose sections hold neither an
    EOS nor a signature field. *)
Definition encodable (m : MacaroonV2) : Prop :=
  Forall (fun f => sectionField f /\ fieldFits f) (headerFields m)
  /\ Forall (Forall (fun f => sectionField f /\ fieldFits f))
       (caveatSections m)
  /\ (N.of_nat (length (signature m)) < 2 ^ 31)%N.

(** ** Writing a caveat *)

(** A string without white space at either end. *)
Definition trimmed (s : jsstring) : Prop :=
  match s with
  | c :: _ => isWhiteSpace c = false
  | [] => True
  end
  /\ match rev s with
     | c :: _ => isWhiteSpace c = false
     | [] => True
     end.

(** ** parseL402Credential *)

(** The object [parseL402Credential] returns. *)
Record L402Constraints := mkConstraints {
  credMaxBandwidth : float;
  credExpiry : float
}.

(** [parseL402Credential(credential)]; [None] when the call did not
    return within the fuel. *)
Definition parseL402Credential (StringToNumber : jsstring -> float)
    (fuel : nat) (credential : jsstring) : option L402Constraints :=
  let macaroon :=
    match indexOf 58 credential with
    | Some colonIdx => take colonIdx credential
    | None => credential
    end in
  match getMaxBandwidthFromMacaroon StringToNumber fuel macaroon with
  | None => None
  | Some maxBandwidth =>
      match getExpirationFromMacaroon StringToNumber fuel macaroon with
      | None => None
      | Some expiry => Some (mkConstraints maxBandwidth expiry)
      end
  end.

(** ** Tokens for the examples *)

(** A token that expires one millisecond after [sampleNow]. *)
Definition freshToken : L402Token :=
  mkToken (str "AAA=:00ff") 0%float (Some 1700000000001%float).

(** A context that already holds an [Authorization] header. *)
Definition authorizedContext : LoaderContext unit :=
  mkContext tt
    (Some (<[ str "Authorization" := str "Bearer xyz" ]>
             {[ str "Range" := str "bytes=0-99" ]})).

(** ** Writing base64 *)

(** The URL-safe spelling of a base64 string: [-] for [+] and [_] for
    [/]. *)
Definition toBase64Url (s : jsstring) : jsstring :=
  replaceAll 47 95 (replaceAll 43 45 s).

(** The character of the standard alphabet for six bits. *)
Definition b64Char (v : N) : N :=
  (if v <? 26 then 65 + v
   else if v <? 52 then 71 + v
   else if v <? 62 then v - 4
   else if v =? 62 then 43
   else 47)%N.

(** The six-bit groups of a sequence of bytes, high bits first; a last
    group of one or two bytes gives two or three of them, the missing
    bits being 0. *)
Fixpoint sextets (bs : list N) : list N :=
  match bs with
  | x :: y :: z :: r =>
      (x / 4 :: (x mod 4) * 16 + y / 16 :: (y mod 16) * 4 + z / 64
         :: z mod 64 :: sextets r)%N
  | [x; y] => [x / 4; (x mod 4) * 16 + y / 16; (y mod 16) * 4]%N
  | [x] => [x / 4; (x mod 4) * 16]%N
  | [] => []
  end.

(** The base64 text of a byte sequence without padding, and with it (the
    encoding of RFC 4648, which [btoa] produces; the source only
    decodes). *)
Definition encodeBase64Unpadded (bytes : list byte) : jsstring :=
  map b64Char (sextets (map Byte.to_N bytes)).

Definition encodeBase64 (bytes : list byte) : jsstring :=
  encodeBase64Unpadded bytes
    ++ repeat 61%N ((3 - length bytes mod 3) mod 3)%nat.

(** ** Headers for the examples *)

(** Two pairs that differ in the case of their keys only. *)
Definition lowerPairs : list HeaderPair :=
  [mkPair (str "macaroon") (str "AAA=") (str ", ");
   mkPair (str "invoice") (str "abc") []].

Definition upperPairs : list HeaderPair :=
  [mkPair (str "Macaroon") (str "AAA=") (str ", ");
   mkPair (str "INVOICE") (str "abc") []].

(** A pair with another key. *)
Definition versionPair : HeaderPair :=
  mkPair (str "version") (str "0") (str ", ").

(** Two pairs are the same up to the case of the key. *)
Definition sameUpToCase (p p' : HeaderPair) : Prop :=
  toLowerCase (pairKey p) = toLowerCase (pairKey p')
  /\ pairValue p = pairValue p'.

(** ** Caveats as pieces of the buffer *)

(** A string that is a run of consecutive bytes of the buffer, one code
    unit per byte. *)
Definition sliceOf (data : Uint8Array) (c : jsstring) : Prop :=
  exists pre l post, data = pre ++ l ++ post /\ c = map Byte.to_N l.

(** ** The v1 packet format *)

(** The hexadecimal digit, in lower case, for a value below 16. *)
Definition hexChar (d : N) : N := (if d <? 10 then 48 + d else 87 + d)%N.

(** Four hexadecimal digits for a length below [16^4]. *)
Definition hex4 (n : N) : list byte :=
  map byte_of_unit
    [hexChar (n / 4096); hexChar (n / 256 mod 16); hexChar (n / 16 mod 16);
     hexChar (n mod 16)]%N.

(** A packet as the comment of [extractCaveatsV1] lays it out: the
    length of the whole packet in four hexadecimal digits, the key, a
    space, the data and a newline. *)
Record V1Packet := mkPacket {
  packetKey : list byte;
  packetBody : list byte
}.

Definition packetLength (p : V1Packet) : nat :=
  length (packetKey p) + length (packetBody p) + 6.

Definition encodePacket (p : V1Packet) : list byte :=
  hex4 (N.of_nat (packetLength p))
    ++ packetKey p ++ [x20] ++ packetBody p ++ [x0a].

(** A packet the decoder accepts: no space in the key, at least 9 bytes
    and a length that four digits can hold. *)
Definition packetOk (p : V1Packet) : Prop :=
  Forall (fun b => b <> x20) (packetKey p)
  /\ (9 <= packetLength p)%nat
  /\ (N.of_nat (packetLength p) < 65536)%N.

(** The data of the packets whose key is [cid]. *)
Definition cidsOf (ps : list V1Packet) : list jsstring :=
  map (fun p => map Byte.to_N (packetBody p))
    (filter (fun p => map Byte.to_N (packetKey p) = str "cid") ps).

(** Two packets: a location and a caveat. *)
Definition samplePackets : list V1Packet :=
  [mkPacket [x6c; x6f; x63] [x68; x6f; x73; x74];
   mkPacket [x63; x69; x64]
     [x65; x78; x70; x69; x72; x61; x74; x69; x6f; x6e; x3d; x34; x32]].

(** * The first version of the helpers *)

(** [src/utils/l402-helpers.ts] parses the challenge with one regular
    expression: the word L402, white space, the macaroon pair, a comma,
    optional white space and the invoice pair, in this order and in this
    case; both values are non-empty runs without a double quote. *)
Module Legacy.

Record L402Challenge := mkChallenge {
  macaroon : jsstring;
  invoice : jsstring
}.

(** A literal of the pattern at the start of [s]: what follows it. *)
Definition literal (lit s : jsstring) : option jsstring :=
  if str_eqb (take (length lit) s) lit then Some (drop (length lit) s)
  else None.

Definition notQuote (c : N) : bool := negb (c =? 34)%N.

(** A double quote, one or more characters other than a double quote
    (the group), a double quote: the group and what follows. The group
    runs to the next quote; a shorter one would not be followed by a
    quote. *)
Definition quoted (s : jsstring) : option (jsstring * jsstring) :=
  match literal dquote s with
  | None => None
  | Some r =>
      let v := takeWhile notQuote r in
      match v with
      | [] => None
      | _ :: _ =>
          match literal dquote (drop (length v) r) with
          | None => None
          | Some rest => Some (v, rest)
          end
      end
  end.

(** The pattern tried at the start of [s]: the two groups. Each run of
    white space is the longest one, since the character the pattern asks
    for after it is not white space. *)
Definition matchHere (s : jsstring) : option (jsstring * jsstring) :=
  match literal (str "L402") s with
  | None => None
  | Some r =>
      let ws := takeWhile isWhiteSpace r in
      match ws with
      | [] => None
      | _ :: _ =>
          match literal (str "macaroon=") (drop (length ws) r) with
          | None => None
          | Some r1 =>
              match quoted r1 with
              | None => None
              | Some (m, r2) =>
                  match literal (str ",") r2 with
                  | None => None
                  | Some r3 =>
                      match literal (str "invoice=")
                              (dropWhile isWhiteSpace r3) with
                      | None => None
                      | Some r4 =>
                          match quoted r4 with
                          | None => None
                          | Some (i, _) => Some (m, i)
                          end
                      end
                  end
              end
          end
      end
  end.

(** [header.match(pattern)] for a pattern without the [g] flag: the
    groups of the leftmost match, [None] for [null]. *)
Fixpoint matchChallenge (s : jsstring) : option (jsstring * jsstring) :=
  match matchHere s with
  | Some r => Some r
  | None =>
      match s with
      | [] => None
      | _ :: s' => matchChallenge s'
      end
  end.

Definition parseL402Challenge (header : jsstring) : option L402Challenge :=
  match matchChallenge header with
  | Some (m, i) => Some (mkChallenge m i)
  | None => None
  end.

(** A challenge as the pattern describes it. *)
Definition renderChallenge (ws ws2 m i : jsstring) : jsstring :=
  str "L402" ++ ws ++ str "macaroon=" ++ dquote ++ m ++ dquote
    ++ str "," ++ ws2 ++ str "invoice=" ++ dquote ++ i ++ dquote.

Definition wellFormed (ws ws2 m i : jsstring) : Prop :=
  ws <> [] /\ forallb isWhiteSpace ws = true
  /\ forallb isWhiteSpace ws2 = true
  /\ m <> [] /\ forallb notQuote m = true
  /\ i <> [] /\ forallb notQuote i = true.

(** The header holds a challenge somewhere. *)
Definition occurs (header : jsstring) : Prop :=
  exists pre ws ws2 m i tail,
    wellFormed ws ws2 m i
    /\ header = pre ++ renderChallenge ws ws2 m i ++ tail.

End Legacy.

(** The header of the first version: one space after the scheme and
    after the comma. *)
Definition legacyHeader : jsstring :=
  Legacy.renderChallenge (str " ") (str " ") (str "AgEEbHNhdA") (str "lnbc1").

(** * Properties *)

Section ByteFacts.

Lemma byte_range (b : byte) : 0 <= Z.of_N (Byte.to_N b) < 256.
Proof. destruct b; vm_compute; split; congruence. Qed.

Lemma toInt32_small z : - 2 ^ 31 <= z < 2 ^ 31 -> toInt32 z = z.
Proof.
  intros H. unfold toInt32. rewrite Z.mod_small; lia.
Qed.

Lemma and32_127 (b : byte) :
  and32 (Z.of_N (Byte.to_N b)) 127 = Z.of_N (Byte.to_N b) mod 128.
Proof. destruct b; vm_compute; reflexivity. Qed.

Lemma and32_128 (b : byte) :
  (and32 (Z.of_N (Byte.to_N b)) 128 =? 0)
  = negb (high_bit b).
Proof. destruct b; vm_compute; reflexivity. Qed.

Lemma lor_disjoint v c s :
  0 <= s -> 0 <= v < 2 ^ s -> 0 <= c ->
  Z.lor v (c * 2 ^ s) = v + c * 2 ^ s.
Proof.
  intros Hs Hv Hc.
  rewrite <- Z.lxor_lor, <- Z.add_nocarry_lxor; auto;
    rewrite <- Z.shiftl_mul_pow2 by lia; apply Z.bits_inj'; intros n Hn;
    rewrite Z.land_spec, Z.bits_0;
    destruct (Z.lt_ge_cases n s) as [Hlt | Hge].
  1,3: rewrite Z.shiftl_spec_low by lia; apply andb_false_r.
  1,2: assert (Z.testbit v n = false) as ->; [ | reflexivity ];
       destruct (Z.eq_dec v 0) as [-> | Hnz]; [ apply Z.bits_0 | ];
       apply Z.bits_above_log2; [ lia | ];
       apply Z.log2_lt_pow2; [ lia | ];
       apply Z.lt_le_trans with (2 ^ s); [ lia | ];
       apply Z.pow_le_mono_r; lia.
Qed.

(** The same for any multiple of [2^s], negative ones included. *)
Lemma lor_disjoint_any v k s :
  0 <= s -> 0 <= v < 2 ^ s ->
  Z.lor v (k * 2 ^ s) = v + k * 2 ^ s.
Proof.
  intros Hs Hv.
  rewrite <- Z.lxor_lor, <- Z.add_nocarry_lxor; auto;
    rewrite <- Z.shiftl_mul_pow2 by lia; apply Z.bits_inj'; intros n Hn;
    rewrite Z.land_spec, Z.bits_0;
    destruct (Z.lt_ge_cases n s) as [Hlt | Hge].
  1,3: rewrite Z.shiftl_spec_low by lia; apply andb_false_r.
  1,2: assert (Z.testbit v n = false) as ->; [ | reflexivity ];
       destruct (Z.eq_dec v 0) as [-> | Hnz]; [ apply Z.bits_0 | ];
       apply Z.bits_above_log2; [ lia | ];
       apply Z.log2_lt_pow2; [ lia | ];
       apply Z.lt_le_trans with (2 ^ s); [ lia | ];
       apply Z.pow_le_mono_r; lia.
Qed.

Lemma toInt32_range z : - 2 ^ 31 <= toInt32 z < 2 ^ 31.
Proof.
  unfold toInt32.
  pose proof (Z.mod_pos_bound (z + 2 ^ 31) (2 ^ 32) ltac:(lia)). lia.
Qed.

(** [ToInt32] has period [2^32]. *)
Lemma toInt32_period z k : toInt32 (z + k * 2 ^ 32) = toInt32 z.
Proof.
  unfold toInt32.
  replace (z + k * 2 ^ 32 + 2 ^ 31) with (z + 2 ^ 31 + k * 2 ^ 32) by lia.
  rewrite Z.mod_add by lia. reflexivity.
Qed.

(** What [ToInt32] takes away is a multiple of [2^32]. *)
Lemma toInt32_wrap z : exists q, toInt32 z = z - q * 2 ^ 32.
Proof.
  exists ((z + 2 ^ 31) / 2 ^ 32). unfold toInt32.
  pose proof (Z.div_mod (z + 2 ^ 31) (2 ^ 32) ltac:(lia)). lia.
Qed.

End ByteFacts.

(** ** readVarint *)

Section ReadVarint.

Lemma drop_get (data : Uint8Array) (pos : Z) :
  0 <= pos < len data ->
  exists b, get data pos = Some b
    /\ drop (Z.to_nat pos) data = b :: drop (Z.to_nat (pos + 1)) data.
Proof.
  intros [H0 H1]. unfold get, len in *.
  destruct (data !! Z.to_nat pos) as [b|] eqn:E.
  - exists b. rewrite (proj2 (Z.ltb_ge pos 0)) by lia. split; [ reflexivity | ].
    replace (Z.to_nat (pos + 1)) with (S (Z.to_nat pos)) by lia.
    apply drop_S. exact E.
  - apply lookup_ge_None in E. lia.
Qed.

Lemma drop_past (data : Uint8Array) (pos : Z) :
  len data <= pos -> drop (Z.to_nat pos) data = [].
Proof. unfold len. intros H. apply drop_ge. lia. Qed.

(** The loop reads exactly the run of the varint and accumulates it
    with the 32-bit operators. *)
Lemma readVarint_loop_run fuel (data : Uint8Array) value shift pos :
  0 <= pos ->
  (length (drop (Z.to_nat pos) data) < fuel)%nat ->
  let run := varint_run (drop (Z.to_nat pos) data) in
  readVarint_loop fuel data value shift pos
  = (varint_acc32 value shift run, pos + Z.of_nat (length run)).
Proof.
  revert value shift pos.
  induction fuel as [| fuel IH]; intros value shift pos Hpos Hfuel; [ lia | ].
  cbn [readVarint_loop].
  destruct (pos <? len data) eqn:Hlt.
  - apply Z.ltb_lt in Hlt.
    destruct (drop_get data pos) as (b & Hb & Hd); [ lia | ].
    rewrite Hb, Hd in *. cbn [int_of_read varint_run length] in *.
    rewrite and32_128.
    destruct (high_bit b); cbn [negb].
    + rewrite IH by lia. cbn [varint_acc32 length]. f_equal. lia.
    + cbn [varint_acc32 length]. f_equal.
  - apply Z.ltb_ge in Hlt. rewrite drop_past by lia.
    cbn. f_equal. lia.
Qed.

Lemma readVarint_run (data : Uint8Array) pos :
  0 <= pos ->
  let run := varint_run (drop (Z.to_nat pos) data) in
  readVarint data pos = (varint_acc32 0 0 run, pos + Z.of_nat (length run)).
Proof.
  intros Hpos. unfold readVarint. apply readVarint_loop_run; [ lia | ].
  rewrite length_drop. lia.
Qed.

(** Before the start of the buffer the read is [undefined]: the value is
    0 and the loop is left after one step. *)
Lemma readVarint_negative (data : Uint8Array) pos :
  pos < 0 -> readVarint data pos = (0, pos + 1).
Proof.
  intros Hpos. unfold readVarint. cbn [readVarint_loop].
  assert ((pos <? len data) = true) as ->
    by (apply Z.ltb_lt; unfold len; lia).
  unfold get. rewrite (proj2 (Z.ltb_lt pos 0) Hpos). reflexivity.
Qed.

(** More fuel than [length data + 1] changes nothing. *)
Lemma readVarint_loop_fuel fuel (data : Uint8Array) pos :
  0 <= pos -> (length data < fuel)%nat ->
  readVarint_loop fuel data 0 0 pos = readVarint data pos.
Proof.
  intros Hpos Hf. rewrite readVarint_run by lia.
  apply readVarint_loop_run; [ lia | ]. rewrite length_drop. lia.
Qed.

Lemma varint_sum_from_nonneg i run : 0 <= i -> 0 <= varint_sum_from i run.
Proof.
  revert i. induction run as [| b r IH]; intros i Hi; cbn; [ lia | ].
  specialize (IH (i + 1) ltac:(lia)).
  pose proof (Z.mod_pos_bound (Z.of_N (Byte.to_N b)) 128 ltac:(lia)).
  assert (0 < 2 ^ (7 * i)) by (apply Z.pow_pos_nonneg; lia). nia.
Qed.

Lemma varint_sum_from_bound run : forall i,
  0 <= i ->
  varint_sum_from i run + 2 ^ (7 * i) <= 2 ^ (7 * (i + Z.of_nat (length run))).
Proof.
  induction run as [| b r IH]; intros i Hi; cbn [varint_sum_from length].
  - replace (i + Z.of_nat 0) with i by lia. lia.
  - specialize (IH (i + 1) ltac:(lia)).
    replace (i + 1 + Z.of_nat (length r)) with (i + Z.of_nat (S (length r)))
      in IH by lia.
    assert (2 ^ (7 * (i + 1)) = 128 * 2 ^ (7 * i)) as Hp1.
    { replace (7 * (i + 1)) with (7 + 7 * i) by lia.
      rewrite Z.pow_add_r by lia. reflexivity. }
    assert (0 <= Z.of_N (Byte.to_N b) mod 128 < 128)
      by (apply Z.mod_pos_bound; lia).
    remember (Z.of_N (Byte.to_N b) mod 128) as c eqn:Hc. clear Hc.
    assert (0 < 2 ^ (7 * i)) by (apply Z.pow_pos_nonneg; lia).
    nia.
Qed.

(** While nothing leaves the 31 value bits, the 32-bit accumulation is
    the plain sum. *)
Lemma varint_acc32_sum run : forall i value,
  0 <= i ->
  i + Z.of_nat (length run) <= 5 ->
  0 <= value < 2 ^ (7 * i) ->
  value + varint_sum_from i run < 2 ^ 31 ->
  varint_acc32 value (7 * i) run = value + varint_sum_from i run.
Proof.
  induction run as [| b r IH]; intros i value Hi Hlen Hv Hsum;
    cbn [varint_acc32 varint_sum_from length] in *; [ lia | ].
  rewrite and32_127.
  assert (0 <= Z.of_N (Byte.to_N b) mod 128 < 128)
    by (apply Z.mod_pos_bound; lia).
  remember (Z.of_N (Byte.to_N b) mod 128) as c eqn:Hc. clear Hc.
  pose proof (varint_sum_from_nonneg (i + 1) r ltac:(lia)) as Hr.
  assert (0 < 2 ^ (7 * i)) as Hp by (apply Z.pow_pos_nonneg; lia).
  assert (2 ^ (7 * (i + 1)) = 128 * 2 ^ (7 * i)) as Hp1.
  { replace (7 * (i + 1)) with (7 + 7 * i) by lia.
    rewrite Z.pow_add_r by lia. reflexivity. }
  assert (shl32 c (7 * i) = c * 2 ^ (7 * i)) as ->.
  { unfold shl32. rewrite (toInt32_small c) by lia.
    rewrite Z.mod_small by lia. rewrite Z.shiftl_mul_pow2 by lia.
    apply toInt32_small. nia. }
  assert (or32 value (c * 2 ^ (7 * i)) = value + c * 2 ^ (7 * i)) as ->.
  { unfold or32.
    rewrite (toInt32_small value), (toInt32_small (c * 2 ^ (7 * i))) by nia.
    rewrite lor_disjoint by lia. apply toInt32_small. nia. }
  replace (7 * i + 7) with (7 * (i + 1)) by lia.
  rewrite IH.
  - lia.
  - lia.
  - lia.
  - rewrite Hp1. nia.
  - lia.
Qed.

Lemma varint_acc32_range run : forall value shift,
  - 2 ^ 31 <= value < 2 ^ 31 ->
  - 2 ^ 31 <= varint_acc32 value shift run < 2 ^ 31.
Proof.
  induction run as [| b run IH]; intros value shift Hv; cbn [varint_acc32];
    [ exact Hv | ].
  apply IH. unfold or32. apply toInt32_range.
Qed.

(** A sum below [2^31] is accumulated exactly, however many bytes are
    read: the bytes from the sixth on are then all zero in their low
    seven bits, and a zero adds nothing whatever the shift count. *)
Lemma varint_acc32_fits run : forall i value,
  0 <= i -> 0 <= value < 2 ^ (7 * i) ->
  value + varint_sum_from i run < 2 ^ 31 ->
  varint_acc32 value (7 * i) run = value + varint_sum_from i run.
Proof.
  induction run as [| b r IH]; intros i value Hi Hv Hsum;
    cbn [varint_acc32 varint_sum_from] in *; [ lia | ].
  rewrite and32_127.
  assert (0 <= Z.of_N (Byte.to_N b) mod 128 < 128)
    by (apply Z.mod_pos_bound; lia).
  remember (Z.of_N (Byte.to_N b) mod 128) as c eqn:Hc. clear Hc.
  pose proof (varint_sum_from_nonneg (i + 1) r ltac:(lia)) as Hr.
  assert (0 < 2 ^ (7 * i)) as Hp by (apply Z.pow_pos_nonneg; lia).
  assert (2 ^ (7 * (i + 1)) = 128 * 2 ^ (7 * i)) as Hp1.
  { replace (7 * (i + 1)) with (7 + 7 * i) by lia.
    rewrite Z.pow_add_r by lia. reflexivity. }
  replace (7 * i + 7) with (7 * (i + 1)) by lia.
  destruct (Z.eq_dec c 0) as [-> | Hc0].
  - assert (shl32 0 (7 * i) = 0) as ->.
    { unfold shl32. rewrite (toInt32_small 0) by lia.
      rewrite Z.shiftl_0_l. apply toInt32_small. lia. }
    assert (or32 value 0 = value) as ->.
    { unfold or32. rewrite (toInt32_small 0) by lia.
      rewrite (toInt32_small value) by lia.
      rewrite Z.lor_0_r. apply toInt32_small. lia. }
    rewrite IH; lia.
  - assert (7 * i < 31) as Hi31.
    { apply (Z.pow_lt_mono_r_iff 2); [ lia | lia | nia ]. }
    assert (shl32 c (7 * i) = c * 2 ^ (7 * i)) as ->.
    { unfold shl32. rewrite (toInt32_small c) by lia.
      rewrite Z.mod_small by lia. rewrite Z.shiftl_mul_pow2 by lia.
      apply toInt32_small. nia. }
    assert (or32 value (c * 2 ^ (7 * i)) = value + c * 2 ^ (7 * i)) as ->.
    { unfold or32.
      rewrite (toInt32_small value), (toInt32_small (c * 2 ^ (7 * i))) by nia.
      rewrite lor_disjoint by lia. apply toInt32_small. nia. }
    rewrite IH; [ lia | lia | nia | lia ].
Qed.

(** Up to five bytes the accumulated value is the sum wrapped to the
    signed 32-bit range: the fifth byte is shifted by 28, and what it
    sets above bit 31 is lost. *)
Lemma varint_acc32_wrap run : forall i value,
  0 <= i <= 4 -> i + Z.of_nat (length run) <= 5 ->
  0 <= value < 2 ^ (7 * i) ->
  varint_acc32 value (7 * i) run = toInt32 (value + varint_sum_from i run).
Proof.
  induction run as [| b r IH]; intros i value Hi Hlen Hv;
    cbn [varint_acc32 varint_sum_from length] in *.
  - assert (2 ^ (7 * i) <= 2 ^ 28) by (apply Z.pow_le_mono_r; lia).
    rewrite Z.add_0_r. symmetry. apply toInt32_small. lia.
  - rewrite and32_127.
    assert (0 <= Z.of_N (Byte.to_N b) mod 128 < 128)
      by (apply Z.mod_pos_bound; lia).
    remember (Z.of_N (Byte.to_N b) mod 128) as c eqn:Hc. clear Hc.
    assert (0 < 2 ^ (7 * i)) as Hp by (apply Z.pow_pos_nonneg; lia).
    assert (2 ^ (7 * i) <= 2 ^ 28) as Hp28
      by (apply Z.pow_le_mono_r; lia).
    assert (2 ^ (7 * (i + 1)) = 128 * 2 ^ (7 * i)) as Hp1.
    { replace (7 * (i + 1)) with (7 + 7 * i) by lia.
      rewrite Z.pow_add_r by lia. reflexivity. }
    replace (7 * i + 7) with (7 * (i + 1)) by lia.
    destruct (Z.eq_dec i 4) as [-> | Hi4].
    + destruct r as [| b' r']; [ | cbn [length] in Hlen; lia ].
      cbn [varint_acc32 varint_sum_from]. rewrite Z.add_0_r.
      change (7 * 4) with 28 in *.
      assert (shl32 c 28 = toInt32 (c * 2 ^ 28)) as ->.
      { unfold shl32. rewrite (toInt32_small c) by lia.
        change (28 mod 32) with 28. rewrite Z.shiftl_mul_pow2 by lia.
        reflexivity. }
      destruct (toInt32_wrap (c * 2 ^ 28)) as (q & Hq).
      unfold or32. rewrite (toInt32_small value) by lia.
      rewrite (toInt32_small (toInt32 (c * 2 ^ 28)))
        by apply toInt32_range.
      rewrite Hq.
      replace (c * 2 ^ 28 - q * 2 ^ 32) with ((c - 16 * q) * 2 ^ 28) by lia.
      rewrite lor_disjoint_any by lia.
      replace (value + (c - 16 * q) * 2 ^ 28)
        with (value + c * 2 ^ 28 + (- q) * 2 ^ 32) by lia.
      apply toInt32_period.
    + assert (2 ^ (7 * i) <= 2 ^ 21) as Hp21
        by (apply Z.pow_le_mono_r; lia).
      assert (shl32 c (7 * i) = c * 2 ^ (7 * i)) as ->.
      { unfold shl32. rewrite (toInt32_small c) by lia.
        rewrite Z.mod_small by lia. rewrite Z.shiftl_mul_pow2 by lia.
        apply toInt32_small. nia. }
      assert (or32 value (c * 2 ^ (7 * i)) = value + c * 2 ^ (7 * i)) as ->.
      { unfold or32.
        rewrite (toInt32_small value), (toInt32_small (c * 2 ^ (7 * i)))
          by nia.
        rewrite lor_disjoint by lia. apply toInt32_small. nia. }
      rewrite IH; [ f_equal; lia | lia | lia | nia ].
Qed.

End ReadVarint.

Lemma varint_run_shape (l : list byte) :
  exists rest,
    l = varint_run l ++ rest
    /\ ((exists pre b, varint_run l = pre ++ [b]
           /\ Forall (fun x => high_bit x = true) pre /\ high_bit b = false)
        \/ (rest = [] /\ Forall (fun x => high_bit x = true) (varint_run l))).
Proof.
  induction l as [| b r (rest & Hsplit & Hshape)]; cbn [varint_run].
  - exists []. split; [ reflexivity | right; split; [ reflexivity | constructor ] ].
  - destruct (high_bit b) eqn:Hb.
    + exists rest. split; [ cbn; congruence | ].
      destruct Hshape as [(pre & x & Hrun & Hpre & Hx) | (-> & Hall)].
      * left. exists (b :: pre), x. rewrite Hrun. repeat split; auto.
      * right. split; [ reflexivity | constructor; assumption ].
    + exists r. split; [ reflexivity | ].
      left. exists [], b. repeat split; auto.
Qed.

(** C8: [readVarint] consumes the bytes from [p] up to and including the
    first byte whose high bit is 0, or up to the end of the buffer, and
    returns the offset just after them, as claimed; the value differs.
    It is always a signed 32-bit number, and it is the claimed sum of
    [(b_i mod 128) * 2^(7*i)] exactly when that sum is below [2^31],
    however many bytes are consumed. Up to five bytes it is the sum
    wrapped to the signed 32-bit range. On the five bytes
    [80 80 80 80 08] the sum is [2^31] and the value returned is
    [-2^31]: a negative number from the reader of an unsigned
    integer. *)
Theorem readVarint_signed_overflow :
  (forall (d : Uint8Array) (p : Z),
     0 <= p < len d ->
     let run := varint_run (drop (Z.to_nat p) d) in
     (exists rest,
        drop (Z.to_nat p) d = run ++ rest
        /\ ((exists pre b, run = pre ++ [b]
               /\ Forall (fun x => high_bit x = true) pre
               /\ high_bit b = false)
            \/ (rest = [] /\ Forall (fun x => high_bit x = true) run)))
     /\ (0 < length run)%nat
     /\ snd (readVarint d p) = p + Z.of_nat (length run)
     /\ - 2 ^ 31 <= fst (readVarint d p) < 2 ^ 31
     /\ (readVarint_unbounded d p <-> varint_sum run < 2 ^ 31)
     /\ ((length run <= 5)%nat ->
         fst (readVarint d p) = toInt32 (varint_sum run)))
  /\ 0 <= 0 < len [x80; x80; x80; x80; x08]
  /\ varint_run (drop (Z.to_nat 0) [x80; x80; x80; x80; x08])
     = [x80; x80; x80; x80; x08]
  /\ varint_sum [x80; x80; x80; x80; x08] = 2 ^ 31
  /\ readVarint [x80; x80; x80; x80; x08] 0 = (- 2 ^ 31, 5)
  /\ ~ readVarint_unbounded [x80; x80; x80; x80; x08] 0.
Proof.
  split.
  { intros d p Hp run.
    pose proof (readVarint_run d p ltac:(lia)) as Hrun. fold run in Hrun.
    assert (- 2 ^ 31 <= fst (readVarint d p) < 2 ^ 31) as Hrange.
    { rewrite Hrun. cbn [fst]. apply varint_acc32_range. lia. }
    split; [ apply varint_run_shape | ].
    split.
    { destruct (drop_get d p Hp) as (b & _ & Hd). subst run. rewrite Hd.
      cbn [varint_run]. destruct (high_bit b); cbn; lia. }
    split; [ rewrite Hrun; reflexivity | ].
    split; [ exact Hrange | ].
    split.
    - unfold readVarint_unbounded. cbv zeta. fold run. split.
      + intros E. rewrite E in Hrange. cbn [fst] in Hrange. lia.
      + intros Hsum. rewrite Hrun. f_equal.
        change (varint_acc32 0 0 run) with (varint_acc32 0 (7 * 0) run).
        rewrite varint_acc32_fits; [ reflexivity | lia | cbn; lia | exact Hsum ].
    - intros Hlen. rewrite Hrun. cbn [fst].
      change (varint_acc32 0 0 run) with (varint_acc32 0 (7 * 0) run).
      rewrite varint_acc32_wrap; [ reflexivity | lia | lia | cbn; lia ]. }
  split; [ vm_compute; split; congruence | ].
  split; [ vm_compute; reflexivity | ].
  split; [ vm_compute; reflexivity | ].
  split; [ vm_compute; reflexivity | ].
  unfold readVarint_unbounded. vm_compute. congruence.
Qed.

(** ** extractCaveatsV2 *)

Section V2.

Variable data : Uint8Array.

(** What one iteration does, by the type of the field it reads. *)
Lemma v2_body_eos s p1 :
  readVarint data (pos s) = (FIELD_EOS, p1) ->
  v2_body data s = Continue (mkV2 (caveats s) p1 false).
Proof. intros H. unfold v2_body. rewrite H. reflexivity. Qed.

Lemma v2_body_overrun s ty p1 n p2 :
  readVarint data (pos s) = (ty, p1) -> ty <> FIELD_EOS ->
  readVarint data p1 = (n, p2) -> len data < p2 + n ->
  v2_body data s = Break (mkV2 (caveats s) p2 (isFirstSection s)).
Proof.
  intros H1 Hty H2 Hov. unfold v2_body. rewrite H1.
  rewrite (proj2 (Z.eqb_neq ty FIELD_EOS) Hty). rewrite H2.
  rewrite (proj2 (Z.gtb_gt _ _)) by lia. reflexivity.
Qed.

Lemma v2_body_caveats s :
  caveats (state_after (v2_body data s)) = caveats s
  \/ (isFirstSection s = false
      /\ fst (readVarint data (pos s)) = FIELD_IDENTIFIER
      /\ exists p1 n p2,
           readVarint data (pos s) = (FIELD_IDENTIFIER, p1)
           /\ readVarint data p1 = (n, p2) /\ p2 + n <= len data
           /\ caveats (state_after (v2_body data s))
              = caveats s ++ [bytesToString data p2 n]).
Proof.
  unfold v2_body.
  destruct (readVarint data (pos s)) as [ty p1] eqn:H1.
  destruct (ty =? FIELD_EOS) eqn:He; [ left; reflexivity | ].
  destruct (readVarint data p1) as [n p2] eqn:H2.
  destruct (p2 + n >? len data) eqn:Hov; [ left; reflexivity | ].
  assert (p2 + n <= len data) as Hfit.
  { destruct (Z.gtb_spec (p2 + n) (len data)); [ discriminate | lia ]. }
  destruct (ty =? FIELD_IDENTIFIER) eqn:Hid; cbn [andb].
  - apply Z.eqb_eq in Hid. subst ty.
    destruct (isFirstSection s) eqn:Hf; cbn [negb].
    + left. destruct (FIELD_IDENTIFIER =? FIELD_SIGNATURE); reflexivity.
    + right. split; [ reflexivity | ]. split; [ reflexivity | ].
      exists p1, n, p2. repeat split; auto.
  - left. destruct (ty =? FIELD_SIGNATURE); reflexivity.
Qed.

Lemma v2_body_signature s :
  fst (readVarint data (pos s)) = FIELD_SIGNATURE ->
  exists s', v2_body data s = Break s' /\ caveats s' = caveats s.
Proof.
  unfold v2_body.
  destruct (readVarint data (pos s)) as [ty p1] eqn:H1. cbn [fst].
  intros ->. cbn [Z.eqb FIELD_SIGNATURE FIELD_EOS FIELD_IDENTIFIER andb].
  destruct (readVarint data p1) as [n p2] eqn:H2.
  destruct (p2 + n >? len data); eexists; split; reflexivity.
Qed.

Lemma v2_body_phase s :
  match phase_of_state s, phase_after (v2_body data s) with
  | Header, CaveatSection => fst (readVarint data (pos s)) = FIELD_EOS
  | Header, Header => fst (readVarint data (pos s)) <> FIELD_EOS
  | Header, Done => fst (readVarint data (pos s)) <> FIELD_EOS
  | CaveatSection, Header => False
  | CaveatSection, _ => True
  | Done, _ => False
  end.
Proof.
  unfold v2_body, phase_of_state.
  destruct (readVarint data (pos s)) as [ty p1] eqn:H1. cbn [fst].
  destruct (ty =? FIELD_EOS) eqn:He.
  - apply Z.eqb_eq in He. destruct (isFirstSection s); cbn; auto.
  - apply Z.eqb_neq in He.
    destruct (readVarint data p1) as [n p2] eqn:H2.
    destruct (p2 + n >? len data); [ destruct (isFirstSection s); cbn; auto | ].
    destruct (ty =? FIELD_SIGNATURE); destruct (isFirstSection s); cbn; auto.
Qed.

Lemma v2_reach_header s :
  v2_reach data s -> isFirstSection s = true -> caveats s = [].
Proof.
  induction 1 as [| s s' Hreach IH Hpos Hbody]; intros Hfirst;
    [ reflexivity | ].
  pose proof (v2_body_phase s) as Hph.
  pose proof (v2_body_caveats s) as Hcav.
  rewrite Hbody in Hph, Hcav. cbn [phase_after state_after] in *.
  unfold phase_of_state in Hph. rewrite Hfirst in Hph.
  destruct (isFirstSection s) eqn:Hs; [ | contradiction ].
  destruct Hcav as [-> | (Hf & _)]; [ auto | discriminate ].
Qed.

End V2.

(** C4: the v2 decoder moves through the phases Header (until the first
    EOS field), CaveatSection and Done. It starts in Header with no
    caveat; an iteration leaves Header for CaveatSection exactly when it
    reads an EOS field, and never returns to Header; the caveat list
    changes only when an identifier field (type 2) that fits the buffer is
    read in CaveatSection, by appending its payload, so every state in
    Header has an empty list; an iteration that reads a signature field
    (type 6) ends the loop at once, capturing nothing, and so does the
    end of the buffer. *)
Theorem v2_state_machine (data : Uint8Array) :
  (phase_of_state v2_init = Header /\ caveats v2_init = [])
  /\ (forall s,
        match phase_of_state s, phase_after (v2_body data s) with
        | Header, CaveatSection => fst (readVarint data (pos s)) = FIELD_EOS
        | Header, Header => fst (readVarint data (pos s)) <> FIELD_EOS
        | Header, Done => fst (readVarint data (pos s)) <> FIELD_EOS
        | CaveatSection, Header => False
        | CaveatSection, _ => True
        | Done, _ => False
        end)
  /\ (forall s,
        caveats (state_after (v2_body data s)) = caveats s
        \/ (phase_of_state s = CaveatSection
            /\ fst (readVarint data (pos s)) = FIELD_IDENTIFIER
            /\ exists p1 n p2,
                 readVarint data (pos s) = (FIELD_IDENTIFIER, p1)
                 /\ readVarint data p1 = (n, p2) /\ p2 + n <= len data
                 /\ caveats (state_after (v2_body data s))
                    = caveats s ++ [bytesToString data p2 n]))
  /\ (forall s, v2_reach data s -> phase_of_state s = Header -> caveats s = [])
  /\ (forall s fuel,
        pos s < len data ->
        fst (readVarint data (pos s)) = FIELD_SIGNATURE ->
        phase_after (v2_body data s) = Done
        /\ v2_loop (S fuel) data s = Some (caveats s))
  /\ (forall s fuel,
        len data <= pos s -> v2_loop (S fuel) data s = Some (caveats s)).
Proof.
  split; [ split; reflexivity | ].
  split; [ apply v2_body_phase | ].
  split.
  { intros s. destruct (v2_body_caveats data s) as [H | (Hf & H)];
      [ left; exact H | right; split; [ | exact H ] ].
    unfold phase_of_state. rewrite Hf. reflexivity. }
  split.
  { intros s Hr Hp. apply (v2_reach_header data s Hr).
    unfold phase_of_state in Hp. destruct (isFirstSection s); congruence. }
  split.
  { intros s fuel Hpos Hsig.
    destruct (v2_body_signature data s Hsig) as (s' & Hb & Hc).
    cbn [v2_loop]. rewrite (proj2 (Z.ltb_lt _ _) Hpos), Hb.
    split; [ reflexivity | congruence ]. }
  intros s fuel Hpos. cbn [v2_loop].
  rewrite (proj2 (Z.ltb_ge _ _)) by lia. reflexivity.
Qed.

(** A result does not depend on the fuel that produced it. *)
Lemma v2_loop_fuel_mono fuel fuel' data s r :
  v2_loop fuel data s = Some r -> (fuel <= fuel')%nat ->
  v2_loop fuel' data s = Some r.
Proof.
  revert fuel' s. induction fuel as [| fuel IH]; intros fuel' s H Hle;
    [ discriminate | ].
  destruct fuel' as [| fuel']; [ lia | ]. cbn [v2_loop] in *.
  destruct (pos s <? len data); [ | exact H ].
  destruct (v2_body data s) as [s' | s']; [ | exact H ].
  apply IH; [ exact H | lia ].
Qed.

Lemma v2_loop_deterministic f1 f2 data s r1 r2 :
  v2_loop f1 data s = Some r1 -> v2_loop f2 data s = Some r2 -> r1 = r2.
Proof.
  intros H1 H2.
  apply (v2_loop_fuel_mono _ (Nat.max f1 f2)) in H1; [ | lia ].
  apply (v2_loop_fuel_mono _ (Nat.max f1 f2)) in H2; [ | lia ].
  congruence.
Qed.

(** C1 fails on the code. The sample macaroon is a valid encoding and
    decodes to its one caveat [a=1]; cut after the type byte of that
    caveat's identifier field (6 bytes), the buffer decodes to one empty
    caveat: the length varint is read past the end as 0, the bounds test
    accepts it and an empty payload is captured. The empty string is not
    a prefix of the caveat list of the whole buffer. *)
Theorem extractCaveatsV2_truncation_phantom :
  validV2 (encodeV2 sampleMacaroon)
  /\ extractCaveatsV2 50 (encodeV2 sampleMacaroon) = Some (caveatsOf sampleMacaroon)
  /\ caveatsOf sampleMacaroon = [str "a=1"]
  /\ extractCaveatsV2 50 (take 6 (encodeV2 sampleMacaroon)) = Some [[]]
  /\ ~ truncation_robust (encodeV2 sampleMacaroon).
Proof.
  split.
  { exists sampleMacaroon. split; [ | split; [ | reflexivity ] ].
    - repeat constructor; cbn; discriminate.
    - repeat constructor; cbn; discriminate. }
  split; [ vm_compute; reflexivity | ].
  split; [ vm_compute; reflexivity | ].
  split; [ vm_compute; reflexivity | ].
  intros Hrob. destruct (Hrob 6%nat) as (fuel & cs_n & cs & Hn & Hfull & Hpre).
  { vm_compute. lia. }
  assert (cs_n = [[]]) as ->.
  { eapply v2_loop_deterministic; [ exact Hn | ].
    instantiate (1 := 50%nat). vm_compute. reflexivity. }
  assert (cs = [str "a=1"]) as ->.
  { eapply v2_loop_deterministic; [ exact Hfull | ].
    instantiate (1 := 50%nat). vm_compute. reflexivity. }
  destruct Hpre as (k & Hk). vm_compute in Hk. discriminate.
Qed.

(** ** extractCaveatsFromMacaroon *)

Lemma v2_loop_stuck data s :
  pos s < len data -> v2_body data s = Continue s ->
  forall fuel, v2_loop fuel data s = None.
Proof.
  intros Hpos Hbody. induction fuel as [| fuel IH]; [ reflexivity | ].
  cbn [v2_loop]. rewrite (proj2 (Z.ltb_lt _ _) Hpos), Hbody. exact IH.
Qed.

(** A decode failure of [atob] is caught. *)
Lemma extractCaveats_caught fuel s :
  base64ToBytes s = Throw -> extractCaveatsFromMacaroon fuel s = Some [].
Proof.
  intros H. unfold extractCaveatsFromMacaroon, extractCaveats_try.
  rewrite H. reflexivity.
Qed.

(** Fewer than 2 bytes give no caveat. *)
Lemma extractCaveats_short fuel s data :
  base64ToBytes s = Normal data -> len data < 2 ->
  extractCaveatsFromMacaroon fuel s = Some [].
Proof.
  intros H Hl. unfold extractCaveatsFromMacaroon, extractCaveats_try.
  rewrite H, (proj2 (Z.ltb_lt _ _) Hl). reflexivity.
Qed.

(** Outside of the v2 format the call returns, whatever the fuel. *)
Lemma extractCaveats_v1_returns fuel s data :
  base64ToBytes s = Normal data -> int_of_read (get data 0) <> 2 ->
  exists cs, extractCaveatsFromMacaroon fuel s = Some cs.
Proof.
  intros H Hv. unfold extractCaveatsFromMacaroon, extractCaveats_try.
  rewrite H, (proj2 (Z.eqb_neq _ _) Hv).
  destruct (len data <? 2); eexists; reflexivity.
Qed.

(** [not-valid-base64!!] is not base64: [atob] throws, the facade
    catches, and the bandwidth is 0. *)
Lemma getMaxBandwidth_not_base64 (StringToNumber : jsstring -> float) fuel :
  base64ToBytes (str "not-valid-base64!!") = Throw
  /\ getMaxBandwidthFromMacaroon StringToNumber fuel (str "not-valid-base64!!")
     = Some 0%float.
Proof.
  assert (base64ToBytes (str "not-valid-base64!!") = Throw) as H
    by (vm_compute; reflexivity).
  split; [ exact H | ].
  unfold getMaxBandwidthFromMacaroon.
  rewrite (extractCaveats_caught fuel _ H). reflexivity.
Qed.

(** C2 fails on the code: the base64 string [AgH6////Dw==] decodes to
    the bytes 02 01 FA FF FF FF 0F, a v2 buffer whose first field has a
    length varint that reads as -6; the bounds test accepts it, the
    position moves back to the start of the field, and the decoding loop
    never ends: [extractCaveatsFromMacaroon] does not return. *)
Theorem extractCaveatsFromMacaroon_diverges :
  base64ToBytes (str "AgH6////Dw==") = Normal loopingBuffer
  /\ readVarint loopingBuffer 2 = (-6, 7)
  /\ v2_body loopingBuffer v2_init = Continue v2_init
  /\ forall fuel, extractCaveatsFromMacaroon fuel (str "AgH6////Dw==") = None.
Proof.
  split; [ vm_compute; reflexivity | ].
  split; [ vm_compute; reflexivity | ].
  split; [ vm_compute; reflexivity | ].
  intros fuel. unfold extractCaveatsFromMacaroon, extractCaveats_try.
  replace (base64ToBytes (str "AgH6////Dw==")) with (Normal loopingBuffer)
    by (vm_compute; reflexivity).
  cbn [try_catch]. change (len loopingBuffer <? 2) with false. cbv iota.
  change (int_of_read (get loopingBuffer 0) =? 2) with true. cbv iota.
  apply v2_loop_stuck; vm_compute; reflexivity.
Qed.

(** ** The constraint aggregators *)

Section AggregationFacts.

Variable StringToNumber : jsstring -> float.

Lemma matchingCaveats_app cond cs1 cs2 :
  matchingCaveats cond (cs1 ++ cs2)
  = matchingCaveats cond cs1 ++ matchingCaveats cond cs2.
Proof. unfold matchingCaveats. rewrite omap_app, filter_app. reflexivity. Qed.

Lemma matchingCaveats_one cond c :
  matchingCaveats cond [c]
  = match decodeCaveat c with
    | Some cav => if str_eqb (condition cav) cond then [cav] else []
    | None => []
    end.
Proof.
  unfold matchingCaveats, str_eqb. cbn [omap list_omap].
  destruct (decodeCaveat c) as [cav |]; [ | reflexivity ].
  rewrite filter_cons, filter_nil.
  destruct (decide (condition cav = cond)) as [H | H].
  - rewrite bool_decide_eq_true_2 by exact H. reflexivity.
  - rewrite bool_decide_eq_false_2 by exact H. reflexivity.
Qed.

(** The loop keeps the value of the last matching caveat, and its
    initial value when there is none. *)
Lemma fold_aggregate_step cond cs acc :
  fold_left (aggregate_step StringToNumber cond) cs acc
  = match last (matchingCaveats cond cs) with
    | Some cav => orZero (StringToNumber (value cav))
    | None => acc
    end.
Proof.
  induction cs as [| c cs IH] using rev_ind; [ reflexivity | ].
  rewrite fold_left_app, matchingCaveats_app, last_app, matchingCaveats_one.
  cbn [fold_left]. unfold aggregate_step at 1.
  destruct (decodeCaveat c) as [cav |]; [ | exact IH ].
  destruct (str_eqb (condition cav) cond); [ reflexivity | exact IH ].
Qed.

Lemma aggregate_lastWins cond cs :
  aggregate StringToNumber cond cs = lastWins StringToNumber cond cs.
Proof. unfold aggregate, lastWins. apply fold_aggregate_step. Qed.

End AggregationFacts.

(** C3: [getMaxBandwidthFromMacaroon] returns the number held by the
    last caveat whose condition is [max_bandwidth] (last match wins): 0
    when no caveat has that condition, 0 when the value of the last one
    is not a number, and 250 when the caveats hold [max_bandwidth=500]
    and later [max_bandwidth=250] as the last of them. [StringToNumber]
    is the conversion [Number] of the language. *)
Theorem getMaxBandwidth_last_wins (StringToNumber : jsstring -> float)
    (fuel : nat) (s : jsstring) (cs : list jsstring) :
  extractCaveatsFromMacaroon fuel s = Some cs ->
  getMaxBandwidthFromMacaroon StringToNumber fuel s
  = Some (lastWins StringToNumber MAX_BANDWIDTH_CONDITION cs)
  /\ (matchingCaveats MAX_BANDWIDTH_CONDITION cs = [] ->
      getMaxBandwidthFromMacaroon StringToNumber fuel s = Some 0%float)
  /\ (forall cav,
        last (matchingCaveats MAX_BANDWIDTH_CONDITION cs) = Some cav ->
        PrimFloat.is_nan (StringToNumber (value cav)) = true ->
        getMaxBandwidthFromMacaroon StringToNumber fuel s = Some 0%float)
  /\ (forall pre mid post,
        cs = pre ++ [str "max_bandwidth=500"] ++ mid
                 ++ [str "max_bandwidth=250"] ++ post ->
        matchingCaveats MAX_BANDWIDTH_CONDITION post = [] ->
        StringToNumber (str "250") = 250%float ->
        getMaxBandwidthFromMacaroon StringToNumber fuel s = Some 250%float).
Proof.
  intros Hcs.
  assert (getMaxBandwidthFromMacaroon StringToNumber fuel s
          = Some (lastWins StringToNumber MAX_BANDWIDTH_CONDITION cs)) as Hget.
  { unfold getMaxBandwidthFromMacaroon. rewrite Hcs, aggregate_lastWins.
    reflexivity. }
  rewrite Hget. split; [ reflexivity | ]. unfold lastWins.
  split; [ intros ->; reflexivity | ].
  split.
  { intros cav -> Hnan. unfold orZero, truthy. rewrite Hnan. reflexivity. }
  intros pre mid post -> Hpost H250.
  rewrite !matchingCaveats_app, Hpost, app_nil_r.
  rewrite !last_app.
  replace (matchingCaveats MAX_BANDWIDTH_CONDITION [str "max_bandwidth=250"])
    with [mkCaveat MAX_BANDWIDTH_CONDITION 61%N (str "250")]
    by (vm_compute; reflexivity).
  cbn [last value]. rewrite H250. reflexivity.
Qed.

Lemma getMaxBandwidth_last_wins_witness :
  extractCaveatsFromMacaroon 50 sampleBandwidthMacaroon
  = Some [str "max_bandwidth=500"; str "max_bandwidth=250"]
  /\ getMaxBandwidthFromMacaroon decimalToNumber 50 sampleBandwidthMacaroon
     = Some 250%float.
Proof.
  split; [ vm_compute; reflexivity | ].
  destruct (getMaxBandwidth_last_wins decimalToNumber 50 sampleBandwidthMacaroon
              [str "max_bandwidth=500"; str "max_bandwidth=250"])
    as (_ & _ & _ & H); [ vm_compute; reflexivity | ].
  apply (H [] [] []); vm_compute; reflexivity.
Defined.

(** ** parseL402Challenge *)

Section Scan.

Lemma valuesFor_app key ps1 ps2 :
  valuesFor key (ps1 ++ ps2) = valuesFor key ps1 ++ valuesFor key ps2.
Proof. unfold valuesFor. rewrite filter_app, map_app. reflexivity. Qed.

Lemma valuesFor_one key p :
  valuesFor key [p]
  = if str_eqb (toLowerCase (fst p)) key then [snd p] else [].
Proof.
  unfold valuesFor, str_eqb. rewrite filter_cons, filter_nil.
  destruct (decide (toLowerCase (fst p) = key)) as [H | H].
  - rewrite bool_decide_eq_true_2 by exact H. reflexivity.
  - rewrite bool_decide_eq_false_2 by exact H. reflexivity.
Qed.

(** The two variables end with the value of the last pair of their
    key, or keep their initial value. *)
Lemma fold_assignPair pairs m i :
  fold_left assignPair pairs (m, i)
  = (default m (last (valuesFor (str "macaroon") pairs)),
     default i (last (valuesFor (str "invoice") pairs))).
Proof.
  induction pairs as [| p pairs IH] using rev_ind; [ reflexivity | ].
  rewrite fold_left_app, IH, !valuesFor_app, !last_app, !valuesFor_one.
  cbn [fold_left]. unfold assignPair. cbn [fst snd].
  destruct (str_eqb (toLowerCase (fst p)) (str "macaroon")) eqn:Hm.
  - apply bool_decide_eq_true_1 in Hm. rewrite Hm.
    replace (str_eqb (str "macaroon") (str "invoice")) with false
      by (vm_compute; reflexivity).
    reflexivity.
  - destruct (str_eqb (toLowerCase (fst p)) (str "invoice")); reflexivity.
Qed.

Lemma scanChallenge_values header :
  scanChallenge header
  = (default [] (last (valuesFor (str "macaroon") (pairsOf header))),
     default [] (last (valuesFor (str "invoice") (pairsOf header)))).
Proof. unfold scanChallenge, pairsOf. apply fold_assignPair. Qed.

End Scan.

(** C6, as stated, fails: a header whose [macaroon] pair has an empty
    value has both pairs, and the parse returns [null]. *)
Lemma parseL402Challenge_null_with_both_pairs :
  valuesFor (str "macaroon") (pairsOf emptyMacaroonHeader) = [[]]
  /\ valuesFor (str "invoice") (pairsOf emptyMacaroonHeader) = [str "abc"]
  /\ parseL402Challenge decimalToNumber 0 emptyMacaroonHeader = Some None
  /\ ~ null_iff_pair_missing decimalToNumber 0 emptyMacaroonHeader.
Proof.
  split; [ vm_compute; reflexivity | ].
  split; [ vm_compute; reflexivity | ].
  split; [ vm_compute; reflexivity | ].
  unfold null_iff_pair_missing. intros [H _].
  destruct H as [H | H]; [ vm_compute; reflexivity | | ];
    vm_compute in H; discriminate.
Qed.

(** C6 (amended): [parseL402Challenge] returns [null] exactly when the
    variable [macaroon] or the variable [invoice] is empty when the scan
    ends, that is when the last [macaroon] pair or the last [invoice]
    pair found has an empty value or no such pair was found. When both
    are non-empty and the decoding of the macaroon returns, the result
    is the challenge built from the two values and the two aggregated
    constraints. [parseL402Challenge] of the header [Bearer foo] is
    [null]. *)
Theorem parseL402Challenge_null_iff (StringToNumber : jsstring -> float)
    (fuel : nat) (header : jsstring) :
  let mac := default [] (last (valuesFor (str "macaroon") (pairsOf header))) in
  let inv := default [] (last (valuesFor (str "invoice") (pairsOf header))) in
  (parseL402Challenge StringToNumber fuel header = Some None
   <-> (mac = [] \/ inv = []))
  /\ (forall cs,
        mac <> [] -> inv <> [] ->
        extractCaveatsFromMacaroon fuel mac = Some cs ->
        parseL402Challenge StringToNumber fuel header
        = Some (Some (mkChallenge mac inv
                        (lastWins StringToNumber MAX_BANDWIDTH_CONDITION cs)
                        (lastWins StringToNumber EXPIRATION_CONDITION cs))))
  /\ (forall c,
        parseL402Challenge StringToNumber fuel header = Some (Some c) ->
        macaroon c = mac /\ invoice c = inv /\ mac <> [] /\ inv <> [])
  /\ parseL402Challenge StringToNumber fuel (str "Bearer foo") = Some None.
Proof.
  intros mac inv.
  assert (scanChallenge header = (mac, inv)) as Hscan
    by apply scanChallenge_values.
  assert (forall a : jsstring, str_eqb a [] = true <-> a = []) as Heq.
  { intros a. unfold str_eqb. apply bool_decide_eq_true. }
  assert (forall a : jsstring, str_eqb a [] = false <-> a <> []) as Hne.
  { intros a. unfold str_eqb. apply bool_decide_eq_false. }
  unfold parseL402Challenge. rewrite Hscan.
  unfold getMaxBandwidthFromMacaroon, getExpirationFromMacaroon.
  split; [ | split; [ | split ] ].
  - destruct (str_eqb mac []) eqn:Hm; cbn [orb].
    + apply Heq in Hm. split; auto.
    + apply Hne in Hm. destruct (str_eqb inv []) eqn:Hi.
      * apply Heq in Hi. split; auto.
      * apply Hne in Hi.
        split; [ | intros [? | ?]; contradiction ].
        destruct (extractCaveatsFromMacaroon fuel mac); discriminate.
  - intros cs Hm Hi Hcs.
    rewrite (proj2 (Hne mac) Hm), (proj2 (Hne inv) Hi), Hcs. cbn [orb].
    rewrite !aggregate_lastWins. reflexivity.
  - intros c.
    destruct (str_eqb mac []) eqn:Hm; cbn [orb]; [ discriminate | ].
    destruct (str_eqb inv []) eqn:Hi; [ discriminate | ].
    apply Hne in Hm, Hi.
    destruct (extractCaveatsFromMacaroon fuel mac); [ | discriminate ].
    intros [= <-]. cbn. auto.
  - vm_compute. reflexivity.
Qed.

(** ** Scanning a rendered header *)

Section Render.

(** A property of code units that holds below a bound by evaluation. *)
Lemma units_below (P : N -> bool) (n : nat) :
  forallb P (map N.of_nat (seq 0 n)) = true ->
  forall c, (c < N.of_nat n)%N -> P c = true.
Proof.
  intros Hall c Hc. rewrite forallb_forall in Hall. apply Hall.
  apply in_map_iff. exists (N.to_nat c). split; [ lia | ].
  apply in_seq. lia.
Qed.

Lemma isWord_below c : isWord c = true -> (c < 123)%N.
Proof.
  unfold isWord. intros H.
  destruct (N.lt_ge_cases c 123) as [Hlt | Hge]; [ exact Hlt | ].
  rewrite (proj2 (N.leb_gt c 90)), (proj2 (N.leb_gt c 122)),
    (proj2 (N.leb_gt c 57)), (proj2 (N.eqb_neq c 95)) in H by lia.
  rewrite !andb_false_r in H. discriminate.
Qed.

Lemma isWord_not_space c : isWord c = true -> isWhiteSpace c = false.
Proof.
  intros H. pose proof (isWord_below c H) as Hc.
  pose proof (units_below
    (fun c => implb (isWord c) (negb (isWhiteSpace c))) 123
    ltac:(vm_compute; reflexivity) c Hc) as Hi.
  cbv beta in Hi. rewrite H in Hi. cbn in Hi.
  destruct (isWhiteSpace c); [ discriminate | reflexivity ].
Qed.

Lemma takeWhile_app p a rest :
  forallb p a = true ->
  match rest with c :: _ => p c = false | [] => True end ->
  takeWhile p (a ++ rest) = a.
Proof.
  intros Ha Hrest. induction a as [| x a IH]; cbn [app takeWhile].
  - destruct rest as [| c r]; [ reflexivity | ]. cbn. rewrite Hrest.
    reflexivity.
  - cbn [forallb] in Ha. apply andb_true_iff in Ha as [Hx Ha].
    rewrite Hx, IH by exact Ha. reflexivity.
Qed.

Lemma pairMatchHere_rendered p tail :
  wellFormedPair p ->
  pairMatchHere
    (pairKey p ++ [61%N; 34%N] ++ pairValue p ++ [34%N] ++ tail)
  = Some (pairKey p, pairValue p,
          (length (pairKey p) + length (pairValue p) + 3)%nat).
Proof.
  intros (Hne & Hkey & Hval & _). unfold pairMatchHere. cbv zeta.
  rewrite takeWhile_app by (auto; reflexivity).
  destruct (pairKey p) as [| k0 k'] eqn:Hk; [ contradiction | ].
  rewrite drop_app_length. cbn [app].
  rewrite takeWhile_app by (auto; reflexivity).
  rewrite drop_app_length. reflexivity.
Qed.

Lemma pairRegex_exec_skip pre rest :
  pairRegex_exec (length pre) (pre ++ rest) = pairRegex_exec 0 rest.
Proof.
  induction pre as [| c pre IH]; [ reflexivity | ].
  cbn [length app pairRegex_exec]. exact IH.
Qed.

Lemma pairRegex_exec_separator sep rest :
  forallb (fun c => (c =? 44)%N || (c =? 32)%N) sep = true ->
  pairRegex_exec 0 (sep ++ rest) = pairRegex_exec 0 rest.
Proof.
  induction sep as [| c sep IH]; intros Hsep; [ reflexivity | ].
  cbn [forallb] in Hsep. apply andb_true_iff in Hsep as [Hc Hsep].
  cbn [app pairRegex_exec].
  assert (pairMatchHere (c :: sep ++ rest) = None) as ->.
  { unfold pairMatchHere. cbn [takeWhile].
    assert (isWord c = false) as ->; [ | reflexivity ].
    apply orb_true_iff in Hc as [Hc | Hc]; apply N.eqb_eq in Hc; subst c;
      reflexivity. }
  apply IH. exact Hsep.
Qed.

Lemma pairRegex_exec_rendered ps :
  Forall wellFormedPair ps ->
  pairRegex_exec 0 (renderPairs ps) = map keyValue ps.
Proof.
  induction 1 as [| p ps Hp Hps IH]; [ reflexivity | ].
  cbn [renderPairs map].
  pose proof (pairMatchHere_rendered p (pairSep p ++ renderPairs ps) Hp)
    as Hm.
  destruct Hp as (Hne & _ & _ & Hsep).
  destruct (pairKey p) as [| k0 k'] eqn:Hk; [ contradiction | ].
  cbn [app] in *. cbn [pairRegex_exec]. rewrite Hm.
  unfold keyValue at 1. rewrite Hk. f_equal.
  replace (length (k0 :: k') + length (pairValue p) + 3 - 1)%nat
    with (length (k' ++ [61%N; 34%N] ++ pairValue p ++ [34%N]))
    by (rewrite !length_app; cbn [length]; lia).
  replace (k' ++ 61%N :: 34%N :: pairValue p ++ 34%N :: pairSep p
             ++ renderPairs ps)
    with ((k' ++ [61%N; 34%N] ++ pairValue p ++ [34%N])
            ++ pairSep p ++ renderPairs ps)
    by (rewrite <- !app_assoc; reflexivity).
  rewrite pairRegex_exec_skip, pairRegex_exec_separator by exact Hsep.
  exact IH.
Qed.

Lemma renderPairs_no_space ps :
  Forall wellFormedPair ps ->
  takeWhile isWhiteSpace (renderPairs ps) = [].
Proof.
  intros H. destruct H as [| p ps (Hne & Hkey & _) _]; [ reflexivity | ].
  cbn [renderPairs].
  destruct (pairKey p) as [| k0 k']; [ contradiction | ].
  cbn [forallb] in Hkey. apply andb_true_iff in Hkey as [Hk0 _].
  cbn [app takeWhile]. rewrite (isWord_not_space k0 Hk0). reflexivity.
Qed.

(** The scan of a rendered header finds its pairs, in order. *)
Lemma pairsOf_rendered ps :
  Forall wellFormedPair ps -> pairsOf (renderHeader ps) = map keyValue ps.
Proof.
  intros H. unfold pairsOf, renderHeader.
  assert (prefixMatch (str "L402 " ++ renderPairs ps) = Some 5%nat) as ->.
  { unfold prefixMatch.
    change (str "L402 " ++ renderPairs ps)
      with (76%N :: 52%N :: 48%N :: 50%N :: 32%N :: renderPairs ps).
    cbn [length take drop Nat.ltb Nat.leb toLowerCase map].
    replace (str_eqb [lowerUnit 76; lowerUnit 52; lowerUnit 48; lowerUnit 50]
               (str "l402")) with true by (vm_compute; reflexivity).
    cbn [orb takeWhile].
    replace (isWhiteSpace 32) with true by reflexivity.
    rewrite (renderPairs_no_space ps H). reflexivity. }
  change (drop 5 (str "L402 " ++ renderPairs ps)) with (renderPairs ps).
  apply pairRegex_exec_rendered. exact H.
Qed.

End Render.

(** C5, as stated, fails: with two [macaroon] pairs the last one in scan
    order wins, so exchanging them changes the result. *)
Lemma parseL402Challenge_order_matters :
  Forall wellFormedPair twoMacaroons
  /\ Forall wellFormedPair twoMacaroonsSwapped
  /\ map keyValue twoMacaroons ≡ₚ map keyValue twoMacaroonsSwapped
  /\ parseL402Challenge decimalToNumber 9 (renderHeader twoMacaroons)
     = Some (Some (mkChallenge (str "BBBB") (str "abc") 0 0))
  /\ parseL402Challenge decimalToNumber 9 (renderHeader twoMacaroonsSwapped)
     = Some (Some (mkChallenge (str "AAA=") (str "abc") 0 0))
  /\ ~ order_independent decimalToNumber twoMacaroons twoMacaroonsSwapped.
Proof.
  assert (Forall wellFormedPair twoMacaroons) as H1 by solve_wellFormed.
  assert (Forall wellFormedPair twoMacaroonsSwapped) as H2 by solve_wellFormed.
  assert (map keyValue twoMacaroons ≡ₚ map keyValue twoMacaroonsSwapped)
    as H3 by apply perm_swap.
  repeat split; try assumption; try (vm_compute; reflexivity).
  intros Hind. specialize (Hind H1 H2 H3 9%nat).
  vm_compute in Hind. discriminate.
Qed.

Lemma Permutation_small {A} (l l' : list A) :
  l ≡ₚ l' -> (length l <= 1)%nat -> l = l'.
Proof.
  intros Hp Hl. destruct l as [| x [| y l]]; cbn in Hl; [ | | lia ].
  - symmetry. apply Permutation_nil. exact Hp.
  - symmetry. apply Permutation_length_1_inv. exact Hp.
Qed.

Lemma valuesFor_Permutation key (ps ps' : list (jsstring * jsstring)) :
  ps ≡ₚ ps' -> valuesFor key ps ≡ₚ valuesFor key ps'.
Proof.
  intros H. unfold valuesFor. apply Permutation_map.
  induction H; rewrite ?filter_cons; repeat case_decide;
    try constructor; auto; try reflexivity.
  etransitivity; eauto.
Qed.

(** C5 (amended): for two headers that carry the same well-formed pairs,
    in any order and with any comma-and-space separators, and at most
    one pair with the key [macaroon] and at most one with the key
    [invoice] (keys compared in lower case), [parseL402Challenge] gives
    the same result. The two headers of the example parse to the same
    challenge. *)
Theorem parseL402Challenge_order_independent
    (StringToNumber : jsstring -> float) (ps ps' : list HeaderPair) :
  Forall wellFormedPair ps -> Forall wellFormedPair ps' ->
  map keyValue ps ≡ₚ map keyValue ps' ->
  (length (valuesFor (str "macaroon") (map keyValue ps)) <= 1)%nat ->
  (length (valuesFor (str "invoice") (map keyValue ps)) <= 1)%nat ->
  (forall fuel,
     parseL402Challenge StringToNumber fuel (renderHeader ps)
     = parseL402Challenge StringToNumber fuel (renderHeader ps'))
  /\ (forall fuel,
        parseL402Challenge StringToNumber fuel invoiceFirstHeader
        = parseL402Challenge StringToNumber fuel macaroonFirstHeader
        /\ parseL402Challenge StringToNumber fuel invoiceFirstHeader
           = Some (Some (mkChallenge (str "AAA=") (str "abc") 0 0))).
Proof.
  intros Hwf Hwf' Hperm Hmac Hinv.
  split; [ | intros fuel; split; vm_compute; reflexivity ].
  intros fuel.
  assert (scanChallenge (renderHeader ps) = scanChallenge (renderHeader ps'))
    as Hscan.
  { rewrite !scanChallenge_values, !pairsOf_rendered by assumption.
    rewrite <- (Permutation_small _ _
                  (valuesFor_Permutation (str "macaroon") _ _ Hperm) Hmac).
    rewrite <- (Permutation_small _ _
                  (valuesFor_Permutation (str "invoice") _ _ Hperm) Hinv).
    reflexivity. }
  unfold parseL402Challenge. rewrite Hscan. reflexivity.
Qed.

Lemma parseL402Challenge_order_independent_witness :
  renderHeader
    [mkPair (str "invoice") (str "abc") (str ", ");
     mkPair (str "macaroon") (str "AAA=") []] = invoiceFirstHeader
  /\ renderHeader
       [mkPair (str "macaroon") (str "AAA=") (str " ");
        mkPair (str "invoice") (str "abc") []]
     = str "L402 macaroon=" ++ dquote ++ str "AAA=" ++ dquote
         ++ str " invoice=" ++ dquote ++ str "abc" ++ dquote
  /\ parseL402Challenge decimalToNumber 9 invoiceFirstHeader
     = parseL402Challenge decimalToNumber 9
         (str "L402 macaroon=" ++ dquote ++ str "AAA=" ++ dquote
            ++ str " invoice=" ++ dquote ++ str "abc" ++ dquote).
Proof.
  split; [ reflexivity | ]. split; [ reflexivity | ].
  refine (proj1 (parseL402Challenge_order_independent decimalToNumber
    [mkPair (str "invoice") (str "abc") (str ", ");
     mkPair (str "macaroon") (str "AAA=") []]
    [mkPair (str "macaroon") (str "AAA=") (str " ");
     mkPair (str "invoice") (str "abc") []] _ _ _ _ _) 9%nat).
  - solve_wellFormed.
  - solve_wellFormed.
  - apply perm_swap.
  - vm_compute. lia.
  - vm_compute. lia.
Defined.

(** ** extractCaveatsV1 *)

Section ParseInt.



Lemma hexPrefix_all s : forall seen acc,
  forallb isHexDigit s = true ->
  hexPrefix seen acc s
  = if seen || negb (bool_decide (s = [])) then
      Some (fold_left (fun a c => 16 * a + default 0 (hexDigit c)) s acc)
    else None.
Proof.
  induction s as [| c r IH]; intros seen acc Hall; cbn [hexPrefix].
  - destruct seen; reflexivity.
  - cbn [forallb] in Hall. apply andb_true_iff in Hall as [Hc Hr].
    unfold isHexDigit in Hc. destruct (hexDigit c) as [d |] eqn:Hd;
      [ | discriminate ].
    rewrite IH by exact Hr. cbn [orb fold_left]. rewrite Hd.
    rewrite orb_true_r. reflexivity.
Qed.

Lemma isHexDigit_below c : isHexDigit c = true -> (c < 103)%N.
Proof.
  unfold isHexDigit, hexDigit. intros H.
  destruct (N.lt_ge_cases c 103) as [Hlt | Hge]; [ exact Hlt | ].
  rewrite (proj2 (N.leb_gt c 57)), (proj2 (N.leb_gt c 102)),
    (proj2 (N.leb_gt c 70)) in H by lia.
  rewrite !andb_false_r in H. discriminate.
Qed.

Lemma isHexDigit_plain c :
  isHexDigit c = true ->
  isWhiteSpace c = false
  /\ ((c =? 45) || (c =? 43))%N = false
  /\ ((c =? 120) || (c =? 88))%N = false.
Proof.
  intros H. pose proof (isHexDigit_below c H) as Hc.
  pose proof (units_below
    (fun c => implb (isHexDigit c)
                (negb (isWhiteSpace c)
                 && negb ((c =? 45) || (c =? 43))%N
                 && negb ((c =? 120) || (c =? 88))%N)) 103
    ltac:(vm_compute; reflexivity) c Hc) as Hi.
  cbv beta in Hi. rewrite H in Hi. cbn [implb] in Hi.
  apply andb_true_iff in Hi as [Hi H3].
  apply andb_true_iff in Hi as [H1 H2].
  apply negb_true_iff in H1, H2, H3. auto.
Qed.

(** A field of hexadecimal digits is read as the number it spells. *)
Lemma parseInt16_hex s :
  s <> [] -> forallb isHexDigit s = true -> parseInt16 s = Some (hexValue s).
Proof.
  intros Hne Hall.
  destruct s as [| c r]; [ contradiction | ].
  pose proof Hall as Hall'. cbn [forallb] in Hall'.
  apply andb_true_iff in Hall' as [Hc Hr].
  destruct (isHexDigit_plain c Hc) as (Hws & Hsign & _).
  assert (parseInt_unsigned (c :: r) = c :: r) as Hu.
  { unfold parseInt_unsigned. cbn [dropWhile]. rewrite Hws, Hsign.
    reflexivity. }
  assert (parseInt_sign (c :: r) = 1) as Hs.
  { unfold parseInt_sign. cbn [dropWhile]. rewrite Hws.
    apply orb_false_iff in Hsign as [-> _]. reflexivity. }
  assert (parseInt_digits (c :: r) = c :: r) as Hd.
  { unfold parseInt_digits. rewrite Hu.
    destruct r as [| c2 r]; [ reflexivity | ].
    cbn [forallb] in Hr. apply andb_true_iff in Hr as [Hc2 _].
    destruct (isHexDigit_plain c2 Hc2) as (_ & _ & ->).
    rewrite andb_false_r. reflexivity. }
  unfold parseInt16. rewrite Hd, Hs, hexPrefix_all by exact Hall.
  cbn [orb negb]. rewrite bool_decide_eq_false_2 by discriminate.
  cbn [negb]. unfold hexValue. f_equal. lia.
Qed.





End ParseInt.

Section V1.

Variable data : Uint8Array.

(** The three ways an iteration stops, and the one way it goes on. *)
Lemma v1_body_cases s :
  let field := bytesToString data (pos1 s) 4 in
  match parseInt16 field with
  | None => v1_body data s = Break s
  | Some n =>
      if (n <? 9) || (pos1 s + n >? len data) then v1_body data s = Break s
      else exists cs',
             v1_body data s = Continue (mkV1 cs' (pos1 s + n))
             /\ (cs' = caveats1 s \/ exists v, cs' = caveats1 s ++ [v])
  end.
Proof.
  cbv zeta. unfold v1_body.
  destruct (parseInt16 (bytesToString data (pos1 s) 4)) as [n |];
    [ | reflexivity ].
  destruct ((n <? 9) || (pos1 s + n >? len data)); [ reflexivity | ].
  eexists. split; [ reflexivity | ].
  destruct (indexOf 32 (bytesToString data (pos1 s + 4) (n - 4)));
    [ | left; reflexivity ].
  destruct (str_eqb _ _); [ right; eexists; reflexivity | left; reflexivity ].
Qed.

Lemma v1_body_break s s' : v1_body data s = Break s' -> s' = s.
Proof.
  pose proof (v1_body_cases s) as H. cbv zeta in H.
  destruct (parseInt16 (bytesToString data (pos1 s) 4)) as [n |].
  - destruct ((n <? 9) || (pos1 s + n >? len data)).
    + congruence.
    + destruct H as (cs' & -> & _). discriminate.
  - congruence.
Qed.

Lemma v1_body_advance s s' :
  v1_body data s = Continue s' ->
  pos1 s + 9 <= pos1 s' <= len data.
Proof.
  pose proof (v1_body_cases s) as H. cbv zeta in H.
  destruct (parseInt16 (bytesToString data (pos1 s) 4)) as [n |];
    [ | congruence ].
  destruct (n <? 9) eqn:H9; cbn [orb] in H; [ congruence | ].
  destruct (pos1 s + n >? len data) eqn:Hov; [ congruence | ].
  destruct H as (cs' & -> & _). intros [= <-]. cbn [pos1].
  apply Z.ltb_ge in H9.
  destruct (Z.gtb_spec (pos1 s + n) (len data)); [ discriminate | lia ].
Qed.

(** The loop is over before [length data] iterations: more fuel
    changes nothing. *)
Lemma v1_loop_fuel fuel : forall s extra,
  len data - pos1 s <= Z.of_nat fuel ->
  v1_loop (fuel + extra) data s = v1_loop fuel data s.
Proof.
  induction fuel as [| fuel IH]; intros s extra Hfuel.
  - destruct extra as [| extra]; [ reflexivity | ].
    cbn [Nat.add v1_loop]. rewrite (proj2 (Z.ltb_ge _ _)) by lia.
    reflexivity.
  - cbn [Nat.add v1_loop].
    destruct (pos1 s + 8 <? len data); [ | reflexivity ].
    destruct (v1_body data s) as [s' | s'] eqn:Hb; [ | reflexivity ].
    apply v1_body_advance in Hb. apply IH. lia.
Qed.

Lemma extractCaveatsV1_fuel extra :
  v1_loop (length data + extra) data (mkV1 [] 0) = extractCaveatsV1 data.
Proof. apply v1_loop_fuel. cbn [pos1]. unfold len. lia. Qed.

End V1.



(** ** applyL402Header *)

(** C9, as stated, fails: an expiry of 0 is before the time 1, and the
    header is written all the same, because 0 is falsy in the guard. *)
Lemma applyL402Header_epoch_injects :
  credential epochToken <> []
  /\ tokenExpiry epochToken = Some 0%float
  /\ PrimFloat.ltb 0%float 1%float = true
  /\ applyL402Header 1%float bareContext (Some epochToken)
     = mkContext tt
         (Some {[ str "Authorization" := str "L402 AAA=:00ff" ]})
  /\ ~ untouched_when_past 1%float bareContext epochToken.
Proof.
  split; [ discriminate | ].
  split; [ reflexivity | ].
  split; [ reflexivity | ].
  assert (applyL402Header 1%float bareContext (Some epochToken)
          = mkContext tt
              (Some {[ str "Authorization" := str "L402 AAA=:00ff" ]})) as Hrun.
  { unfold applyL402Header, epochToken, bareContext, expired.
    cbn [credential tokenExpiry headers fields].
    replace (str_eqb (str "AAA=:00ff") []) with false
      by (vm_compute; reflexivity).
    replace (truthy 0) with false by reflexivity.
    cbn [negb andb]. rewrite insert_empty. reflexivity. }
  split; [ exact Hrun | ].
  intros H. unfold untouched_when_past in H. rewrite Hrun in H.
  assert (mkContext tt (Some {[ str "Authorization" := str "L402 AAA=:00ff" ]})
          = bareContext) as Heq.
  { apply H; [ discriminate | ]. exists 0%float. split; reflexivity. }
  discriminate Heq.
Qed.

(** C9 (amended): for every context and every token whose credential is
    not empty and whose expiry is a number other than 0 that lies
    strictly before the current time, [applyL402Header] leaves the
    context as it was: the headers, or their absence, and every other
    field. *)
Theorem applyL402Header_expired {LoaderFields : Type} (now : float)
    (context : LoaderContext LoaderFields) (token : L402Token) (e : float) :
  credential token <> [] ->
  tokenExpiry token = Some e ->
  truthy e = true ->
  PrimFloat.ltb e now = true ->
  applyL402Header now context (Some token) = context.
Proof.
  intros Hcred He Htruthy Hpast. unfold applyL402Header, expired.
  rewrite He, Htruthy, Hpast.
  destruct (str_eqb (credential token) []); reflexivity.
Qed.

Lemma applyL402Header_expired_witness :
  credential staleToken <> []
  /\ tokenExpiry staleToken = Some 1699999999999%float
  /\ truthy 1699999999999%float = true
  /\ PrimFloat.ltb 1699999999999%float sampleNow = true
  /\ applyL402Header sampleNow rangeContext (Some staleToken) = rangeContext
  /\ applyL402Header sampleNow bareContext (Some staleToken) = bareContext.
Proof.
  assert (credential staleToken <> []) as H1 by discriminate.
  assert (truthy 1699999999999%float = true) as H3 by reflexivity.
  assert (PrimFloat.ltb 1699999999999%float sampleNow = true) as H4
    by reflexivity.
  split; [ exact H1 | ]. split; [ reflexivity | ].
  split; [ exact H3 | ]. split; [ exact H4 | ]. split.
  - exact (applyL402Header_expired sampleNow rangeContext staleToken
             1699999999999%float H1 eq_refl H3 H4).
  - exact (applyL402Header_expired sampleNow bareContext staleToken
             1699999999999%float H1 eq_refl H3 H4).
Defined.

(** C10: for every context, every time and every token whose credential
    is not empty and whose expiry is 0, [applyL402Header] writes the
    header [Authorization: L402 <credential>], keeping the other headers
    and fields; the result is the one for the same token without an
    expiry. The aggregator returns that same 0 when the macaroon has no
    [expiration] caveat and when the value of the last one is not a
    number. *)
Theorem applyL402Header_expiry_zero {LoaderFields : Type}
    (StringToNumber : jsstring -> float) (now : float)
    (context : LoaderContext LoaderFields) (token : L402Token) :
  credential token <> [] ->
  tokenExpiry token = Some 0%float ->
  let result := applyL402Header now context (Some token) in
  let before := default ∅ (headers context) in
  (exists h,
      headers result = Some h
      /\ h = <[str "Authorization" := str "L402 " ++ credential token]> before
      /\ h !! str "Authorization" = Some (str "L402 " ++ credential token)
      /\ forall k, k <> str "Authorization" -> h !! k = before !! k)
  /\ fields result = fields context
  /\ result = applyL402Header now context
                (Some (mkToken (credential token) (tokenMaxBandwidth token) None))
  /\ (forall fuel s cs,
        extractCaveatsFromMacaroon fuel s = Some cs ->
        matchingCaveats EXPIRATION_CONDITION cs = [] ->
        getExpirationFromMacaroon StringToNumber fuel s = Some 0%float)
  /\ (forall fuel s cs cav,
        extractCaveatsFromMacaroon fuel s = Some cs ->
        last (matchingCaveats EXPIRATION_CONDITION cs) = Some cav ->
        PrimFloat.is_nan (StringToNumber (value cav)) = true ->
        getExpirationFromMacaroon StringToNumber fuel s = Some 0%float).
Proof.
  intros Hcred He result before.
  assert (str_eqb (credential token) [] = false) as Hc.
  { unfold str_eqb. apply bool_decide_eq_false. exact Hcred. }
  assert (result
          = mkContext (fields context)
              (Some (<[str "Authorization" := str "L402 " ++ credential token]>
                       before))) as Hres.
  { subst result before. unfold applyL402Header, expired.
    rewrite Hc, He. replace (truthy 0) with false by reflexivity.
    cbn [negb andb]. destruct (headers context); reflexivity. }
  split.
  { rewrite Hres. cbn [headers]. eexists. split; [ reflexivity | ].
    split; [ reflexivity | ]. split.
    - apply lookup_insert_eq.
    - intros k Hk. apply lookup_insert_ne. congruence. }
  split; [ rewrite Hres; reflexivity | ].
  split.
  { rewrite Hres. subst before. unfold applyL402Header, expired.
    cbn [credential tokenExpiry]. rewrite Hc. cbn [negb].
    destruct (headers context); reflexivity. }
  split.
  { intros fuel s cs Hcs Hnone. unfold getExpirationFromMacaroon.
    rewrite Hcs, aggregate_lastWins. unfold lastWins. rewrite Hnone.
    reflexivity. }
  intros fuel s cs cav Hcs Hlast Hnan. unfold getExpirationFromMacaroon.
  rewrite Hcs, aggregate_lastWins. unfold lastWins. rewrite Hlast.
  unfold orZero, truthy. rewrite Hnan. reflexivity.
Qed.

Lemma applyL402Header_expiry_zero_witness :
  credential epochToken <> []
  /\ tokenExpiry epochToken = Some 0%float
  /\ headers (applyL402Header sampleNow rangeContext (Some epochToken))
     = Some (<[str "Authorization" := str "L402 AAA=:00ff"]>
               {[ str "Range" := str "bytes=0-99" ]}).
Proof.
  assert (credential epochToken <> []) as H1 by discriminate.
  split; [ exact H1 | ]. split; [ reflexivity | ].
  destruct (applyL402Header_expiry_zero decimalToNumber sampleNow
              rangeContext epochToken H1 eq_refl)
    as ((h & Hh & -> & _) & _).
  exact Hh.
Defined.

(** * Further properties *)

(** ** Varints written and read back *)

Lemma byte_of_unit_value (c : N) :
  (c < 256)%N -> Byte.to_N (byte_of_unit c) = c.
Proof.
  intros Hc. unfold byte_of_unit. rewrite N.mod_small by exact Hc.
  destruct (Byte.of_N c) as [b |] eqn:E.
  - apply Byte.to_of_N. exact E.
  - apply Byte.of_N_None_iff in E. lia.
Qed.

Lemma high_bit_value (b : byte) :
  high_bit b = (128 <=? Z.of_N (Byte.to_N b)).
Proof. destruct b; reflexivity. Qed.

Lemma pow128_succ (k : nat) :
  (128 ^ N.of_nat (S k) = 128 * 128 ^ N.of_nat k)%N.
Proof. rewrite Nat2N.inj_succ, N.pow_succ_r'. reflexivity. Qed.

Lemma div128_lt n (k : nat) :
  (n < 128 ^ N.of_nat (S k))%N -> (n / 128 < 128 ^ N.of_nat k)%N.
Proof.
  intros H. rewrite pow128_succ in H.
  apply N.Div0.div_lt_upper_bound. exact H.
Qed.

Lemma encodeVarint_step fuel n :
  encodeVarint_loop (S fuel) n
  = if (n <? 128)%N then [byte_of_unit n]
    else byte_of_unit (128 + n mod 128) :: encodeVarint_loop fuel (n / 128).
Proof. reflexivity. Qed.

Lemma continuation_byte n :
  Byte.to_N (byte_of_unit (128 + n mod 128)) = (128 + n mod 128)%N.
Proof.
  apply byte_of_unit_value.
  pose proof (N.mod_upper_bound n 128 ltac:(lia)). lia.
Qed.

(** The bytes written for [n] are one varint: every byte but the last
    has its high bit set. *)
Lemma encodeVarint_loop_run fuel : forall n rest,
  (n < 128 ^ N.of_nat (S fuel))%N ->
  varint_run (encodeVarint_loop (S fuel) n ++ rest)
  = encodeVarint_loop (S fuel) n.
Proof.
  induction fuel as [| fuel IH]; intros n rest Hn;
    rewrite encodeVarint_step; destruct (n <? 128)%N eqn:Hlt.
  - apply N.ltb_lt in Hlt. cbn [app varint_run].
    rewrite high_bit_value, byte_of_unit_value by lia.
    rewrite (proj2 (Z.leb_gt _ _)) by lia. reflexivity.
  - apply N.ltb_ge in Hlt. cbn in Hn. lia.
  - apply N.ltb_lt in Hlt. cbn [app varint_run].
    rewrite high_bit_value, byte_of_unit_value by lia.
    rewrite (proj2 (Z.leb_gt _ _)) by lia. reflexivity.
  - cbn [app varint_run]. rewrite high_bit_value, continuation_byte.
    rewrite (proj2 (Z.leb_le _ _))
      by (pose proof (N2Z.is_nonneg (n mod 128)); lia).
    rewrite IH by (apply div128_lt; exact Hn). reflexivity.
Qed.

Lemma encodeVarint_loop_sum fuel : forall n i,
  0 <= i -> (n < 128 ^ N.of_nat (S fuel))%N ->
  varint_sum_from i (encodeVarint_loop (S fuel) n) = Z.of_N n * 2 ^ (7 * i).
Proof.
  induction fuel as [| fuel IH]; intros n i Hi Hn;
    rewrite encodeVarint_step; destruct (n <? 128)%N eqn:Hlt.
  - apply N.ltb_lt in Hlt. cbn [varint_sum_from].
    rewrite byte_of_unit_value by lia. rewrite Z.mod_small by lia. lia.
  - apply N.ltb_ge in Hlt. cbn in Hn. lia.
  - apply N.ltb_lt in Hlt. cbn [varint_sum_from].
    rewrite byte_of_unit_value by lia. rewrite Z.mod_small by lia. lia.
  - cbn [varint_sum_from]. rewrite continuation_byte.
    rewrite IH by (try lia; apply div128_lt; exact Hn).
    replace (7 * (i + 1)) with (7 + 7 * i) by lia.
    rewrite Z.pow_add_r by lia.
    rewrite N2Z.inj_add, N2Z.inj_mod, N2Z.inj_div.
    change (Z.of_N 128) with 128.
    pose proof (Z.mod_pos_bound (Z.of_N n) 128 ltac:(lia)) as Hm.
    replace ((128 + Z.of_N n mod 128) mod 128) with (Z.of_N n mod 128).
    + pose proof (Z.div_mod (Z.of_N n) 128 ltac:(lia)) as Hd.
      change (2 ^ 7) with 128.
      remember (Z.of_N n / 128) as q eqn:Hq.
      remember (Z.of_N n mod 128) as m eqn:Hmq. clear Hq Hmq.
      rewrite Hd. ring.
    + replace (128 + Z.of_N n mod 128) with (Z.of_N n mod 128 + 1 * 128)
        by lia.
      rewrite Z.mod_add by lia. rewrite Z.mod_mod by lia. reflexivity.
Qed.

Lemma encodeVarint_loop_length fuel : forall n k,
  (n < 128 ^ N.of_nat (S k))%N ->
  (0 < length (encodeVarint_loop (S fuel) n) <= S k)%nat.
Proof.
  induction fuel as [| fuel IH]; intros n k Hn;
    rewrite encodeVarint_step; destruct (n <? 128)%N eqn:Hlt.
  - cbn [length]. lia.
  - cbn [length encodeVarint_loop]. lia.
  - cbn [length]. lia.
  - cbn [length]. apply N.ltb_ge in Hlt.
    destruct k as [| k]; [ cbn in Hn; lia | ].
    specialize (IH (n / 128)%N k (div128_lt _ _ Hn)). lia.
Qed.

Lemma encodeVarint_fuel n :
  (n < 128 ^ N.of_nat (S (N.to_nat (N.log2 n))))%N.
Proof.
  destruct (N.eq_dec n 0%N) as [-> | Hnz]; [ reflexivity | ].
  pose proof (N.log2_spec n ltac:(lia)) as [_ Hlog].
  rewrite Nat2N.inj_succ, N2Nat.id.
  eapply N.lt_le_trans; [ exact Hlog | ].
  apply N.pow_le_mono_l. lia.
Qed.

Lemma readVarint_encoded (pre rest : list byte) (n : N) :
  (n < 2 ^ 31)%N ->
  readVarint (pre ++ encodeVarint n ++ rest) (len pre)
  = (Z.of_N n, len pre + len (encodeVarint n)).
Proof.
  intros Hn. unfold len.
  rewrite readVarint_run by lia. rewrite Nat2Z.id, drop_app_length.
  unfold encodeVarint.
  rewrite encodeVarint_loop_run by apply encodeVarint_fuel.
  set (e := encodeVarint_loop (S (N.to_nat (N.log2 n))) n).
  assert (varint_sum_from 0 e = Z.of_N n) as Hsum.
  { subst e. rewrite encodeVarint_loop_sum;
      [ cbn; lia | lia | apply encodeVarint_fuel ]. }
  assert ((length e <= 5)%nat) as Hlen.
  { subst e.
    apply (encodeVarint_loop_length _ n 4%nat).
    change (128 ^ N.of_nat 5)%N with (2 ^ 35)%N.
    eapply N.lt_trans; [ exact Hn | reflexivity ]. }
  f_equal.
  change (varint_acc32 0 0 e) with (varint_acc32 0 (7 * 0) e).
  rewrite varint_acc32_sum; [ lia | lia | lia | cbn; lia | ].
  rewrite Hsum. change (2 ^ 31) with (Z.of_N (2 ^ 31)). lia.
Qed.

(** X1: a varint written with 7 bits per byte is read back: for every
    [n] below [2^31], whatever precedes and follows its bytes in the
    buffer, [readVarint] at the first of them returns [n] and the offset
    just after the last. *)
Theorem readVarint_encodeVarint (pre rest : list byte) (n : N) :
  (n < 2 ^ 31)%N ->
  readVarint (pre ++ encodeVarint n ++ rest) (len pre)
  = (Z.of_N n, len pre + len (encodeVarint n)).
Proof. apply readVarint_encoded. Qed.

Lemma readVarint_encodeVarint_witness :
  (300 < 2 ^ 31)%N
  /\ encodeVarint 300 = [xac; x02]
  /\ readVarint ([x02; x02] ++ encodeVarint 300 ++ [x61]) 2 = (300, 4).
Proof.
  split; [ reflexivity | ]. split; [ reflexivity | ].
  exact (readVarint_encodeVarint [x02; x02] [x61] 300 eq_refl).
Defined.

(** ** Termination of the v2 decoder *)

Lemma shortVarints_check (data : Uint8Array) :
  shortVarintsb data = true -> shortVarints data.
Proof.
  intros H p. unfold shortVarintsb in H. rewrite forallb_forall in H.
  destruct (Nat.lt_ge_cases p (length data)) as [Hlt | Hge].
  - apply Nat.leb_le. apply H. apply in_seq. lia.
  - rewrite drop_ge by lia. cbn. lia.
Qed.

Section ShortVarints.

Variable data : Uint8Array.
Hypothesis Hshort : shortVarints data.

(** A varint of at most four bytes is a number from 0 to [2^28 - 1], and
    reading it moves forward. *)
Lemma readVarint_short p :
  0 <= p ->
  0 <= fst (readVarint data p) < 2 ^ 28
  /\ p <= snd (readVarint data p)
  /\ (p < len data -> p < snd (readVarint data p)).
Proof using Hshort.
  intros Hp. rewrite readVarint_run by exact Hp. cbn [fst snd].
  specialize (Hshort (Z.to_nat p)).
  set (run := varint_run (drop (Z.to_nat p) data)) in *.
  pose proof (varint_sum_from_bound run 0 ltac:(lia)) as Hb.
  pose proof (varint_sum_from_nonneg 0 run ltac:(lia)) as Hn.
  assert (2 ^ (7 * (0 + Z.of_nat (length run))) <= 2 ^ 28) as Hpow
    by (apply Z.pow_le_mono_r; lia).
  change (2 ^ (7 * 0)) with 1 in Hb.
  change (varint_acc32 0 0 run) with (varint_acc32 0 (7 * 0) run).
  rewrite varint_acc32_sum by (cbn; lia).
  split; [ lia | ]. split; [ lia | ].
  intros Hlt. destruct (drop_get data p ltac:(lia)) as (b & _ & Hd).
  subst run. rewrite Hd. cbn [varint_run].
  destruct (high_bit b); cbn [length]; lia.
Qed.

Lemma v2_body_progress s s' :
  0 <= pos s < len data ->
  v2_body data s = Continue s' -> pos s < pos s'.
Proof using Hshort.
  intros Hpos. unfold v2_body.
  pose proof (readVarint_short (pos s) ltac:(lia)) as (_ & _ & H1).
  destruct (readVarint data (pos s)) as [ty p1]. cbn [fst snd] in H1.
  destruct (ty =? FIELD_EOS); [ intros [= <-]; cbn [pos]; lia | ].
  pose proof (readVarint_short p1 ltac:(lia)) as (Hv & H2 & _).
  destruct (readVarint data p1) as [n p2]. cbn [fst snd] in Hv, H2.
  destruct (p2 + n >? len data); [ discriminate | ].
  destruct (ty =? FIELD_SIGNATURE); [ discriminate | ].
  intros [= <-]. cbn [pos]. lia.
Qed.

Lemma v2_loop_terminates fuel : forall s,
  0 <= pos s -> len data - pos s < Z.of_nat fuel -> (0 < fuel)%nat ->
  exists cs, v2_loop fuel data s = Some cs.
Proof using Hshort.
  induction fuel as [| fuel IH]; intros s Hpos Hfuel Hnz; [ lia | ].
  cbn [v2_loop]. destruct (pos s <? len data) eqn:Hlt; [ | eauto ].
  apply Z.ltb_lt in Hlt.
  destruct (v2_body data s) as [s' | s'] eqn:Hb; [ | eauto ].
  apply v2_body_progress in Hb; [ | lia ].
  apply IH; lia.
Qed.

End ShortVarints.

(** X2: on a buffer whose varints are all at most four bytes long, the
    v2 decoder returns, after at most [length data] iterations. *)
Theorem extractCaveatsV2_terminates (data : Uint8Array) :
  shortVarints data ->
  exists cs, extractCaveatsV2 (S (length data)) data = Some cs.
Proof.
  intros Hshort. unfold extractCaveatsV2.
  apply v2_loop_terminates; [ exact Hshort | | | ];
    cbn [pos v2_init]; unfold len; lia.
Qed.

Lemma extractCaveatsV2_terminates_witness :
  shortVarints (encodeV2 sampleMacaroon)
  /\ exists cs,
       extractCaveatsV2 (S (length (encodeV2 sampleMacaroon)))
         (encodeV2 sampleMacaroon) = Some cs.
Proof.
  assert (shortVarints (encodeV2 sampleMacaroon)) as H
    by (apply shortVarints_check; vm_compute; reflexivity).
  split; [ exact H | ].
  exact (extractCaveatsV2_terminates (encodeV2 sampleMacaroon) H).
Defined.

(** ** The v2 decoder on an encoded macaroon *)

Lemma get_app (pre l : list byte) (i : nat) :
  get (pre ++ l) (len pre + Z.of_nat i) = l !! i.
Proof.
  unfold get, len, Uint8Array. rewrite (proj2 (Z.ltb_ge _ _)) by lia.
  replace (Z.to_nat (Z.of_nat (length pre) + Z.of_nat i))
    with (length pre + i)%nat by lia.
  rewrite lookup_app_r by lia. f_equal. lia.
Qed.

Lemma bytesToString_loop_slice (pre payload rest : list byte) n : forall i,
  (i + n <= length payload)%nat ->
  bytesToString_loop (pre ++ payload ++ rest) (len pre) (Z.of_nat i) n
  = map Byte.to_N (take n (drop i payload)).
Proof.
  induction n as [| n IH]; intros i Hi; [ reflexivity | ].
  cbn [bytesToString_loop].
  rewrite get_app, lookup_app_l by lia.
  destruct (payload !! i) as [b |] eqn:Hb;
    [ | apply lookup_ge_None in Hb; lia ].
  rewrite (drop_S _ _ _ Hb). cbn [take map fromCharCode]. f_equal.
  replace (Z.of_nat i + 1) with (Z.of_nat (S i)) by lia. apply IH. lia.
Qed.

(** The payload of a field is read as it was written, one code unit
    per byte. *)
Lemma bytesToString_slice (pre payload rest : list byte) :
  bytesToString (pre ++ payload ++ rest) (len pre) (len payload)
  = map Byte.to_N payload.
Proof.
  unfold bytesToString, len at 2. rewrite Nat2Z.id.
  pose proof (bytesToString_loop_slice pre payload rest (length payload) 0
                ltac:(lia)) as H.
  change (Z.of_nat 0) with 0 in H.
  rewrite H, drop_0, take_ge by lia. reflexivity.
Qed.

Lemma encodeVarint_nonempty n : (0 < length (encodeVarint n))%nat.
Proof.
  unfold encodeVarint.
  apply (encodeVarint_loop_length _ n (N.to_nat (N.log2 n))).
  apply encodeVarint_fuel.
Qed.

Lemma len_app (a b : list byte) : len (a ++ b) = len a + len b.
Proof. unfold len. rewrite length_app. lia. Qed.

(** One iteration over an encoded field: both varints are read back,
    the payload is captured when the field is an identifier outside of
    the first section, and the position moves to the end of the field,
    unless the field is the signature. *)
Lemma v2_body_field (pre rest : list byte) (f : V2Field) (s : V2State) :
  fieldType f <> 0%N -> fieldFits f -> pos s = len pre ->
  v2_body (pre ++ encodeField f ++ rest) s
  = let caveats' :=
      caveats s
        ++ (if (Z.of_N (fieldType f) =? FIELD_IDENTIFIER)
               && negb (isFirstSection s)
            then [map Byte.to_N (fieldData f)] else []) in
    if Z.of_N (fieldType f) =? FIELD_SIGNATURE then
      Break (mkV2 caveats'
               (len pre + len (encodeVarint (fieldType f))
                + len (encodeVarint (N.of_nat (length (fieldData f)))))
               (isFirstSection s))
    else
      Continue (mkV2 caveats' (len pre + len (encodeField f))
                  (isFirstSection s)).
Proof.
  intros Hty (Ht & Hl) Hpos. unfold v2_body, encodeField.
  set (eT := encodeVarint (fieldType f)).
  set (eL := encodeVarint (N.of_nat (length (fieldData f)))).
  set (d := fieldData f).
  rewrite Hpos.
  replace (pre ++ (eT ++ eL ++ d) ++ rest)
    with (pre ++ eT ++ (eL ++ d ++ rest))
    by (rewrite <- !app_assoc; reflexivity).
  subst eT. rewrite (readVarint_encoded pre _ _ Ht).
  set (eT := encodeVarint (fieldType f)).
  assert ((Z.of_N (fieldType f) =? FIELD_EOS) = false) as ->.
  { apply Z.eqb_neq. unfold FIELD_EOS. lia. }
  replace (pre ++ eT ++ (eL ++ d ++ rest))
    with ((pre ++ eT) ++ eL ++ (d ++ rest))
    by (rewrite <- !app_assoc; reflexivity).
  rewrite <- len_app. subst eL. rewrite (readVarint_encoded _ _ _ Hl).
  set (eL := encodeVarint (N.of_nat (length (fieldData f)))).
  rewrite <- len_app.
  assert (Z.of_N (N.of_nat (length (fieldData f))) = len d) as ->
    by (unfold len; subst d; lia).
  assert ((len ((pre ++ eT) ++ eL) + len d
           >? len ((pre ++ eT) ++ eL ++ d ++ rest)) = false) as ->.
  { rewrite !len_app.
    destruct (Z.gtb_spec (len pre + len eT + len eL + len d)
                (len pre + len eT + (len eL + (len d + len rest))));
      [ unfold len in *; lia | reflexivity ]. }
  replace ((pre ++ eT) ++ eL ++ d ++ rest)
    with (((pre ++ eT) ++ eL) ++ d ++ rest)
    by (rewrite <- !app_assoc; reflexivity).
  rewrite bytesToString_slice. cbv zeta.
  rewrite !len_app.
  replace (len pre + len eT + len eL + len d)
    with (len pre + (len eT + (len eL + len d))) by lia.
  destruct ((Z.of_N (fieldType f) =? FIELD_IDENTIFIER)
            && negb (isFirstSection s));
    rewrite ?app_nil_r; reflexivity.
Qed.

(** One iteration over an EOS byte. *)
Lemma v2_body_eos_byte (pre rest : list byte) (s : V2State) :
  pos s = len pre ->
  v2_body (pre ++ [x00] ++ rest) s
  = Continue (mkV2 (caveats s) (len pre + 1) false).
Proof.
  intros Hpos. unfold v2_body. rewrite Hpos.
  change [x00] with (encodeVarint 0).
  rewrite (readVarint_encoded pre rest 0 eq_refl). reflexivity.
Qed.

Lemma encodeItem_nonempty t : (0 < length (encodeItem t))%nat.
Proof.
  destruct t as [f |]; cbn [encodeItem length]; [ | lia ].
  unfold encodeField. rewrite length_app.
  pose proof (encodeVarint_nonempty (fieldType f)). lia.
Qed.

(** The loop over a run of items of the buffer. *)
Lemma v2_loop_items (data : Uint8Array) (tail : list byte) ts :
  forall pre s fuel,
    Forall itemOk ts ->
    data = pre ++ concat (map encodeItem ts) ++ tail ->
    pos s = len pre ->
    v2_loop (length ts + fuel) data s
    = v2_loop fuel data
        (mkV2 (caveats s ++ captured (isFirstSection s) ts)
           (len pre + len (concat (map encodeItem ts)))
           (isFirstSection s && forallb (fun t => bool_decide (is_Some t)) ts)).
Proof.
  induction ts as [| t ts IH]; intros pre s fuel Hok Hdata Hpos.
  - cbn [length Nat.add captured map concat forallb].
    rewrite app_nil_r, andb_true_r. unfold len at 2. cbn [length].
    rewrite Z.add_0_r, <- Hpos. destruct s; reflexivity.
  - inversion Hok as [| ? ? Ht Hts]; subst.
    cbn [map concat] in *. cbn [length Nat.add v2_loop].
    set (data := pre ++ (encodeItem t ++ concat (map encodeItem ts)) ++ tail)
      in *.
    assert (data = pre ++ encodeItem t
                     ++ (concat (map encodeItem ts) ++ tail)) as Hd1
      by (subst data; rewrite <- !app_assoc; reflexivity).
    assert (pos s < len data) as Hlt.
    { rewrite Hpos, Hd1, len_app, len_app.
      pose proof (encodeItem_nonempty t). unfold len. lia. }
    rewrite (proj2 (Z.ltb_lt _ _) Hlt).
    assert (exists s1,
               v2_body data s = Continue s1
               /\ pos s1 = len (pre ++ encodeItem t)
               /\ caveats s1 ++ captured (isFirstSection s1) ts
                  = caveats s ++ captured (isFirstSection s) (t :: ts)
               /\ isFirstSection s1
                  = isFirstSection s && bool_decide (is_Some t)) as Hstep.
    { rewrite Hd1. destruct t as [f |]; cbn [encodeItem captured].
      - destruct Ht as ((Hz & H6) & Hfit).
        rewrite (v2_body_field pre _ f s Hz Hfit Hpos). cbv zeta.
        assert ((Z.of_N (fieldType f) =? FIELD_SIGNATURE) = false) as ->.
        { apply Z.eqb_neq. unfold FIELD_SIGNATURE. lia. }
        eexists. split; [ reflexivity | ]. cbn [pos caveats isFirstSection].
        rewrite len_app, <- app_assoc.
        rewrite bool_decide_eq_true_2 by eauto.
        rewrite andb_true_r. auto.
      - rewrite (v2_body_eos_byte pre _ s Hpos).
        eexists. split; [ reflexivity | ]. cbn [pos caveats isFirstSection].
        rewrite len_app.
        rewrite bool_decide_eq_false_2 by (intros [? ?]; discriminate).
        rewrite andb_false_r. auto. }
    destruct Hstep as (s1 & -> & Hp1 & Hc1 & Hf1).
    rewrite (IH (pre ++ encodeItem t) s1 fuel Hts);
      [ | subst data; rewrite <- !app_assoc; reflexivity | exact Hp1 ].
    rewrite Hc1, Hf1. cbn [forallb].
    rewrite !len_app, andb_assoc. f_equal. f_equal. lia.
Qed.

Lemma captured_app first ts1 ts2 :
  captured first (ts1 ++ ts2)
  = captured first ts1
      ++ captured (first && forallb (fun t => bool_decide (is_Some t)) ts1)
           ts2.
Proof.
  revert first. induction ts1 as [| t ts1 IH]; intros first.
  - cbn. rewrite andb_true_r. reflexivity.
  - destruct t as [f |]; cbn [app captured forallb].
    + rewrite IH, <- app_assoc.
      rewrite bool_decide_eq_true_2 by eauto. reflexivity.
    + rewrite IH. rewrite bool_decide_eq_false_2
        by (intros [? ?]; discriminate).
      rewrite andb_false_r. reflexivity.
Qed.

Lemma captured_header fs : captured true (map Some fs) = [].
Proof.
  induction fs as [| f fs IH]; [ reflexivity | ].
  cbn [map captured negb]. rewrite andb_false_r. exact IH.
Qed.

Lemma captured_section fs :
  captured false (map Some fs)
  = map (fun f => map Byte.to_N (fieldData f))
      (filter (fun f => fieldType f = 2%N) fs).
Proof.
  induction fs as [| f fs IH]; [ reflexivity | ].
  cbn [map captured negb]. rewrite andb_true_r, IH, filter_cons.
  unfold FIELD_IDENTIFIER.
  destruct (decide (fieldType f = 2%N)) as [E | E].
  - rewrite E. reflexivity.
  - rewrite (proj2 (Z.eqb_neq _ _)) by lia. reflexivity.
Qed.

Lemma captured_sections secs :
  captured false (concat (map (fun sec => map Some sec ++ [None]) secs))
  = map (fun f => map Byte.to_N (fieldData f))
      (filter (fun f => fieldType f = 2%N) (concat secs)).
Proof.
  induction secs as [| sec secs IH]; [ reflexivity | ].
  cbn [map concat]. rewrite !captured_app, filter_app, map_app.
  cbn [andb]. rewrite captured_section. cbn [captured app].
  rewrite IH, app_nil_r. reflexivity.
Qed.

Lemma captured_itemsOf m : captured true (itemsOf m) = caveatsOf m.
Proof.
  unfold itemsOf, caveatsOf. rewrite captured_app, captured_header.
  cbn [app captured]. rewrite captured_app, captured_sections.
  cbn [andb captured]. rewrite app_nil_r. reflexivity.
Qed.

Lemma encodeItem_fields fs :
  concat (map encodeItem (map Some fs)) = concat (map encodeField fs).
Proof.
  induction fs as [| f fs IH]; [ reflexivity | ].
  cbn [map concat encodeItem]. rewrite IH. reflexivity.
Qed.

Lemma encodeItem_sections secs :
  concat (map encodeItem
            (concat (map (fun sec => map Some sec ++ [None]) secs)))
  = concat (map encodeSection secs).
Proof.
  induction secs as [| sec secs IH]; [ reflexivity | ].
  cbn [map concat]. rewrite !map_app, !concat_app, IH, encodeItem_fields.
  reflexivity.
Qed.

Lemma encodeV2_items m :
  encodeV2 m
  = [x02] ++ concat (map encodeItem (itemsOf m))
      ++ encodeField (mkField 6 (signature m)) ++ [].
Proof.
  unfold encodeV2, itemsOf, encodeSection.
  rewrite !map_app, !concat_app, encodeItem_fields, encodeItem_sections.
  cbn [map concat encodeItem]. rewrite !app_nil_r, <- !app_assoc.
  reflexivity.
Qed.

Lemma items_length ts :
  (length ts <= length (concat (map encodeItem ts)))%nat.
Proof.
  induction ts as [| t ts IH]; [ reflexivity | ].
  cbn [map concat length]. rewrite length_app.
  pose proof (encodeItem_nonempty t). lia.
Qed.

Lemma itemOk_fields fs :
  Forall (fun f => sectionField f /\ fieldFits f) fs ->
  Forall itemOk (map Some fs).
Proof. induction 1; cbn [map]; constructor; auto. Qed.

Lemma itemsOf_ok m : encodable m -> Forall itemOk (itemsOf m).
Proof.
  intros (Hh & Hc & _). unfold itemsOf.
  repeat apply Forall_app_2.
  - apply itemOk_fields. exact Hh.
  - repeat constructor.
  - induction Hc as [| sec secs Hsec _ IH]; [ constructor | ].
    cbn [map concat].
    repeat apply Forall_app_2; [ | repeat constructor | exact IH ].
    apply itemOk_fields. exact Hsec.
  - repeat constructor.
Qed.

Lemma v2_decode_encoded (m : MacaroonV2) :
  encodable m ->
  extractCaveatsV2 (S (length (encodeV2 m))) (encodeV2 m)
  = Some (caveatsOf m).
Proof.
  intros Henc. pose proof (itemsOf_ok m Henc) as Hok.
  destruct Henc as (_ & _ & Hsig).
  pose proof (encodeV2_items m) as Hdata.
  set (data := encodeV2 m) in *.
  set (body := concat (map encodeItem (itemsOf m))) in *.
  set (sig := mkField 6 (signature m)) in *.
  unfold extractCaveatsV2.
  apply (v2_loop_fuel_mono (length (itemsOf m) + 1)).
  - rewrite (v2_loop_items data (encodeField sig ++ []) (itemsOf m)
               [x02] v2_init 1 Hok Hdata eq_refl).
    cbn [caveats isFirstSection v2_init app]. fold body.
    rewrite captured_itemsOf. cbn [v2_loop].
    set (s := mkV2 _ _ _).
    assert (data = ([x02] ++ body) ++ encodeField sig ++ []) as Hd2
      by (rewrite Hdata, <- !app_assoc; reflexivity).
    assert (pos s = len ([x02] ++ body)) as Hpos
      by (subst s; cbn [pos]; rewrite len_app; reflexivity).
    assert (pos s < len data) as Hlt.
    { rewrite Hpos, Hd2, !len_app.
      pose proof (encodeItem_nonempty (Some sig)) as Hne.
      cbn [encodeItem] in Hne. unfold len. lia. }
    rewrite (proj2 (Z.ltb_lt _ _) Hlt), Hd2.
    rewrite (v2_body_field _ [] sig s); [ | discriminate | | exact Hpos ].
    + cbv zeta. subst s. cbn [caveats fieldType sig]. cbn.
      rewrite app_nil_r. reflexivity.
    + split; [ reflexivity | exact Hsig ].
  - pose proof (items_length (itemsOf m)) as Hl. fold body in Hl.
    subst data. rewrite Hdata, !length_app. cbn [length]. lia.
Qed.

(** X3: the v2 decoder reads back what the v2 layout holds: for every
    macaroon whose sections hold neither an EOS nor a signature field
    and whose field types and payload lengths are below [2^31], the
    decoder returns on its encoding, and the result is the list of the
    payloads of the identifier fields of its caveat sections, in order.
    The identifier of the header section is not among them. *)
Theorem extractCaveatsV2_encodeV2 (m : MacaroonV2) :
  encodable m ->
  extractCaveatsV2 (S (length (encodeV2 m))) (encodeV2 m)
  = Some (caveatsOf m).
Proof. apply v2_decode_encoded. Qed.

Lemma extractCaveatsV2_encodeV2_witness :
  encodable sampleMacaroon
  /\ extractCaveatsV2 (S (length (encodeV2 sampleMacaroon)))
       (encodeV2 sampleMacaroon) = Some [str "a=1"].
Proof.
  assert (encodable sampleMacaroon) as H.
  { repeat split; try (repeat constructor; cbn; try discriminate; reflexivity). }
  split; [ exact H | ].
  exact (extractCaveatsV2_encodeV2 sampleMacaroon H).
Defined.

(** ** The v1 decoder: how much it can return *)

Lemma v1_loop_count (data : Uint8Array) fuel : forall s,
  9 * Z.of_nat (length (caveats1 s)) <= pos1 s <= len data ->
  9 * Z.of_nat (length (v1_loop fuel data s)) <= len data.
Proof.
  induction fuel as [| fuel IH]; intros s Hs; cbn [v1_loop]; [ lia | ].
  destruct (pos1 s + 8 <? len data); [ | lia ].
  destruct (v1_body data s) as [s' | s'] eqn:Hb.
  - apply IH. pose proof (v1_body_advance data s s' Hb) as Hadv.
    pose proof (v1_body_cases data s) as Hc. cbv zeta in Hc.
    destruct (parseInt16 (bytesToString data (pos1 s) 4)) as [n |];
      [ | congruence ].
    destruct ((n <? 9) || (pos1 s + n >? len data)); [ congruence | ].
    destruct Hc as (cs' & Hc & Hcs). rewrite Hc in Hb. injection Hb as <-.
    cbn [caveats1 pos1] in *.
    destruct Hcs as [-> | (v & ->)]; rewrite ?length_app; cbn [length]; lia.
  - apply v1_body_break in Hb. subst s'. lia.
Qed.

(** X4: the v1 decoder returns at most one caveat per 9 bytes of the
    buffer; in particular a buffer of fewer than 9 bytes gives none. *)
Theorem extractCaveatsV1_count (data : Uint8Array) :
  (9 * length (extractCaveatsV1 data) <= length data)%nat
  /\ ((length data < 9)%nat -> extractCaveatsV1 data = []).
Proof.
  pose proof (v1_loop_count data (length data) (mkV1 [] 0)) as H.
  cbn [caveats1 pos1 length] in H. unfold len in H.
  fold (extractCaveatsV1 data) in H.
  assert (9 * length (extractCaveatsV1 data) <= length data)%nat as Hc by lia.
  split; [ exact Hc | ].
  intros Hshort. destruct (extractCaveatsV1 data); [ reflexivity | ].
  cbn [length] in Hc. lia.
Qed.

(** ** decodeCaveat *)

Lemma decodeCaveat_loop_none before rest :
  decodeCaveat_loop before rest = None
  <-> forallb (fun c => negb (isComparator c)) rest = true.
Proof.
  revert before. induction rest as [| ch rest IH]; intros before;
    cbn [decodeCaveat_loop forallb]; [ tauto | ].
  destruct (isComparator ch); cbn [negb andb].
  - split; discriminate.
  - apply IH.
Qed.

Lemma decodeCaveat_loop_some before rest c :
  decodeCaveat_loop before rest = Some c
  <-> exists mid after,
        rest = mid ++ [comp c] ++ after
        /\ forallb (fun x => negb (isComparator x)) mid = true
        /\ isComparator (comp c) = true
        /\ condition c = trim (before ++ mid)
        /\ value c = trim after.
Proof.
  revert before. induction rest as [| ch rest IH]; intros before;
    cbn [decodeCaveat_loop].
  - split; [ discriminate | ].
    intros (mid & after & H & _). destruct mid; discriminate.
  - destruct (isComparator ch) eqn:Hch.
    + split.
      * intros [= <-]. exists [], rest. cbn. rewrite app_nil_r. auto.
      * intros (mid & after & Hrest & Hmid & Hc & Hcond & Hval).
        destruct mid as [| m mid].
        -- cbn in Hrest. injection Hrest as -> ->. rewrite app_nil_r in Hcond.
           destruct c; cbn in *. congruence.
        -- cbn in Hrest, Hmid. injection Hrest as -> _.
           rewrite Hch in Hmid. discriminate.
    + rewrite IH. split.
      * intros (mid & after & -> & Hmid & Hc & Hcond & Hval).
        exists (ch :: mid), after. cbn [app forallb]. rewrite Hch.
        rewrite <- app_assoc in Hcond. auto.
      * intros (mid & after & Hrest & Hmid & Hc & Hcond & Hval).
        destruct mid as [| m mid].
        -- cbn in Hrest. injection Hrest as -> _. congruence.
        -- cbn in Hrest, Hmid. injection Hrest as -> ->.
           rewrite Hch in Hmid. exists mid, after.
           rewrite <- app_assoc. auto.
Qed.

(** X5: [decodeCaveat] returns [null] exactly when the string holds none
    of the characters [=], [<] and [>]; otherwise it splits the string
    at the first of them: the comparator is that character, the
    condition is the trimmed text before it (which holds no comparator)
    and the value is the trimmed text after it (which may hold more). *)
Theorem decodeCaveat_split (s : jsstring) :
  (decodeCaveat s = None
   <-> forallb (fun c => negb (isComparator c)) s = true)
  /\ (forall c,
        decodeCaveat s = Some c
        <-> exists before after,
              s = before ++ [comp c] ++ after
              /\ forallb (fun x => negb (isComparator x)) before = true
              /\ isComparator (comp c) = true
              /\ condition c = trim before
              /\ value c = trim after).
Proof.
  split; [ apply decodeCaveat_loop_none | ].
  intros c. apply (decodeCaveat_loop_some [] s c).
Qed.

Lemma trim_trimmed (s : jsstring) : trimmed s -> trim s = s.
Proof.
  intros [Hhead Hlast]. unfold trim.
  assert (dropWhile isWhiteSpace s = s) as ->.
  { destruct s as [| c r]; [ reflexivity | ]. cbn. rewrite Hhead. reflexivity. }
  assert (dropWhile isWhiteSpace (rev s) = rev s) as ->.
  { destruct (rev s) as [| c r]; [ reflexivity | ]. cbn. rewrite Hlast.
    reflexivity. }
  apply rev_involutive.
Qed.

(** X6: a caveat written as condition, comparator, value is decoded
    into these three parts, when the condition holds no comparator and
    neither part starts or ends with white space. *)
Theorem decodeCaveat_written (cond val : jsstring) (op : N) :
  forallb (fun c => negb (isComparator c)) cond = true ->
  isComparator op = true ->
  trimmed cond -> trimmed val ->
  decodeCaveat (cond ++ [op] ++ val) = Some (mkCaveat cond op val).
Proof.
  intros Hcond Hop Htc Htv.
  apply (decodeCaveat_loop_some [] (cond ++ [op] ++ val)).
  exists cond, val. cbn [comp condition value app].
  rewrite !trim_trimmed by assumption. auto.
Qed.

Lemma decodeCaveat_written_witness :
  forallb (fun c => negb (isComparator c)) (str "max_bandwidth") = true
  /\ isComparator 60 = true
  /\ trimmed (str "max_bandwidth") /\ trimmed (str "5000")
  /\ decodeCaveat (str "max_bandwidth<5000")
     = Some (mkCaveat (str "max_bandwidth") 60 (str "5000")).
Proof.
  assert (trimmed (str "max_bandwidth")) as H1 by (split; reflexivity).
  assert (trimmed (str "5000")) as H2 by (split; reflexivity).
  split; [ reflexivity | ]. split; [ reflexivity | ].
  split; [ exact H1 | ]. split; [ exact H2 | ].
  exact (decodeCaveat_written (str "max_bandwidth") (str "5000") 60
           eq_refl eq_refl H1 H2).
Defined.

(** ** The aggregators over appended caveats *)

(** X7: caveats appended to a macaroon override a constraint only when
    one of them carries its condition: the aggregate over [cs1 ++ cs2]
    is the aggregate over [cs2] when [cs2] holds a caveat of the
    condition, and the aggregate over [cs1] otherwise. Caveats of other
    conditions and strings that are no caveats never matter. *)
Theorem aggregate_app (StringToNumber : jsstring -> float)
    (cond : jsstring) (cs1 cs2 : list jsstring) :
  aggregate StringToNumber cond (cs1 ++ cs2)
  = match matchingCaveats cond cs2 with
    | [] => aggregate StringToNumber cond cs1
    | _ :: _ => aggregate StringToNumber cond cs2
    end.
Proof.
  rewrite !aggregate_lastWins. unfold lastWins.
  rewrite matchingCaveats_app, last_app.
  destruct (matchingCaveats cond cs2) as [| c r] eqn:E; [ reflexivity | ].
  destruct (last (c :: r)) eqn:El; [ reflexivity | ].
  apply last_None in El. discriminate.
Qed.

Lemma orZero_not_nan x : PrimFloat.is_nan (orZero x) = false.
Proof.
  unfold orZero, truthy.
  destruct (PrimFloat.is_nan x) eqn:E; cbn [negb andb]; [ reflexivity | ].
  destruct (negb (PrimFloat.eqb x 0)); [ exact E | reflexivity ].
Qed.

(** X8: the two aggregators never return [NaN], whatever [Number] makes
    of the caveat values, and never a zero other than [+0]: a value that
    is not a number counts as 0. *)
Theorem aggregators_not_nan (StringToNumber : jsstring -> float)
    (fuel : nat) (s : jsstring) :
  (forall x, getMaxBandwidthFromMacaroon StringToNumber fuel s = Some x ->
     PrimFloat.is_nan x = false
     /\ (PrimFloat.eqb x 0 = true -> x = 0%float))
  /\ (forall x, getExpirationFromMacaroon StringToNumber fuel s = Some x ->
        PrimFloat.is_nan x = false
        /\ (PrimFloat.eqb x 0 = true -> x = 0%float)).
Proof.
  assert (forall cond cs x,
            aggregate StringToNumber cond cs = x ->
            PrimFloat.is_nan x = false
            /\ (PrimFloat.eqb x 0 = true -> x = 0%float)) as Hagg.
  { intros cond cs x <-. rewrite aggregate_lastWins. unfold lastWins.
    destruct (last (matchingCaveats cond cs)) as [cav |];
      [ | split; reflexivity ].
    split; [ apply orZero_not_nan | ].
    unfold orZero, truthy.
    destruct (PrimFloat.is_nan (StringToNumber (value cav)));
      cbn [negb andb]; [ reflexivity | ].
    destruct (PrimFloat.eqb (StringToNumber (value cav)) 0) eqn:E;
      cbn [negb]; [ reflexivity | ].
    rewrite E. discriminate. }
  unfold getMaxBandwidthFromMacaroon, getExpirationFromMacaroon.
  destruct (extractCaveatsFromMacaroon fuel s) as [cs |].
  - split; intros x [= <-]; eapply Hagg; reflexivity.
  - split; intros x; discriminate.
Qed.

(** ** parseL402Credential *)

Lemma indexOf_app_first (c : N) (a b : jsstring) :
  indexOf c a = None -> indexOf c (a ++ c :: b) = Some (length a).
Proof.
  induction a as [| x a IH]; cbn [app indexOf length]; intros H.
  - rewrite N.eqb_refl. reflexivity.
  - destruct (x =? c)%N; [ discriminate | ].
    destruct (indexOf c a); [ discriminate | ].
    rewrite IH by reflexivity. reflexivity.
Qed.

Lemma credential_macaroon (mac preimage : jsstring) :
  indexOf 58 mac = None ->
  match indexOf 58 (mac ++ [58%N] ++ preimage) with
  | Some colonIdx => take colonIdx (mac ++ [58%N] ++ preimage)
  | None => mac ++ [58%N] ++ preimage
  end = mac.
Proof.
  intros H. cbn [app]. rewrite (indexOf_app_first 58 mac preimage H).
  apply take_app_length.
Qed.

(** X9: the preimage is not read: a credential [macaroon:preimage]
    whose macaroon part holds no colon gives the constraints of the bare
    macaroon, whatever the preimage is. *)
Theorem parseL402Credential_preimage (StringToNumber : jsstring -> float)
    (fuel : nat) (mac preimage : jsstring) :
  indexOf 58 mac = None ->
  parseL402Credential StringToNumber fuel (mac ++ [58%N] ++ preimage)
  = parseL402Credential StringToNumber fuel mac.
Proof.
  intros H. unfold parseL402Credential.
  rewrite (credential_macaroon mac preimage H), H. reflexivity.
Qed.

Lemma parseL402Credential_preimage_witness :
  indexOf 58 sampleBandwidthMacaroon = None
  /\ parseL402Credential decimalToNumber 50
       (sampleBandwidthMacaroon ++ [58%N] ++ str "00ff")
     = parseL402Credential decimalToNumber 50 sampleBandwidthMacaroon.
Proof.
  assert (indexOf 58 sampleBandwidthMacaroon = None) as H
    by (vm_compute; reflexivity).
  split; [ exact H | ].
  exact (parseL402Credential_preimage decimalToNumber 50
           sampleBandwidthMacaroon (str "00ff") H).
Defined.

(** X10: a credential made of the macaroon of a parsed challenge and
    any preimage has the constraints of that challenge, when the
    macaroon holds no colon (base64 has none). *)
Theorem parseL402Credential_of_challenge
    (StringToNumber : jsstring -> float) (fuel : nat)
    (header preimage : jsstring) (c : L402Challenge) :
  parseL402Challenge StringToNumber fuel header = Some (Some c) ->
  indexOf 58 (macaroon c) = None ->
  parseL402Credential StringToNumber fuel
    (macaroon c ++ [58%N] ++ preimage)
  = Some (mkConstraints (maxBandwidth c) (expiry c)).
Proof.
  intros Hparse Hcolon. unfold parseL402Credential.
  rewrite (credential_macaroon (macaroon c) preimage Hcolon).
  unfold parseL402Challenge in Hparse.
  destruct (scanChallenge header) as [mac inv].
  destruct (str_eqb mac [] || str_eqb inv []); [ discriminate | ].
  destruct (getMaxBandwidthFromMacaroon StringToNumber fuel mac) as [b |] eqn:Hb;
    [ | discriminate ].
  destruct (getExpirationFromMacaroon StringToNumber fuel mac) as [e |] eqn:He;
    [ | discriminate ].
  injection Hparse as <-. cbn [macaroon maxBandwidth expiry].
  rewrite Hb, He. reflexivity.
Qed.

Lemma parseL402Credential_of_challenge_witness :
  parseL402Challenge decimalToNumber 50
    (str "L402 macaroon=" ++ dquote ++ sampleBandwidthMacaroon ++ dquote
       ++ str ", invoice=" ++ dquote ++ str "lnbc1" ++ dquote)
  = Some (Some (mkChallenge sampleBandwidthMacaroon (str "lnbc1") 250 0))
  /\ parseL402Credential decimalToNumber 50
       (sampleBandwidthMacaroon ++ [58%N] ++ str "00ff")
     = Some (mkConstraints 250 0).
Proof.
  assert (parseL402Challenge decimalToNumber 50
            (str "L402 macaroon=" ++ dquote ++ sampleBandwidthMacaroon
               ++ dquote ++ str ", invoice=" ++ dquote ++ str "lnbc1"
               ++ dquote)
          = Some (Some (mkChallenge sampleBandwidthMacaroon (str "lnbc1")
                          250 0))) as H by (vm_compute; reflexivity).
  split; [ exact H | ].
  refine (parseL402Credential_of_challenge decimalToNumber 50 _ (str "00ff")
            _ H _).
  vm_compute. reflexivity.
Defined.

(** ** applyL402Header: what it changes *)

(** X11: [applyL402Header] changes nothing but the [Authorization]
    header: for every context, token and time, the other fields of the
    context and every other header are as before, and a headers object
    that was there is still there. *)
Theorem applyL402Header_frame {LoaderFields : Type} (now : float)
    (context : LoaderContext LoaderFields) (token : option L402Token) :
  let result := applyL402Header now context token in
  fields result = fields context
  /\ (forall k, k <> str "Authorization" ->
        default ∅ (headers result) !! k = default ∅ (headers context) !! k)
  /\ (is_Some (headers context) -> is_Some (headers result)).
Proof.
  cbv zeta. unfold applyL402Header.
  destruct token as [t |]; [ | auto ].
  destruct (negb (str_eqb (credential t) [])); [ | auto ].
  destruct (expired now (tokenExpiry t)); [ auto | ].
  cbn [fields headers]. split; [ reflexivity | ]. split; [ | eauto ].
  intros k Hk. unfold default. cbn [from_option id].
  rewrite lookup_insert_ne by congruence.
  destruct (headers context); reflexivity.
Qed.

(** X12: [applyL402Header] is idempotent: a second call with the same
    token at the same time changes nothing more. *)
Theorem applyL402Header_idempotent {LoaderFields : Type} (now : float)
    (context : LoaderContext LoaderFields) (token : option L402Token) :
  applyL402Header now (applyL402Header now context token) token
  = applyL402Header now context token.
Proof.
  unfold applyL402Header.
  destruct token as [t |]; [ | reflexivity ].
  destruct (negb (str_eqb (credential t) [])); [ | reflexivity ].
  destruct (expired now (tokenExpiry t)); [ reflexivity | ].
  cbn [fields headers]. rewrite insert_insert_eq. reflexivity.
Qed.

(** X13: with a credential that is not empty and an expiry that is
    absent, or not before the current time, the call sets the
    [Authorization] header to [L402 <credential>], replacing a previous
    value, and creates the headers object when there was none. *)
Theorem applyL402Header_valid {LoaderFields : Type} (now : float)
    (context : LoaderContext LoaderFields) (token : L402Token) :
  credential token <> [] ->
  (tokenExpiry token = None
   \/ exists e, tokenExpiry token = Some e /\ PrimFloat.ltb e now = false) ->
  exists h,
    headers (applyL402Header now context (Some token)) = Some h
    /\ h !! str "Authorization" = Some (str "L402 " ++ credential token).
Proof.
  intros Hcred Hexp. unfold applyL402Header.
  assert (str_eqb (credential token) [] = false) as ->
    by (apply bool_decide_eq_false; exact Hcred).
  assert (expired now (tokenExpiry token) = false) as ->.
  { unfold expired. destruct Hexp as [-> | (e & -> & He)]; [ reflexivity | ].
    rewrite He. apply andb_false_r. }
  cbn [negb headers]. eexists. split; [ reflexivity | ].
  apply lookup_insert_eq.
Qed.

Lemma applyL402Header_valid_witness :
  credential freshToken <> []
  /\ PrimFloat.ltb 1700000000001%float sampleNow = false
  /\ exists h,
       headers (applyL402Header sampleNow authorizedContext (Some freshToken))
       = Some h
       /\ h !! str "Authorization" = Some (str "L402 AAA=:00ff").
Proof.
  assert (credential freshToken <> []) as H1 by discriminate.
  split; [ exact H1 | ]. split; [ reflexivity | ].
  refine (applyL402Header_valid sampleNow authorizedContext freshToken H1 _).
  right. exists 1700000000001%float. split; reflexivity.
Defined.

(** ** base64ToBytes: alphabets and padding *)

Lemma replaceAll_url_unit (c : N) :
  (let u := if (c =? 43) then 45 else c in
   let u := if (u =? 47) then 95 else u in
   let u := if (u =? 45) then 43 else u in
   if (u =? 95) then 47 else u)%N
  = (let u := if (c =? 45) then 43 else c in
     if (u =? 95) then 47 else u)%N.
Proof.
  cbv zeta.
  destruct (N.eqb_spec c 43) as [-> | H43]; [ reflexivity | ].
  destruct (N.eqb_spec c 47) as [-> | H47]; [ reflexivity | ].
  destruct (N.eqb_spec c 45) as [-> | H45]; [ reflexivity | ].
  destruct (N.eqb_spec c 95) as [-> | H95]; reflexivity.
Qed.

Lemma replaceAll_url (s : jsstring) :
  replaceAll 95 47 (replaceAll 45 43 (toBase64Url s))
  = replaceAll 95 47 (replaceAll 45 43 s).
Proof.
  unfold toBase64Url, replaceAll. rewrite !map_map.
  apply map_ext. intros c. apply (replaceAll_url_unit c).
Qed.

(** X14: the two alphabets decode alike: writing [-] for [+] and [_]
    for [/] in any string changes neither the bytes decoded nor whether
    the decoding throws. *)
Theorem base64ToBytes_url (s : jsstring) :
  base64ToBytes (toBase64Url s) = base64ToBytes s.
Proof. unfold base64ToBytes. rewrite replaceAll_url. reflexivity. Qed.

Lemma pad_length (n : nat) : ((n + (4 - n mod 4) mod 4) mod 4 = 0)%nat.
Proof.
  pose proof (Nat.mod_upper_bound n 4 ltac:(lia)) as Hr.
  pose proof (Nat.div_mod_eq n 4) as Hn.
  remember (n mod 4)%nat as r eqn:Er. remember (n / 4)%nat as q eqn:Eq.
  clear Er Eq. subst n.
  destruct r as [| [| [| [| r]]]]; try lia; cbn [Nat.sub].
  - change (4 mod 4)%nat with 0%nat. rewrite !Nat.add_0_r.
    rewrite Nat.mul_comm. apply Nat.Div0.mod_mul.
  - change (3 mod 4)%nat with 3%nat.
    replace (4 * q + 1 + 3)%nat with ((q + 1) * 4)%nat by lia.
    apply Nat.Div0.mod_mul.
  - change (2 mod 4)%nat with 2%nat.
    replace (4 * q + 2 + 2)%nat with ((q + 1) * 4)%nat by lia.
    apply Nat.Div0.mod_mul.
  - change (1 mod 4)%nat with 1%nat.
    replace (4 * q + 3 + 1)%nat with ((q + 1) * 4)%nat by lia.
    apply Nat.Div0.mod_mul.
Qed.

Lemma padTo4_idempotent (s : jsstring) : padTo4 (padTo4 s) = padTo4 s.
Proof.
  unfold padTo4 at 1.
  assert (length (padTo4 s) mod 4 = 0)%nat as ->.
  { unfold padTo4. rewrite length_app, repeat_length. apply pad_length. }
  cbn. apply app_nil_r.
Qed.

Lemma replaceAll_padTo4 (a b : N) (s : jsstring) :
  a <> 61%N -> replaceAll a b (padTo4 s) = padTo4 (replaceAll a b s).
Proof.
  intros Ha. unfold padTo4, replaceAll. rewrite map_app, length_map.
  f_equal. induction ((4 - length s mod 4) mod 4)%nat as [| k IH];
    [ reflexivity | ].
  cbn [repeat map]. rewrite IH.
  rewrite (proj2 (N.eqb_neq 61 a)) by congruence. reflexivity.
Qed.

Lemma base64ToBytes_padTo4 (s : jsstring) :
  base64ToBytes (padTo4 s) = base64ToBytes s.
Proof.
  unfold base64ToBytes.
  rewrite !replaceAll_padTo4 by discriminate.
  rewrite padTo4_idempotent. reflexivity.
Qed.

(** X15: padding is optional: a string and the same string filled up
    with [=] to a multiple of four characters decode alike. *)
Theorem base64ToBytes_padding (s : jsstring) :
  base64ToBytes (padTo4 s) = base64ToBytes s.
Proof. apply base64ToBytes_padTo4. Qed.

(** ** base64 written and read back *)

Lemma list_ind3 {A} (P : list A -> Prop) :
  P [] -> (forall x, P [x]) -> (forall x y, P [x; y]) ->
  (forall x y z r, P r -> P (x :: y :: z :: r)) ->
  forall l, P l.
Proof.
  intros H0 H1 H2 H3 l.
  assert (P l /\ (forall x, P (x :: l)) /\ (forall x y, P (x :: y :: l)))
    as (H & _ & _); [ | exact H ].
  induction l as [| a l (IH0 & IH1 & IH2)]; [ auto | ].
  split; [ exact (IH1 a) | ]. split; [ intros x; exact (IH2 x a) | ].
  intros x y. apply H3. exact IH0.
Qed.

Lemma b64Value_b64Char v : (v < 64)%N -> b64Value (b64Char v) = Some v.
Proof.
  intros Hv.
  pose proof (units_below
    (fun v => match b64Value (b64Char v) with
              | Some w => (w =? v)%N
              | None => false
              end) 64 ltac:(vm_compute; reflexivity) v Hv) as H.
  cbv beta in H. destruct (b64Value (b64Char v)) as [w |]; [ | discriminate ].
  apply N.eqb_eq in H. congruence.
Qed.

Lemma b64Char_plain v :
  (v < 64)%N ->
  isAsciiWhitespace (b64Char v) = false
  /\ b64Char v <> 61%N /\ b64Char v <> 45%N /\ b64Char v <> 95%N.
Proof.
  intros Hv.
  pose proof (units_below
    (fun v => negb (isAsciiWhitespace (b64Char v))
              && negb (b64Char v =? 61)%N && negb (b64Char v =? 45)%N
              && negb (b64Char v =? 95)%N) 64
    ltac:(vm_compute; reflexivity) v Hv) as H.
  cbv beta in H.
  apply andb_true_iff in H as [H H4]. apply andb_true_iff in H as [H H3].
  apply andb_true_iff in H as [H1 H2].
  apply negb_true_iff in H1, H2, H3, H4.
  apply N.eqb_neq in H2, H3, H4. auto.
Qed.

Lemma sextets_below bs :
  Forall (fun b => (b < 256)%N) bs -> Forall (fun v => (v < 64)%N) (sextets bs).
Proof.
  induction bs as [| x | x y | x y z r IH] using list_ind3; intros H;
    cbn [sextets].
  - constructor.
  - inversion H as [| ? ? Hx _]; subst.
    repeat constructor; zify; Z.to_euclidean_division_equations; lia.
  - inversion H as [| ? ? Hx H']; subst.
    inversion H' as [| ? ? Hy _]; subst.
    repeat constructor; zify; Z.to_euclidean_division_equations; lia.
  - inversion H as [| ? ? Hx H']; subst.
    inversion H' as [| ? ? Hy H'']; subst.
    inversion H'' as [| ? ? Hz Hr]; subst.
    repeat (constructor;
            [ zify; Z.to_euclidean_division_equations; lia | ]).
    apply IH. exact Hr.
Qed.

Lemma b64Bytes_sextets bs : forall fuel,
  Forall (fun b => (b < 256)%N) bs ->
  (length (sextets bs) <= fuel)%nat ->
  b64Bytes fuel (sextets bs) = bs.
Proof.
  induction bs as [| x | x y | x y z r IH] using list_ind3;
    intros fuel H Hfuel; cbn [sextets length] in *.
  - destruct fuel; reflexivity.
  - destruct fuel as [| fuel]; [ lia | ]. cbn [b64Bytes].
    inversion H as [| ? ? Hx _]; subst. f_equal.
    zify; Z.to_euclidean_division_equations; lia.
  - destruct fuel as [| fuel]; [ lia | ]. cbn [b64Bytes].
    inversion H as [| ? ? Hx H']; subst.
    inversion H' as [| ? ? Hy _]; subst.
    f_equal; [ | f_equal ]; zify; Z.to_euclidean_division_equations; lia.
  - destruct fuel as [| fuel]; [ lia | ]. cbn [b64Bytes].
    inversion H as [| ? ? Hx H']; subst.
    inversion H' as [| ? ? Hy H'']; subst.
    inversion H'' as [| ? ? Hz Hr]; subst.
    rewrite IH by (try assumption; lia).
    f_equal; [ | f_equal; [ | f_equal ] ];
      zify; Z.to_euclidean_division_equations; lia.
Qed.

(** Three bytes give four characters; one or two bytes left over give
    two or three. *)
Lemma sextets_length bs :
  exists q,
    (length bs = 0 + q * 3 /\ length (sextets bs) = 0 + q * 4)%nat
    \/ (length bs = 1 + q * 3 /\ length (sextets bs) = 2 + q * 4)%nat
    \/ (length bs = 2 + q * 3 /\ length (sextets bs) = 3 + q * 4)%nat.
Proof.
  induction bs as [| x | x y | x y z r (q & IH)] using list_ind3;
    cbn [sextets length].
  - exists 0%nat. left. split; reflexivity.
  - exists 0%nat. right. left. split; reflexivity.
  - exists 0%nat. right. right. split; reflexivity.
  - exists (S q). lia.
Qed.

Lemma stripPadding_body (body : jsstring) (k : nat) :
  (k <= 2)%nat ->
  match rev body with c :: _ => c <> 61%N | [] => True end ->
  stripPadding (body ++ repeat 61%N k) = body.
Proof.
  intros Hk Hlast. unfold stripPadding. rewrite rev_app_distr.
  assert (rev (repeat 61%N k) = repeat 61%N k) as ->.
  { clear. induction k as [| k IH]; [ reflexivity | ].
    cbn [repeat rev]. rewrite IH. symmetry. apply repeat_cons. }
  destruct k as [| [| [| k]]]; [ | | | lia ]; cbn [repeat app].
  - rewrite app_nil_r. destruct (rev body) as [| c r] eqn:E; [ reflexivity | ].
    destruct c as [| p]; [ reflexivity | ].
    do 6 (destruct p as [p | p |]; try reflexivity). congruence.
  - destruct (rev body) as [| c r] eqn:E.
    + apply (f_equal (@rev N)) in E. rewrite rev_involutive in E. subst body.
      reflexivity.
    + rewrite <- (rev_involutive body), E.
      destruct c as [| p]; [ reflexivity | ].
      do 6 (destruct p as [p | p |]; try reflexivity). congruence.
  - rewrite <- (rev_involutive body) at 2. reflexivity.
Qed.

Lemma filter_plain (l : jsstring) :
  Forall (fun c => isAsciiWhitespace c = false) l ->
  filter (fun c => negb (isAsciiWhitespace c)) l = l.
Proof.
  unfold jsstring.
  induction 1 as [| c l Hc _ IH]; [ reflexivity | ].
  rewrite filter_cons, IH. rewrite Hc. reflexivity.
Qed.

Lemma replaceAll_absent (a b : N) (l : jsstring) :
  Forall (fun c => c <> a) l -> replaceAll a b l = l.
Proof.
  unfold replaceAll. induction 1 as [| c l Hc _ IH]; [ reflexivity | ].
  cbn [map]. rewrite IH, (proj2 (N.eqb_neq c a)) by exact Hc. reflexivity.
Qed.

Lemma b64Values_chars vs :
  Forall (fun v => (v < 64)%N) vs -> b64Values (map b64Char vs) = Some vs.
Proof.
  induction 1 as [| v vs Hv _ IH]; [ reflexivity | ].
  cbn [map b64Values]. rewrite b64Value_b64Char, IH by exact Hv. reflexivity.
Qed.

Lemma byte_of_unit_to_N (b : byte) : byte_of_unit (Byte.to_N b) = b.
Proof. destruct b; reflexivity. Qed.

Lemma to_N_below (bytes : list byte) :
  Forall (fun b => (b < 256)%N) (map Byte.to_N bytes).
Proof.
  induction bytes as [| b bytes IH]; constructor; [ | exact IH ].
  pose proof (byte_range b). lia.
Qed.

Section Base64RoundTrip.

Variable bytes : list byte.

Let vs := sextets (map Byte.to_N bytes).
Let body := encodeBase64Unpadded bytes.
Let k := ((3 - length bytes mod 3) mod 3)%nat.

Lemma vs_below : Forall (fun v => (v < 64)%N) vs.
Proof. apply sextets_below, to_N_below. Qed.

Lemma body_plain :
  Forall (fun c => isAsciiWhitespace c = false /\ c <> 61%N
                   /\ c <> 45%N /\ c <> 95%N) body.
Proof.
  subst body. unfold encodeBase64Unpadded. fold vs.
  pose proof vs_below as H. induction H as [| v l Hv _ IH]; cbn [map];
    constructor; [ apply b64Char_plain; exact Hv | exact IH ].
Qed.

Lemma encoded_lengths :
  (k <= 2)%nat
  /\ (length (body ++ repeat 61%N k) mod 4 = 0)%nat
  /\ (length body mod 4 <> 1)%nat
  /\ k = ((4 - length body mod 4) mod 4)%nat.
Proof.
  subst k body. unfold encodeBase64Unpadded. fold vs.
  rewrite length_app, repeat_length, !length_map.
  destruct (sextets_length (map Byte.to_N bytes)) as (q & Hq).
  fold vs in Hq. rewrite length_map in Hq.
  destruct Hq as [(Hb & Hv) | [(Hb & Hv) | (Hb & Hv)]];
    rewrite Hb, Hv, !Nat.Div0.mod_add.
  - change (0 mod 3)%nat with 0%nat. change (0 mod 4)%nat with 0%nat.
    change ((3 - 0) mod 3)%nat with 0%nat.
    change ((4 - 0) mod 4)%nat with 0%nat.
    rewrite Nat.add_0_r, Nat.Div0.mod_add. repeat split; lia.
  - change (1 mod 3)%nat with 1%nat. change (2 mod 4)%nat with 2%nat.
    change ((3 - 1) mod 3)%nat with 2%nat.
    change ((4 - 2) mod 4)%nat with 2%nat.
    replace (2 + q * 4 + 2)%nat with (0 + (q + 1) * 4)%nat by lia.
    rewrite Nat.Div0.mod_add. repeat split; lia.
  - change (2 mod 3)%nat with 2%nat. change (3 mod 4)%nat with 3%nat.
    change ((3 - 2) mod 3)%nat with 1%nat.
    change ((4 - 3) mod 4)%nat with 1%nat.
    replace (3 + q * 4 + 1)%nat with (0 + (q + 1) * 4)%nat by lia.
    rewrite Nat.Div0.mod_add. repeat split; lia.
Qed.

Lemma atob_encoded :
  atob (body ++ repeat 61%N k) = Normal (map Byte.to_N bytes).
Proof.
  destruct encoded_lengths as (Hk & Hlen & Hbody & _).
  pose proof body_plain as Hplain. unfold atob.
  rewrite filter_plain.
  2:{ apply Forall_app_2.
      - eapply Forall_impl; [ exact Hplain | ]. cbv beta. tauto.
      - generalize k. intros n.
        induction n as [| n IHn]; constructor; [ reflexivity | exact IHn ]. }
  rewrite Hlen. cbn [Nat.eqb].
  rewrite stripPadding_body; [ | exact Hk | ].
  2:{ destruct (rev body) as [| c r] eqn:E; [ exact I | ].
      assert (c ∈ body) as Hin.
      { apply list_elem_of_In, in_rev. rewrite E. left. reflexivity. }
      rewrite Forall_forall in Hplain. apply Hplain in Hin. tauto. }
  destruct (length body mod 4 =? 1)%nat eqn:E1;
    [ apply Nat.eqb_eq in E1; contradiction | ].
  subst body. unfold encodeBase64Unpadded. fold vs.
  rewrite (b64Values_chars vs vs_below).
  subst vs. rewrite b64Bytes_sextets; [ reflexivity | apply to_N_below | lia ].
Qed.

Lemma encodeBase64_decoded : base64ToBytes (encodeBase64 bytes) = Normal bytes.
Proof.
  destruct encoded_lengths as (_ & Hlen & _ & _).
  pose proof body_plain as Hplain.
  unfold base64ToBytes, encodeBase64. fold body k.
  assert (Forall (fun c => c <> 45%N /\ c <> 95%N) (body ++ repeat 61%N k))
    as Hno.
  { apply Forall_app_2.
    - eapply Forall_impl; [ exact Hplain | ]. cbv beta. tauto.
    - generalize k. intros n.
      induction n as [| n IHn]; constructor; [ split; discriminate | exact IHn ]. }
  rewrite (replaceAll_absent 45 43 (body ++ repeat 61%N k))
    by (eapply Forall_impl; [ exact Hno | ]; cbv beta; tauto).
  rewrite (replaceAll_absent 95 47 (body ++ repeat 61%N k))
    by (eapply Forall_impl; [ exact Hno | ]; cbv beta; tauto).
  unfold padTo4. rewrite Hlen. cbn [Nat.sub Nat.modulo repeat].
  change (4 mod 4)%nat with 0%nat. cbn [repeat]. rewrite app_nil_r.
  rewrite atob_encoded, map_map.
  f_equal. rewrite <- (map_id bytes) at 2. apply map_ext.
  apply byte_of_unit_to_N.
Qed.

Lemma encodeBase64_padTo4 : padTo4 body = encodeBase64 bytes.
Proof.
  destruct encoded_lengths as (_ & _ & _ & Hk).
  unfold padTo4, encodeBase64. fold body k. rewrite <- Hk. reflexivity.
Qed.

End Base64RoundTrip.

Lemma base64_variants (bytes : list byte) :
  base64ToBytes (encodeBase64 bytes) = Normal bytes
  /\ base64ToBytes (encodeBase64Unpadded bytes) = Normal bytes
  /\ base64ToBytes (toBase64Url (encodeBase64 bytes)) = Normal bytes
  /\ base64ToBytes (toBase64Url (encodeBase64Unpadded bytes)) = Normal bytes.
Proof.
  assert (base64ToBytes (encodeBase64Unpadded bytes) = Normal bytes) as Hu.
  { rewrite <- base64ToBytes_padTo4, encodeBase64_padTo4.
    apply encodeBase64_decoded. }
  unfold base64ToBytes at 3 4. rewrite !replaceAll_url.
  fold (base64ToBytes (encodeBase64 bytes)).
  fold (base64ToBytes (encodeBase64Unpadded bytes)).
  rewrite Hu, encodeBase64_decoded. auto.
Qed.

(** X16: base64 text is read back: for every byte sequence, its base64
    encoding decodes to these bytes, with or without the [=] padding
    and in the standard as in the URL-safe alphabet. *)
Theorem base64ToBytes_encodeBase64 (bytes : list byte) :
  base64ToBytes (encodeBase64 bytes) = Normal bytes
  /\ base64ToBytes (encodeBase64Unpadded bytes) = Normal bytes
  /\ base64ToBytes (toBase64Url (encodeBase64 bytes)) = Normal bytes
  /\ base64ToBytes (toBase64Url (encodeBase64Unpadded bytes)) = Normal bytes.
Proof. apply base64_variants. Qed.

(** ** From the base64 text to the constraints *)

Lemma encodeV2_head m :
  exists rest, encodeV2 m = x02 :: rest /\ rest <> [].
Proof.
  rewrite encodeV2_items. cbn [app]. eexists. split; [ reflexivity | ].
  pose proof (encodeItem_nonempty (Some (mkField 6 (signature m)))) as H.
  cbn [encodeItem] in H. intros E. apply (f_equal (@length byte)) in E.
  rewrite !length_app in E. cbn [length] in E. lia.
Qed.

Lemma extractCaveats_of_bytes fuel s data :
  base64ToBytes s = Normal data -> 2 <= len data ->
  int_of_read (get data 0) = 2 ->
  extractCaveatsFromMacaroon fuel s = extractCaveatsV2 fuel data.
Proof.
  intros Hs Hl H2. unfold extractCaveatsFromMacaroon, extractCaveats_try.
  rewrite Hs, (proj2 (Z.ltb_ge _ _) Hl), H2. reflexivity.
Qed.

(** X17: a v2 macaroon in base64 is decoded end to end: for every
    macaroon that can be encoded, in standard padded base64 as in
    URL-safe base64 without padding, [extractCaveatsFromMacaroon]
    returns the identifiers of its caveat sections in order, and the two
    aggregators return the value of the last caveat of their
    condition. *)
Theorem extractCaveatsFromMacaroon_encoded
    (StringToNumber : jsstring -> float) (m : MacaroonV2) (s : jsstring) :
  encodable m ->
  s = encodeBase64 (encodeV2 m)
  \/ s = toBase64Url (encodeBase64Unpadded (encodeV2 m)) ->
  let fuel := S (length (encodeV2 m)) in
  extractCaveatsFromMacaroon fuel s = Some (caveatsOf m)
  /\ getMaxBandwidthFromMacaroon StringToNumber fuel s
     = Some (lastWins StringToNumber MAX_BANDWIDTH_CONDITION (caveatsOf m))
  /\ getExpirationFromMacaroon StringToNumber fuel s
     = Some (lastWins StringToNumber EXPIRATION_CONDITION (caveatsOf m)).
Proof.
  intros Henc Hs fuel.
  assert (base64ToBytes s = Normal (encodeV2 m)) as Hb.
  { destruct (base64_variants (encodeV2 m)) as (H1 & _ & _ & H4).
    destruct Hs as [-> | ->]; assumption. }
  assert (extractCaveatsFromMacaroon fuel s = Some (caveatsOf m)) as Hx.
  { destruct (encodeV2_head m) as (rest & Hd & Hne).
    rewrite (extractCaveats_of_bytes fuel s (encodeV2 m) Hb).
    - apply v2_decode_encoded. exact Henc.
    - rewrite Hd. unfold len. destruct rest; [ contradiction | ].
      cbn [length]. lia.
    - rewrite Hd. reflexivity. }
  unfold getMaxBandwidthFromMacaroon, getExpirationFromMacaroon.
  rewrite Hx, !aggregate_lastWins. auto.
Qed.

Lemma extractCaveatsFromMacaroon_encoded_witness :
  encodable sampleMacaroon
  /\ extractCaveatsFromMacaroon (S (length (encodeV2 sampleMacaroon)))
       (encodeBase64 (encodeV2 sampleMacaroon))
     = Some [str "a=1"].
Proof.
  assert (encodable sampleMacaroon) as H.
  { repeat split; try (repeat constructor; cbn; try discriminate; reflexivity). }
  split; [ exact H | ].
  exact (proj1 (extractCaveatsFromMacaroon_encoded decimalToNumber
                  sampleMacaroon _ H (or_introl eq_refl))).
Defined.

(** ** parseL402Challenge: scheme, key case and other keys *)

Lemma parse_of_scan (StringToNumber : jsstring -> float) fuel h1 h2 :
  scanChallenge h1 = scanChallenge h2 ->
  parseL402Challenge StringToNumber fuel h1
  = parseL402Challenge StringToNumber fuel h2.
Proof. intros H. unfold parseL402Challenge. rewrite H. reflexivity. Qed.

Lemma pairMatchHere_no_equals (w tail : jsstring) :
  forallb isWord w = true ->
  match tail with
  | c :: _ => isWord c = false /\ c <> 61%N
  | [] => True
  end ->
  pairMatchHere (w ++ tail) = None.
Proof.
  intros Hw Htail. unfold pairMatchHere. cbv zeta.
  rewrite takeWhile_app; [ | exact Hw | destruct tail; tauto ].
  destruct w as [| x w]; [ reflexivity | ].
  rewrite drop_app_length.
  destruct tail as [| c t]; [ reflexivity | ].
  destruct Htail as [_ Hc].
  destruct c as [| p]; [ reflexivity | ].
  do 6 (destruct p as [p | p |]; try reflexivity). congruence.
Qed.

Lemma pairRegex_exec_word (w tail : jsstring) :
  forallb isWord w = true ->
  match tail with
  | c :: _ => isWord c = false /\ c <> 61%N
  | [] => True
  end ->
  pairRegex_exec 0 (w ++ tail) = pairRegex_exec 0 tail.
Proof.
  intros Hw Htail. induction w as [| x w IH]; [ reflexivity | ].
  cbn [app pairRegex_exec].
  change (x :: w ++ tail) with ((x :: w) ++ tail).
  rewrite (pairMatchHere_no_equals (x :: w) tail Hw Htail).
  apply IH. cbn [forallb] in Hw. apply andb_true_iff in Hw. tauto.
Qed.

Lemma pairRegex_exec_other (c : N) (tail : jsstring) :
  isWord c = false ->
  pairRegex_exec 0 (c :: tail) = pairRegex_exec 0 tail.
Proof.
  intros Hc. cbn [pairRegex_exec].
  assert (pairMatchHere (c :: tail) = None) as ->; [ | reflexivity ].
  unfold pairMatchHere. cbn [takeWhile]. rewrite Hc. reflexivity.
Qed.

Lemma isWhiteSpace_not_word c : isWhiteSpace c = true -> isWord c = false.
Proof.
  intros H. destruct (isWord c) eqn:E; [ | reflexivity ].
  rewrite (isWord_not_space c E) in H. discriminate.
Qed.

Lemma pairRegex_exec_spaces (ws tail : jsstring) :
  forallb isWhiteSpace ws = true ->
  pairRegex_exec 0 (ws ++ tail) = pairRegex_exec 0 tail.
Proof.
  induction ws as [| c ws IH]; intros H; [ reflexivity | ].
  cbn [forallb] in H. apply andb_true_iff in H as [Hc Hws].
  cbn [app]. rewrite pairRegex_exec_other by (apply isWhiteSpace_not_word; exact Hc).
  apply IH. exact Hws.
Qed.

Lemma takeWhile_dropWhile p (s : jsstring) :
  s = takeWhile p s ++ dropWhile p s /\ forallb p (takeWhile p s) = true.
Proof.
  induction s as [| c s (IH1 & IH2)]; [ split; reflexivity | ].
  cbn [takeWhile dropWhile]. destruct (p c) eqn:E; [ | split; reflexivity ].
  cbn [app forallb]. rewrite E, IH2. split; [ congruence | reflexivity ].
Qed.

Lemma lowerUnit_word c : isWord (lowerUnit c) = true -> isWord c = true.
Proof.
  unfold lowerUnit. destruct ((65 <=? c) && (c <=? 90))%N eqn:E; [ | auto ].
  intros _. unfold isWord. rewrite E. reflexivity.
Qed.

(** The scheme prefix holds no pair: the scan of the whole header finds
    what the scan of the stripped header finds. *)
Lemma pairsOf_whole (header : jsstring) :
  pairsOf header = pairRegex_exec 0 header.
Proof.
  unfold pairsOf. destruct (prefixMatch header) as [n |] eqn:Hp;
    [ | reflexivity ].
  unfold prefixMatch in Hp.
  destruct (length header <? 4)%nat eqn:Hlen; [ discriminate | ].
  apply Nat.ltb_ge in Hlen.
  destruct (str_eqb (toLowerCase (take 4 header)) (str "l402")
            || str_eqb (toLowerCase (take 4 header)) (str "lsat")) eqn:Hs;
    [ | discriminate ].
  destruct (takeWhile_dropWhile isWhiteSpace (drop 4 header)) as (Hsplit & Hws).
  destruct (takeWhile isWhiteSpace (drop 4 header)) as [| c ws] eqn:Etw;
    [ discriminate | ].
  injection Hp as <-.
  assert (forallb isWord (take 4 header) = true) as Hword.
  { assert (forallb isWord (toLowerCase (take 4 header)) = true) as Hl.
    { apply orb_true_iff in Hs as [Hs | Hs];
        apply bool_decide_eq_true_1 in Hs; rewrite Hs; reflexivity. }
    unfold toLowerCase in Hl. rewrite forallb_forall in Hl.
    apply forallb_forall. intros x Hx. apply lowerUnit_word, Hl.
    apply in_map. exact Hx. }
  pose proof Hws as Hws'. cbn [forallb] in Hws'.
  apply andb_true_iff in Hws' as [Hc _].
  remember (dropWhile isWhiteSpace (drop 4 header)) as rest eqn:Hrest.
  clear Hrest.
  assert (drop (4 + length (c :: ws)) header = rest) as Hd.
  { rewrite <- drop_drop, Hsplit. apply drop_app_length. }
  cbn [length Nat.add] in Hd. rewrite Hd. rewrite <- (take_drop 4 header). rewrite Hsplit.
  rewrite pairRegex_exec_word; [ | exact Hword | ].
  2:{ cbn [app]. split; [ apply isWhiteSpace_not_word; exact Hc | ].
      intros ->. discriminate. }
  symmetry. apply pairRegex_exec_spaces. exact Hws.
Qed.

Lemma scan_rendered (ps : list HeaderPair) :
  Forall wellFormedPair ps ->
  scanChallenge (renderHeader ps)
  = (default [] (last (valuesFor (str "macaroon") (map keyValue ps))),
     default [] (last (valuesFor (str "invoice") (map keyValue ps)))).
Proof.
  intros H. rewrite scanChallenge_values, pairsOf_rendered by exact H.
  reflexivity.
Qed.

(** X18: the scheme is not checked. For every header the variables
    [macaroon] and [invoice] are what a scan of the whole header gives,
    so the strip of an [L402] or [LSAT] prefix changes nothing; and a
    header that starts with any other word (for example [Bearer]) and a
    space parses as the same header with [L402]. *)
Theorem parseL402Challenge_any_scheme (StringToNumber : jsstring -> float)
    (fuel : nat) :
  (forall header,
     scanChallenge header
     = fold_left assignPair (pairRegex_exec 0 header) ([], []))
  /\ (forall scheme ps,
        forallb isWord scheme = true -> Forall wellFormedPair ps ->
        parseL402Challenge StringToNumber fuel
          (scheme ++ [32%N] ++ renderPairs ps)
        = parseL402Challenge StringToNumber fuel (renderHeader ps)).
Proof.
  split.
  - intros header.
    change (scanChallenge header)
      with (fold_left assignPair (pairsOf header) ([], [])).
    rewrite pairsOf_whole. reflexivity.
  - intros scheme ps Hscheme Hps. apply parse_of_scan.
    rewrite scan_rendered by exact Hps.
    rewrite scanChallenge_values, pairsOf_whole.
    rewrite pairRegex_exec_word;
      [ | exact Hscheme | cbn [app]; split; [ reflexivity | discriminate ] ].
    cbn [app]. rewrite pairRegex_exec_other by reflexivity.
    rewrite pairRegex_exec_rendered by exact Hps. reflexivity.
Qed.

Lemma valuesFor_sameUpToCase key ps ps' :
  Forall2 sameUpToCase ps ps' ->
  valuesFor key (map keyValue ps) = valuesFor key (map keyValue ps').
Proof.
  induction 1 as [| p p' ps ps' (Hk & Hv) _ IH]; [ reflexivity | ].
  cbn [map].
  change (keyValue p :: map keyValue ps) with ([keyValue p] ++ map keyValue ps).
  change (keyValue p' :: map keyValue ps')
    with ([keyValue p'] ++ map keyValue ps').
  rewrite !valuesFor_app, !valuesFor_one, IH. cbn [fst snd keyValue].
  rewrite Hk, Hv. reflexivity.
Qed.

(** X19: keys are compared without regard to case: two headers whose
    pairs differ in the case of their keys only parse alike. *)
Theorem parseL402Challenge_key_case (StringToNumber : jsstring -> float)
    (fuel : nat) (ps ps' : list HeaderPair) :
  Forall wellFormedPair ps -> Forall wellFormedPair ps' ->
  Forall2 sameUpToCase ps ps' ->
  parseL402Challenge StringToNumber fuel (renderHeader ps)
  = parseL402Challenge StringToNumber fuel (renderHeader ps').
Proof.
  intros Hps Hps' Hsame. apply parse_of_scan.
  rewrite !scan_rendered by assumption.
  rewrite !(valuesFor_sameUpToCase _ ps ps' Hsame). reflexivity.
Qed.

Lemma parseL402Challenge_key_case_witness :
  Forall wellFormedPair lowerPairs /\ Forall wellFormedPair upperPairs
  /\ Forall2 sameUpToCase lowerPairs upperPairs
  /\ parseL402Challenge decimalToNumber 9 (renderHeader lowerPairs)
     = parseL402Challenge decimalToNumber 9 (renderHeader upperPairs).
Proof.
  assert (Forall wellFormedPair lowerPairs) as H1 by solve_wellFormed.
  assert (Forall wellFormedPair upperPairs) as H2 by solve_wellFormed.
  assert (Forall2 sameUpToCase lowerPairs upperPairs) as H3
    by (repeat constructor).
  split; [ exact H1 | ]. split; [ exact H2 | ]. split; [ exact H3 | ].
  exact (parseL402Challenge_key_case decimalToNumber 9 _ _ H1 H2 H3).
Defined.

(** X20: pairs with other keys are ignored: a pair whose key is neither
    [macaroon] nor [invoice] (in lower case) can be added to a header,
    anywhere, without changing the result. *)
Theorem parseL402Challenge_other_key (StringToNumber : jsstring -> float)
    (fuel : nat) (ps1 ps2 : list HeaderPair) (p : HeaderPair) :
  Forall wellFormedPair (ps1 ++ p :: ps2) ->
  toLowerCase (pairKey p) <> str "macaroon" ->
  toLowerCase (pairKey p) <> str "invoice" ->
  parseL402Challenge StringToNumber fuel (renderHeader (ps1 ++ p :: ps2))
  = parseL402Challenge StringToNumber fuel (renderHeader (ps1 ++ ps2)).
Proof.
  intros Hwf Hm Hi.
  assert (Forall wellFormedPair (ps1 ++ ps2)) as Hwf'.
  { apply Forall_app in Hwf as [H1 H2]. apply Forall_app_2; [ exact H1 | ].
    inversion H2; assumption. }
  assert (forall key, toLowerCase (pairKey p) <> key ->
            valuesFor key (map keyValue (ps1 ++ p :: ps2))
            = valuesFor key (map keyValue (ps1 ++ ps2))) as Hv.
  { intros key Hk. rewrite !map_app. cbn [map].
    rewrite !valuesFor_app.
    change (keyValue p :: map keyValue ps2)
      with ([keyValue p] ++ map keyValue ps2).
    rewrite valuesFor_app, valuesFor_one. cbn [fst keyValue].
    unfold str_eqb. rewrite bool_decide_eq_false_2 by exact Hk.
    reflexivity. }
  apply parse_of_scan. rewrite !scan_rendered by assumption.
  rewrite !Hv by assumption. reflexivity.
Qed.

Lemma parseL402Challenge_other_key_witness :
  Forall wellFormedPair (lowerPairs ++ versionPair :: [])
  /\ parseL402Challenge decimalToNumber 9
       (renderHeader (lowerPairs ++ versionPair :: []))
     = parseL402Challenge decimalToNumber 9 (renderHeader (lowerPairs ++ [])).
Proof.
  assert (Forall wellFormedPair (lowerPairs ++ versionPair :: [])) as H
    by (cbn [app lowerPairs]; solve_wellFormed).
  split; [ exact H | ].
  refine (parseL402Challenge_other_key decimalToNumber 9 lowerPairs []
            versionPair H _ _); vm_compute; discriminate.
Defined.

(** ** readVarint stays inside the buffer *)

Lemma varint_run_length (l : list byte) :
  (length (varint_run l) <= length l)%nat.
Proof.
  induction l as [| b l IH]; cbn [varint_run length]; [ lia | ].
  destruct (high_bit b); cbn [length]; lia.
Qed.

(** X21: [readVarint] never moves past the end of the buffer and always
    returns a signed 32-bit value: from an offset inside the buffer the
    new offset is at most the length; at or past the end nothing is read
    (value 0, same offset); before the start one [undefined] is read
    (value 0, offset plus one). *)
Theorem readVarint_bounds (data : Uint8Array) (p : Z) :
  - 2 ^ 31 <= fst (readVarint data p) < 2 ^ 31
  /\ (0 <= p < len data -> p < snd (readVarint data p) <= len data)
  /\ (len data <= p -> readVarint data p = (0, p))
  /\ (p < 0 -> readVarint data p = (0, p + 1)).
Proof.
  assert (p < 0 -> readVarint data p = (0, p + 1)) as Hneg.
  { intros Hp. unfold readVarint. cbn [readVarint_loop].
    assert ((p <? len data) = true) as ->
      by (apply Z.ltb_lt; unfold len; lia).
    unfold get. rewrite (proj2 (Z.ltb_lt p 0) Hp). reflexivity. }
  split; [ | split; [ | split; [ | exact Hneg ] ] ].
  - destruct (Z.lt_ge_cases p 0) as [Hp | Hp].
    + rewrite Hneg by exact Hp. cbn. lia.
    + rewrite readVarint_run by exact Hp. cbn [fst].
      apply varint_acc32_range. lia.
  - intros Hp. rewrite readVarint_run by lia. cbn [snd].
    pose proof (varint_run_length (drop (Z.to_nat p) data)) as Hl.
    rewrite length_drop in Hl. unfold len in *.
    destruct (drop_get data p Hp) as (b & _ & Hd). rewrite Hd.
    rewrite Hd in Hl. cbn [varint_run] in *.
    destruct (high_bit b); cbn [length] in *; lia.
  - intros Hp. rewrite readVarint_run by (unfold len in Hp; lia).
    rewrite drop_past by exact Hp. cbn. f_equal. lia.
Qed.

(** ** The decoders return pieces of the buffer *)

Lemma bytesToString_in_range (data : Uint8Array) (start n : Z) :
  0 <= start -> 0 <= n -> start + n <= len data ->
  sliceOf data (bytesToString data start n).
Proof.
  intros Hs Hn Hfit. unfold len in Hfit.
  remember (take (Z.to_nat start) data) as pre eqn:Epre.
  remember (take (Z.to_nat n) (drop (Z.to_nat start) data)) as l eqn:El.
  remember (drop (Z.to_nat n) (drop (Z.to_nat start) data)) as post eqn:Epost.
  assert (data = pre ++ l ++ post) as Hd
    by (subst pre l post; rewrite !take_drop; reflexivity).
  assert (len pre = start) as Hlp
    by (subst pre; unfold len; rewrite length_take; lia).
  assert (len l = n) as Hll
    by (subst l; unfold len; rewrite length_take, length_drop; lia).
  clear Epre El Epost.
  exists pre, l, post. split; [ exact Hd | ].
  rewrite Hd, <- Hlp, <- Hll. apply bytesToString_slice.
Qed.

Lemma sliceOf_drop data (l : list byte) k :
  sliceOf data (map Byte.to_N l) -> sliceOf data (drop k (map Byte.to_N l)).
Proof.
  intros (pre & l' & post & Hd & Hl).
  exists (pre ++ take k l'), (drop k l'), post. split.
  - rewrite <- app_assoc, (app_assoc (take k l')), take_drop. exact Hd.
  - rewrite Hl. apply skipn_map.
Qed.

Lemma removelast_map {A B} (f : A -> B) (l : list A) :
  removelast (map f l) = map f (removelast l).
Proof.
  induction l as [| a [| b l] IH]; [ reflexivity | reflexivity | ].
  cbn [map removelast] in *. rewrite IH. reflexivity.
Qed.

Lemma sliceOf_removelast data (c : jsstring) :
  sliceOf data c -> sliceOf data (removelast c).
Proof.
  intros (pre & l & post & Hd & ->).
  destruct l as [| a l] using rev_ind.
  - exists pre, [], post. auto.
  - exists pre, l, ([a] ++ post). split.
    + rewrite Hd, <- !app_assoc. reflexivity.
    + rewrite map_app. cbn [map]. apply removelast_last.
Qed.

Lemma v1_body_slices (data : Uint8Array) (s : V1State) :
  0 <= pos1 s ->
  Forall (sliceOf data) (caveats1 s) ->
  match v1_body data s with
  | Continue s' | Break s' => Forall (sliceOf data) (caveats1 s')
  end.
Proof.
  intros Hpos Hcs. unfold v1_body.
  destruct (parseInt16 (bytesToString data (pos1 s) 4)) as [n |];
    [ | exact Hcs ].
  destruct (n <? 9) eqn:H9; cbn [orb]; [ exact Hcs | ].
  destruct (pos1 s + n >? len data) eqn:Hov; [ exact Hcs | ].
  apply Z.ltb_ge in H9.
  assert (pos1 s + n <= len data) as Hfit
    by (destruct (Z.gtb_spec (pos1 s + n) (len data)); [ discriminate | lia ]).
  cbn [caveats1].
  pose proof (bytesToString_in_range data (pos1 s + 4) (n - 4)
                ltac:(lia) ltac:(lia) ltac:(lia)) as Hslice.
  destruct (indexOf 32 (bytesToString data (pos1 s + 4) (n - 4))) as [i |];
    [ | exact Hcs ].
  destruct (str_eqb _ _); [ | exact Hcs ].
  apply Forall_app_2; [ exact Hcs | ]. constructor; [ | constructor ].
  assert (sliceOf data (drop (i + 1)
                          (bytesToString data (pos1 s + 4) (n - 4)))) as Hv.
  { destruct Hslice as (pre & l & post & Hd & Hl). rewrite Hl.
    apply sliceOf_drop. exists pre, l, post. auto. }
  destruct (endsWith 10 _); [ apply sliceOf_removelast | ]; exact Hv.
Qed.

Lemma v1_loop_slices (data : Uint8Array) fuel : forall s,
  0 <= pos1 s ->
  Forall (sliceOf data) (caveats1 s) ->
  Forall (sliceOf data) (v1_loop fuel data s).
Proof.
  induction fuel as [| fuel IH]; intros s Hpos Hcs; cbn [v1_loop];
    [ exact Hcs | ].
  destruct (pos1 s + 8 <? len data); [ | exact Hcs ].
  pose proof (v1_body_slices data s Hpos Hcs) as Hb.
  destruct (v1_body data s) as [s' | s'] eqn:E; [ | exact Hb ].
  apply IH; [ | exact Hb ].
  pose proof (v1_body_advance data s s' E). lia.
Qed.

(** X22: every caveat the v1 decoder returns is a run of consecutive
    bytes of the buffer, one code unit per byte: nothing is read outside
    of the buffer and nothing is made up. *)
Theorem extractCaveatsV1_slices (data : Uint8Array) :
  Forall (sliceOf data) (extractCaveatsV1 data).
Proof.
  unfold extractCaveatsV1. apply v1_loop_slices; [ cbn; lia | constructor ].
Qed.

Lemma bytesToString_nonpositive (data : Uint8Array) (start n : Z) :
  n <= 0 -> bytesToString data start n = [].
Proof.
  intros Hn. unfold bytesToString.
  replace (Z.to_nat n) with 0%nat by lia. reflexivity.
Qed.

Lemma readVarint_forward (data : Uint8Array) (p : Z) :
  0 <= p -> p <= snd (readVarint data p).
Proof.
  intros Hp. rewrite readVarint_run by exact Hp. cbn [snd]. lia.
Qed.

(** One iteration keeps the caveats inside the buffer. A capture needs
    the field type 2, which is not read before the start of the buffer;
    a negative length captures the empty string. *)
Lemma v2_body_slices (data : Uint8Array) (s : V2State) :
  Forall (sliceOf data) (caveats s) ->
  Forall (sliceOf data) (caveats (state_after (v2_body data s))).
Proof.
  intros Hcs.
  destruct (v2_body_caveats data s)
    as [-> | (_ & _ & p1 & n & p2 & H1 & H2 & Hfit & ->)];
    [ exact Hcs | ].
  apply Forall_app_2; [ exact Hcs | ]. constructor; [ | constructor ].
  destruct (Z.lt_ge_cases (pos s) 0) as [Hneg | Hpos].
  { rewrite readVarint_negative in H1 by exact Hneg.
    injection H1 as Hty _. unfold FIELD_IDENTIFIER in Hty. discriminate. }
  pose proof (readVarint_forward data (pos s) Hpos) as Hp1.
  rewrite H1 in Hp1. cbn [snd] in Hp1.
  pose proof (readVarint_forward data p1 ltac:(lia)) as Hp2.
  rewrite H2 in Hp2. cbn [snd] in Hp2.
  destruct (Z.lt_ge_cases n 0) as [Hn | Hn].
  - rewrite bytesToString_nonpositive by lia.
    exists [], [], data. split; reflexivity.
  - apply bytesToString_in_range; lia.
Qed.

Lemma v2_reach_slices (data : Uint8Array) (s : V2State) :
  v2_reach data s -> Forall (sliceOf data) (caveats s).
Proof.
  induction 1 as [| s s' _ IH _ Hb]; [ constructor | ].
  pose proof (v2_body_slices data s IH) as H. rewrite Hb in H. exact H.
Qed.

Lemma v2_loop_slices (data : Uint8Array) fuel :
  forall s cs,
    Forall (sliceOf data) (caveats s) ->
    v2_loop fuel data s = Some cs ->
    Forall (sliceOf data) cs.
Proof.
  induction fuel as [| fuel IH]; intros s cs Hcs; cbn [v2_loop];
    [ discriminate | ].
  destruct (pos s <? len data); [ | intros [= <-]; exact Hcs ].
  pose proof (v2_body_slices data s Hcs) as Hafter.
  destruct (v2_body data s) as [s' | s']; cbn [state_after] in Hafter.
  - apply IH. exact Hafter.
  - intros [= <-]. exact Hafter.
Qed.

(** X23: every caveat the v2 decoder collects is a run of consecutive
    bytes of the buffer, one code unit per byte, whatever the buffer
    holds: the list collected so far at every iteration, and the list
    returned by every call that returns. A negative length, which a
    varint of five bytes can give, captures the empty string, and
    nothing is captured before the start of the buffer. On a buffer in
    which no four bytes in a row have the high bit set the call returns,
    within one iteration per byte, such a list. *)
Theorem extractCaveatsV2_slices (data : Uint8Array) :
  (forall s, v2_reach data s -> Forall (sliceOf data) (caveats s))
  /\ (forall fuel cs,
        extractCaveatsV2 fuel data = Some cs -> Forall (sliceOf data) cs)
  /\ (shortVarints data ->
      exists cs,
        extractCaveatsV2 (S (length data)) data = Some cs
        /\ Forall (sliceOf data) cs).
Proof.
  assert (forall fuel cs,
            extractCaveatsV2 fuel data = Some cs -> Forall (sliceOf data) cs)
    as Hret.
  { intros fuel cs Hrun.
    apply (v2_loop_slices data fuel v2_init cs); [ constructor | exact Hrun ]. }
  split; [ apply v2_reach_slices | ]. split; [ exact Hret | ].
  intros Hshort.
  destruct (v2_loop_terminates data Hshort (S (length data)) v2_init)
    as (cs & Hcs); [ cbn; lia | cbn [pos v2_init]; unfold len; lia | lia | ].
  exists cs. split; [ exact Hcs | ]. apply (Hret _ _ Hcs).
Qed.

Lemma extractCaveatsV2_slices_witness :
  extractCaveatsV2 50 (encodeV2 sampleMacaroon) = Some [str "a=1"]
  /\ Forall (sliceOf (encodeV2 sampleMacaroon)) [str "a=1"].
Proof.
  assert (extractCaveatsV2 50 (encodeV2 sampleMacaroon) = Some [str "a=1"])
    as H by (vm_compute; reflexivity).
  split; [ exact H | ].
  exact (proj1 (proj2 (extractCaveatsV2_slices _)) 50%nat _ H).
Defined.

(** ** The v1 decoder on written packets *)

Lemma hexChar_digit d :
  (d < 16)%N ->
  hexDigit (hexChar d) = Some (Z.of_N d) /\ (hexChar d < 256)%N.
Proof.
  intros Hd.
  pose proof (units_below
    (fun d => match hexDigit (hexChar d) with
              | Some v => (v =? Z.of_N d) && (hexChar d <? 256)%N
              | None => false
              end) 16 ltac:(vm_compute; reflexivity) d Hd) as H.
  cbv beta in H. destruct (hexDigit (hexChar d)) as [v |]; [ | discriminate ].
  apply andb_true_iff in H as [Hv Hc].
  apply Z.eqb_eq in Hv. apply N.ltb_lt in Hc. subst v. auto.
Qed.

Lemma hex4_parsed n :
  (n < 65536)%N -> parseInt16 (map Byte.to_N (hex4 n)) = Some (Z.of_N n).
Proof.
  intros Hn.
  assert (n / 4096 < 16 /\ n / 256 mod 16 < 16 /\ n / 16 mod 16 < 16
          /\ n mod 16 < 16)%N as (H3 & H2 & H1 & H0)
    by (repeat split; zify; Z.to_euclidean_division_equations; lia).
  destruct (hexChar_digit _ H3) as (D3 & B3).
  destruct (hexChar_digit _ H2) as (D2 & B2).
  destruct (hexChar_digit _ H1) as (D1 & B1).
  destruct (hexChar_digit _ H0) as (D0 & B0).
  unfold hex4. cbn [map]. rewrite !byte_of_unit_value by assumption.
  rewrite parseInt16_hex; [ | discriminate | ].
  - unfold hexValue. cbn [fold_left]. rewrite D3, D2, D1, D0.
    unfold default. cbn [from_option id]. f_equal.
    clear D3 D2 D1 D0 B3 B2 B1 B0.
    zify; Z.to_euclidean_division_equations; lia.
  - cbn [forallb]. unfold isHexDigit. rewrite D3, D2, D1, D0. reflexivity.
Qed.

Lemma indexOf_key (key : list byte) :
  Forall (fun b => b <> x20) key -> indexOf 32 (map Byte.to_N key) = None.
Proof.
  induction 1 as [| b key Hb _ IH]; [ reflexivity | ].
  cbn [map indexOf]. rewrite IH.
  destruct (N.eqb_spec (Byte.to_N b) 32) as [E | E]; [ | reflexivity ].
  exfalso. apply Hb. rewrite <- (byte_of_unit_to_N b), E. reflexivity.
Qed.

Lemma hex4_length n : length (hex4 n) = 4%nat.
Proof. reflexivity. Qed.

Lemma encodePacket_length p : length (encodePacket p) = packetLength p.
Proof.
  unfold encodePacket, packetLength. rewrite !length_app, hex4_length.
  cbn [length]. lia.
Qed.

(** One iteration over a written packet. *)
Lemma v1_body_packet (pre rest : list byte) (p : V1Packet) (s : V1State) :
  packetOk p -> pos1 s = len pre ->
  v1_body (pre ++ encodePacket p ++ rest) s
  = Continue
      (mkV1 (caveats1 s
               ++ (if str_eqb (map Byte.to_N (packetKey p)) (str "cid")
                   then [map Byte.to_N (packetBody p)] else []))
         (len pre + len (encodePacket p))).
Proof.
  intros (Hkey & Hlen & Hmax) Hpos.
  set (L := N.of_nat (packetLength p)) in *.
  set (inner := packetKey p ++ [x20] ++ packetBody p ++ [x0a]).
  set (data := pre ++ encodePacket p ++ rest).
  assert (data = pre ++ hex4 L ++ (inner ++ rest)) as Hd1
    by (subst data inner; unfold encodePacket; fold L;
        rewrite <- !app_assoc; reflexivity).
  assert (data = (pre ++ hex4 L) ++ inner ++ rest) as Hd2
    by (rewrite Hd1, <- !app_assoc; reflexivity).
  assert (len inner = Z.of_N L - 4) as Hinner.
  { subst inner L. unfold len, packetLength. rewrite !length_app.
    cbn [length]. lia. }
  assert (len (encodePacket p) = Z.of_N L) as Hpl
    by (unfold len; rewrite encodePacket_length; subst L; lia).
  unfold v1_body. rewrite Hpos.
  assert (bytesToString data (len pre) 4 = map Byte.to_N (hex4 L)) as ->.
  { rewrite Hd1. change 4 with (len (hex4 L)). apply bytesToString_slice. }
  rewrite hex4_parsed by (subst L; lia).
  assert ((Z.of_N L <? 9) = false) as -> by (apply Z.ltb_ge; subst L; lia).
  assert ((len pre + Z.of_N L >? len data) = false) as ->.
  { destruct (Z.gtb_spec (len pre + Z.of_N L) (len data)) as [Hgt |];
      [ | reflexivity ].
    subst data. rewrite !len_app, Hpl in Hgt. unfold len in Hgt. lia. }
  cbn [orb].
  assert (bytesToString data (len pre + 4) (Z.of_N L - 4)
          = map Byte.to_N inner) as ->.
  { rewrite Hd2, <- Hinner.
    replace (len pre + 4) with (len (pre ++ hex4 L))
      by (rewrite len_app; reflexivity).
    apply bytesToString_slice. }
  subst inner. rewrite !map_app. cbn [map app].
  change (Byte.to_N x20) with 32%N. change (Byte.to_N x0a) with 10%N.
  rewrite (indexOf_app_first 32 _ _ (indexOf_key _ Hkey)).
  unfold jsstring in *. rewrite take_app_length.
  replace (length (map Byte.to_N (packetKey p)) + 1)%nat
    with (length (map Byte.to_N (packetKey p) ++ [32%N]))
    by (rewrite length_app; reflexivity).
  replace (map Byte.to_N (packetKey p)
             ++ 32%N :: map Byte.to_N (packetBody p) ++ [10%N])
    with ((map Byte.to_N (packetKey p) ++ [32%N])
            ++ map Byte.to_N (packetBody p) ++ [10%N])
    by (rewrite <- app_assoc; reflexivity).
  rewrite drop_app_length.
  assert (endsWith 10 (map Byte.to_N (packetBody p) ++ [10%N]) = true) as ->.
  { unfold endsWith. rewrite last_snoc. reflexivity. }
  rewrite removelast_last, Hpl.
  destruct (str_eqb _ _); rewrite ?app_nil_r; reflexivity.
Qed.

Lemma v1_loop_packets (data : Uint8Array) (tail : list byte) ps :
  forall pre s fuel,
    Forall packetOk ps ->
    data = pre ++ concat (map encodePacket ps) ++ tail ->
    pos1 s = len pre ->
    v1_loop (length ps + fuel) data s
    = v1_loop fuel data
        (mkV1 (caveats1 s ++ cidsOf ps)
           (len pre + len (concat (map encodePacket ps)))).
Proof.
  induction ps as [| p ps IH]; intros pre s fuel Hok Hdata Hpos.
  - cbn [length Nat.add map concat]. unfold cidsOf. cbn.
    rewrite app_nil_r. unfold len at 2. cbn [length].
    rewrite Z.add_0_r, <- Hpos. destruct s; reflexivity.
  - inversion Hok as [| ? ? Hp Hps]; subst.
    cbn [map concat] in *. cbn [length Nat.add v1_loop].
    set (data := pre ++ (encodePacket p ++ concat (map encodePacket ps))
                   ++ tail) in *.
    assert (data = pre ++ encodePacket p
                     ++ (concat (map encodePacket ps) ++ tail)) as Hd1
      by (subst data; rewrite <- !app_assoc; reflexivity).
    assert (pos1 s + 8 < len data) as Hlt.
    { rewrite Hpos, Hd1. destruct Hp as (_ & H9 & _).
      unfold len. rewrite !length_app, encodePacket_length. lia. }
    rewrite (proj2 (Z.ltb_lt _ _) Hlt).
    rewrite Hd1 at 1. rewrite (v1_body_packet pre _ p s Hp Hpos).
    rewrite (IH (pre ++ encodePacket p) _ fuel Hps);
      [ | subst data; rewrite <- !app_assoc; reflexivity
        | cbn [pos1]; rewrite len_app; reflexivity ].
    cbn [caveats1]. rewrite !len_app, <- app_assoc. f_equal. f_equal.
    + f_equal. unfold cidsOf. rewrite filter_cons. unfold str_eqb.
      destruct (decide (map Byte.to_N (packetKey p) = str "cid")) as [E | E].
      * rewrite bool_decide_eq_true_2 by exact E. reflexivity.
      * rewrite bool_decide_eq_false_2 by exact E. reflexivity.
    + lia.
Qed.

Lemma packets_length ps :
  Forall packetOk ps ->
  (length ps <= length (concat (map encodePacket ps)))%nat.
Proof.
  induction 1 as [| p ps (_ & H9 & _) _ IH]; [ reflexivity | ].
  cbn [map concat length]. rewrite length_app, encodePacket_length. lia.
Qed.

Lemma v1_decode_packets ps :
  Forall packetOk ps ->
  extractCaveatsV1 (concat (map encodePacket ps)) = cidsOf ps.
Proof.
  intros Hok. unfold extractCaveatsV1.
  set (data := concat (map encodePacket ps)).
  pose proof (packets_length ps Hok) as Hl. fold data in Hl.
  replace (length data) with (length ps + (length data - length ps))%nat
    by lia.
  rewrite (v1_loop_packets data [] ps [] (mkV1 [] 0)
             (length data - length ps) Hok);
    [ | subst data; rewrite app_nil_r; reflexivity | reflexivity ].
  cbn [caveats1 app]. fold data.
  destruct (length data - length ps)%nat; cbn [v1_loop caveats1 pos1];
    [ reflexivity | ].
  rewrite (proj2 (Z.ltb_ge _ _)); [ reflexivity | ].
  unfold len. cbn [length]. lia.
Qed.

(** X24: the v1 decoder reads back written packets: for every sequence
    of packets laid out as four hexadecimal digits of length, key, space,
    data and newline (keys without a space, lengths from 9 to 65535),
    it returns the data of the packets whose key is [cid], in order;
    the same holds from the base64 text of the buffer. *)
Theorem extractCaveatsV1_packets (ps : list V1Packet) :
  Forall packetOk ps ->
  extractCaveatsV1 (concat (map encodePacket ps)) = cidsOf ps
  /\ forall fuel,
       extractCaveatsFromMacaroon fuel
         (encodeBase64 (concat (map encodePacket ps)))
       = Some (cidsOf ps).
Proof.
  intros Hok. pose proof (v1_decode_packets ps Hok) as Hv1.
  split; [ exact Hv1 | ]. intros fuel.
  unfold extractCaveatsFromMacaroon, extractCaveats_try.
  rewrite encodeBase64_decoded.
  destruct ps as [| p ps]; [ reflexivity | ].
  inversion Hok as [| ? ? (_ & H9 & Hmax) _]; subst.
  set (data := concat (map encodePacket (p :: ps))) in *.
  assert (exists b rest, data = b :: rest /\ Byte.to_N b <> 2%N
                         /\ (8 <= length rest)%nat) as (b & rest & Hd & Hb & Hr).
  { subst data. cbn [map concat]. unfold encodePacket at 1, hex4.
    cbn [map app]. eexists. eexists. split; [ reflexivity | ]. split.
    - assert (N.of_nat (packetLength p) / 4096 < 16)%N as H16
        by (zify; Z.to_euclidean_division_equations; lia).
      destruct (hexChar_digit _ H16) as (_ & Hc).
      rewrite byte_of_unit_value by exact Hc.
      unfold hexChar.
      destruct (_ <? 10)%N; zify; Z.to_euclidean_division_equations; lia.
    - cbn [length]. rewrite !length_app. cbn [length].
      rewrite !length_app. cbn [length].
      unfold packetLength in H9. lia. }
  rewrite Hd in *.
  assert ((len (b :: rest) <? 2) = false) as ->
    by (apply Z.ltb_ge; unfold len; cbn [length]; lia).
  assert ((int_of_read (get (b :: rest) 0) =? 2) = false) as ->
    by (apply Z.eqb_neq; change (get (b :: rest) 0) with (Some b);
        unfold int_of_read; lia).
  cbn [try_catch]. rewrite Hv1. reflexivity.
Qed.

Lemma extractCaveatsV1_packets_witness :
  Forall packetOk samplePackets
  /\ extractCaveatsV1 (concat (map encodePacket samplePackets))
     = [str "expiration=42"].
Proof.
  assert (Forall packetOk samplePackets) as H.
  { repeat constructor; cbn; try discriminate; try lia. }
  split; [ exact H | ].
  exact (proj1 (extractCaveatsV1_packets samplePackets H)).
Defined.

(** ** The parser of the first version *)

Lemma literal_app lit s : Legacy.literal lit (lit ++ s) = Some s.
Proof.
  unfold Legacy.literal, str_eqb. unfold jsstring in *.
  rewrite take_app_length, drop_app_length.
  rewrite bool_decide_eq_true_2 by reflexivity. reflexivity.
Qed.

Lemma literal_inv lit s r : Legacy.literal lit s = Some r -> s = lit ++ r.
Proof.
  unfold Legacy.literal, str_eqb. unfold jsstring in *.
  case_bool_decide as H; [ | discriminate ]. intros [= <-].
  pose proof (take_drop (length lit) s) as Htd. rewrite H in Htd.
  symmetry. exact Htd.
Qed.

Lemma dropWhile_app p (ws rest : jsstring) :
  forallb p ws = true ->
  match rest with c :: _ => p c = false | [] => True end ->
  dropWhile p (ws ++ rest) = rest.
Proof.
  intros Hws Hrest. induction ws as [| c ws IH]; cbn [app dropWhile].
  - destruct rest as [| c r]; [ reflexivity | ]. cbn [dropWhile].
    rewrite Hrest. reflexivity.
  - cbn [forallb] in Hws. apply andb_true_iff in Hws as [Hc Hws].
    rewrite Hc. apply IH. exact Hws.
Qed.

Lemma drop_takeWhile p (s : jsstring) :
  drop (length (takeWhile p s)) s = dropWhile p s.
Proof.
  induction s as [| c s IH]; [ reflexivity | ]. cbn [takeWhile dropWhile].
  destruct (p c); [ exact IH | reflexivity ].
Qed.

Lemma dropWhile_head p (s : jsstring) :
  match dropWhile p s with c :: _ => p c = false | [] => True end.
Proof.
  induction s as [| c s IH]; [ exact I | ]. cbn [dropWhile].
  destruct (p c) eqn:E; [ exact IH | exact E ].
Qed.

Lemma quoted_written v rest :
  v <> [] -> forallb Legacy.notQuote v = true ->
  Legacy.quoted (dquote ++ v ++ dquote ++ rest) = Some (v, rest).
Proof.
  intros Hne Hv. unfold Legacy.quoted. rewrite literal_app. cbv zeta.
  rewrite (takeWhile_app Legacy.notQuote v (dquote ++ rest) Hv eq_refl).
  unfold jsstring in *. rewrite drop_app_length, literal_app.
  destruct v; [ contradiction | reflexivity ].
Qed.

Lemma quoted_inv s v rest :
  Legacy.quoted s = Some (v, rest) ->
  s = dquote ++ v ++ dquote ++ rest
  /\ v <> [] /\ forallb Legacy.notQuote v = true.
Proof.
  unfold Legacy.quoted.
  destruct (Legacy.literal dquote s) as [r |] eqn:E1; [ | discriminate ].
  apply literal_inv in E1. cbv zeta. rewrite drop_takeWhile.
  destruct (takeWhile_dropWhile Legacy.notQuote r) as (Hsplit & Hall).
  destruct (takeWhile Legacy.notQuote r) as [| v0 v'] eqn:Ev;
    [ discriminate | ].
  destruct (Legacy.literal dquote (dropWhile Legacy.notQuote r))
    as [rest' |] eqn:E2; [ | discriminate ].
  apply literal_inv in E2.
  intros [= <- <-]. split; [ | split ].
  - rewrite E1, Hsplit, E2. reflexivity.
  - discriminate.
  - exact Hall.
Qed.

Lemma matchHere_written ws ws2 m i tail :
  Legacy.wellFormed ws ws2 m i ->
  Legacy.matchHere (Legacy.renderChallenge ws ws2 m i ++ tail) = Some (m, i).
Proof.
  intros (Hws & Hsp & Hsp2 & Hm & Hmq & Hi & Hiq).
  unfold Legacy.matchHere, Legacy.renderChallenge.
  rewrite <- !app_assoc. rewrite literal_app. cbv zeta.
  rewrite (takeWhile_app isWhiteSpace ws _ Hsp) by reflexivity.
  unfold jsstring in *. rewrite drop_app_length.
  destruct ws as [| w0 ws']; [ contradiction | ].
  rewrite literal_app, (quoted_written m _ Hm Hmq), literal_app.
  rewrite (dropWhile_app isWhiteSpace ws2 _ Hsp2) by reflexivity.
  rewrite literal_app, (quoted_written i _ Hi Hiq). reflexivity.
Qed.

Lemma matchHere_inv s m i :
  Legacy.matchHere s = Some (m, i) ->
  exists ws ws2 tail,
    Legacy.wellFormed ws ws2 m i
    /\ s = Legacy.renderChallenge ws ws2 m i ++ tail.
Proof.
  unfold Legacy.matchHere.
  destruct (Legacy.literal (str "L402") s) as [r |] eqn:E1;
    [ | discriminate ].
  apply literal_inv in E1. cbv zeta.
  destruct (takeWhile_dropWhile isWhiteSpace r) as (Hsplit & Hall).
  rewrite drop_takeWhile.
  destruct (takeWhile isWhiteSpace r) as [| w0 ws'] eqn:Ews;
    [ discriminate | ].
  destruct (Legacy.literal (str "macaroon=") (dropWhile isWhiteSpace r))
    as [r1 |] eqn:E2; [ | discriminate ].
  apply literal_inv in E2.
  destruct (Legacy.quoted r1) as [[m' r2] |] eqn:E3; [ | discriminate ].
  apply quoted_inv in E3 as (E3 & Hm & Hmq).
  destruct (Legacy.literal (str ",") r2) as [r3 |] eqn:E4;
    [ | discriminate ].
  apply literal_inv in E4.
  pose proof (takeWhile_dropWhile isWhiteSpace r3) as (Hsplit3 & Hall3).
  destruct (Legacy.literal (str "invoice=") (dropWhile isWhiteSpace r3))
    as [r4 |] eqn:E5; [ | discriminate ].
  apply literal_inv in E5.
  destruct (Legacy.quoted r4) as [[i' tail] |] eqn:E6; [ | discriminate ].
  apply quoted_inv in E6 as (E6 & Hi & Hiq).
  intros [= -> ->].
  exists (w0 :: ws'), (takeWhile isWhiteSpace r3), tail. split.
  - repeat split; try assumption. discriminate.
  - unfold Legacy.renderChallenge. rewrite <- !app_assoc.
    rewrite E1, Hsplit, E2, E3, E4, Hsplit3 at 1. rewrite E5, E6.
    reflexivity.
Qed.

Lemma matchChallenge_eq s :
  Legacy.matchChallenge s
  = match Legacy.matchHere s with
    | Some r => Some r
    | None =>
        match s with
        | [] => None
        | _ :: s' => Legacy.matchChallenge s'
        end
    end.
Proof. destruct s; reflexivity. Qed.

Lemma matchChallenge_inv s r :
  Legacy.matchChallenge s = Some r ->
  exists pre x, s = pre ++ x /\ Legacy.matchHere x = Some r.
Proof.
  induction s as [| c s IH]; rewrite matchChallenge_eq.
  - destruct (Legacy.matchHere []) eqn:E; [ | discriminate ].
    intros [= <-]. exists [], []. split; [ reflexivity | exact E ].
  - destruct (Legacy.matchHere (c :: s)) eqn:E.
    + intros [= <-]. exists [], (c :: s). split; [ reflexivity | exact E ].
    + intros H. destruct (IH H) as (pre & x & -> & Hx).
      exists (c :: pre), x. split; [ reflexivity | exact Hx ].
Qed.

Lemma matchChallenge_occurs pre x :
  Legacy.matchHere x <> None -> Legacy.matchChallenge (pre ++ x) <> None.
Proof.
  intros Hx. induction pre as [| c pre IH]; rewrite matchChallenge_eq.
  - cbn [app]. destruct (Legacy.matchHere x) eqn:E; [ discriminate | ].
    contradiction.
  - cbn [app]. destruct (Legacy.matchHere (c :: pre ++ x));
      [ discriminate | exact IH ].
Qed.

(** X25: the first version of the parser accepts every header that
    starts with a challenge in its format -- the word L402, white space,
    the macaroon pair, a comma, optional white space, the invoice pair,
    with non-empty values that hold no double quote -- whatever follows,
    and returns the two values. *)
Theorem legacy_parse_written (ws ws2 m i tail : jsstring) :
  Legacy.wellFormed ws ws2 m i ->
  Legacy.parseL402Challenge (Legacy.renderChallenge ws ws2 m i ++ tail)
  = Some (Legacy.mkChallenge m i).
Proof.
  intros H. unfold Legacy.parseL402Challenge.
  rewrite matchChallenge_eq, (matchHere_written ws ws2 m i tail H).
  reflexivity.
Qed.

Lemma legacy_parse_written_witness :
  Legacy.wellFormed (str " ") (str " ") (str "AgEEbHNhdA") (str "lnbc1")
  /\ Legacy.parseL402Challenge (legacyHeader ++ str "; x")
     = Some (Legacy.mkChallenge (str "AgEEbHNhdA") (str "lnbc1")).
Proof.
  assert (Legacy.wellFormed (str " ") (str " ") (str "AgEEbHNhdA")
            (str "lnbc1")) as H
    by (repeat split; try discriminate; reflexivity).
  split; [ exact H | ].
  exact (legacy_parse_written _ _ _ _ (str "; x") H).
Defined.

(** X26: what the first version of the parser returns. A result holds
    the two values of a challenge that occurs in the header, so both are
    non-empty and free of double quotes; the result is null exactly when
    no challenge in the format occurs anywhere in the header. *)
Theorem legacy_parse_characterised (header : jsstring) :
  (forall c, Legacy.parseL402Challenge header = Some c ->
     exists pre ws ws2 tail,
       Legacy.wellFormed ws ws2 (Legacy.macaroon c) (Legacy.invoice c)
       /\ header
          = pre ++ Legacy.renderChallenge ws ws2 (Legacy.macaroon c)
                     (Legacy.invoice c) ++ tail)
  /\ (Legacy.parseL402Challenge header = None <-> ~ Legacy.occurs header).
Proof.
  assert (forall c, Legacy.parseL402Challenge header = Some c ->
     exists pre ws ws2 tail,
       Legacy.wellFormed ws ws2 (Legacy.macaroon c) (Legacy.invoice c)
       /\ header
          = pre ++ Legacy.renderChallenge ws ws2 (Legacy.macaroon c)
                     (Legacy.invoice c) ++ tail) as Hsound.
  { intros c. unfold Legacy.parseL402Challenge.
    destruct (Legacy.matchChallenge header) as [[m i] |] eqn:E;
      [ | discriminate ].
    intros [= <-]. cbn [Legacy.macaroon Legacy.invoice].
    apply matchChallenge_inv in E as (pre & x & -> & Hx).
    apply matchHere_inv in Hx as (ws & ws2 & tail & Hwf & ->).
    exists pre, ws, ws2, tail. split; [ exact Hwf | reflexivity ]. }
  split; [ exact Hsound | ]. split.
  - intros Hnull (pre & ws & ws2 & m & i & tail & Hwf & ->).
    unfold Legacy.parseL402Challenge in Hnull.
    pose proof (matchChallenge_occurs pre
                  (Legacy.renderChallenge ws ws2 m i ++ tail)) as Hocc.
    rewrite (matchHere_written ws ws2 m i tail Hwf) in Hocc.
    destruct (Legacy.matchChallenge
                (pre ++ Legacy.renderChallenge ws ws2 m i ++ tail))
      as [[m' i'] |]; [ discriminate | ].
    apply Hocc; [ discriminate | reflexivity ].
  - intros Hno.
    destruct (Legacy.parseL402Challenge header) as [c |] eqn:E;
      [ | reflexivity ].
    exfalso. apply Hno. destruct (Hsound c eq_refl)
      as (pre & ws & ws2 & tail & Hwf & Hh).
    exists pre, ws, ws2, (Legacy.macaroon c), (Legacy.invoice c), tail.
    split; [ exact Hwf | exact Hh ].
Qed.

(** ** The two versions of the parser *)

Lemma pairRegex_exec_pair (key value tail : jsstring) :
  key <> [] -> forallb isWord key = true ->
  forallb Legacy.notQuote value = true ->
  pairRegex_exec 0 (key ++ [61%N; 34%N] ++ value ++ [34%N] ++ tail)
  = (key, value) :: pairRegex_exec 0 tail.
Proof.
  intros Hne Hkey Hval.
  assert (wellFormedPair (mkPair key value [])) as Hp
    by (repeat split; assumption).
  pose proof (pairMatchHere_rendered (mkPair key value []) tail Hp) as Hm.
  cbn [pairKey pairValue] in Hm.
  destruct key as [| k0 k']; [ contradiction | ].
  cbn [app] in *. cbn [pairRegex_exec]. rewrite Hm. f_equal.
  replace (length (k0 :: k') + length value + 3 - 1)%nat
    with (length (k' ++ [61%N; 34%N] ++ value ++ [34%N]))
    by (rewrite !length_app; cbn [length]; lia).
  replace (k' ++ 61%N :: 34%N :: value ++ 34%N :: tail)
    with ((k' ++ [61%N; 34%N] ++ value ++ [34%N]) ++ tail)
    by (rewrite <- !app_assoc; reflexivity).
  apply pairRegex_exec_skip.
Qed.

Lemma scan_legacy (ws ws2 m i : jsstring) :
  Legacy.wellFormed ws ws2 m i ->
  scanChallenge (Legacy.renderChallenge ws ws2 m i) = (m, i).
Proof.
  intros (Hws & Hsp & Hsp2 & Hm & Hmq & Hi & Hiq).
  change (scanChallenge (Legacy.renderChallenge ws ws2 m i))
    with (fold_left assignPair
            (pairsOf (Legacy.renderChallenge ws ws2 m i)) ([], [])).
  rewrite pairsOf_whole. unfold Legacy.renderChallenge.
  rewrite pairRegex_exec_word.
  - rewrite pairRegex_exec_spaces by exact Hsp.
    change (str "macaroon=" ++ dquote ++ m ++ dquote ++ str "," ++ ws2
              ++ str "invoice=" ++ dquote ++ i ++ dquote)
      with (str "macaroon" ++ [61%N; 34%N] ++ m ++ [34%N]
              ++ 44%N :: ws2 ++ str "invoice" ++ [61%N; 34%N] ++ i
              ++ [34%N] ++ []).
    rewrite pairRegex_exec_pair by (try discriminate; auto).
    rewrite pairRegex_exec_other by reflexivity.
    rewrite pairRegex_exec_spaces by exact Hsp2.
    rewrite pairRegex_exec_pair by (try discriminate; auto).
    reflexivity.
  - reflexivity.
  - destruct ws as [| w0 ws']; [ contradiction | ]. cbn [app].
    cbn [forallb] in Hsp. apply andb_true_iff in Hsp as [Hw0 _].
    split; [ apply isWhiteSpace_not_word; exact Hw0 | ].
    intros ->. discriminate.
Qed.

(** X27: the two versions of the parser agree on a header in the format
    of the first one: both take the same macaroon and the same invoice
    from it, and the later version, which never returns null on such a
    header, adds the two numbers it reads in the macaroon. *)
Theorem parseL402Challenge_versions (StringToNumber : jsstring -> float)
    (ws ws2 m i : jsstring) :
  Legacy.wellFormed ws ws2 m i ->
  Legacy.parseL402Challenge (Legacy.renderChallenge ws ws2 m i)
  = Some (Legacy.mkChallenge m i)
  /\ scanChallenge (Legacy.renderChallenge ws ws2 m i) = (m, i)
  /\ forall fuel,
       parseL402Challenge StringToNumber fuel
         (Legacy.renderChallenge ws ws2 m i)
       = match extractCaveatsFromMacaroon fuel m with
         | Some cs =>
             Some (Some (mkChallenge m i
                           (aggregate StringToNumber
                              MAX_BANDWIDTH_CONDITION cs)
                           (aggregate StringToNumber
                              EXPIRATION_CONDITION cs)))
         | None => None
         end.
Proof.
  intros H. pose proof (scan_legacy ws ws2 m i H) as Hscan.
  split; [ | split; [ exact Hscan | ] ].
  - unfold Legacy.parseL402Challenge. rewrite matchChallenge_eq.
    pose proof (matchHere_written ws ws2 m i [] H) as Hm.
    rewrite app_nil_r in Hm. rewrite Hm. reflexivity.
  - intros fuel. unfold parseL402Challenge. rewrite Hscan.
    destruct H as (_ & _ & _ & Hm & _ & Hi & _).
    unfold str_eqb. rewrite !bool_decide_eq_false_2 by assumption.
    cbn [orb]. unfold getMaxBandwidthFromMacaroon, getExpirationFromMacaroon.
    destruct (extractCaveatsFromMacaroon fuel m); reflexivity.
Qed.

Lemma parseL402Challenge_versions_witness :
  Legacy.wellFormed (str " ") (str " ") (str "AgEEbHNhdA") (str "lnbc1")
  /\ scanChallenge legacyHeader = (str "AgEEbHNhdA", str "lnbc1").
Proof.
  assert (Legacy.wellFormed (str " ") (str " ") (str "AgEEbHNhdA")
            (str "lnbc1")) as H
    by (repeat split; try discriminate; reflexivity).
  split; [ exact H | ].
  exact (proj1 (proj2 (parseL402Challenge_versions decimalToNumber
                         _ _ _ _ H))).
Defined.
